(** * VoxStream: the streaming audio pipeline

    A shallow embedding of [audioUtils.ts] (base64 helpers, PCM codec,
    resampler) and of the playback side of [services/liveManager.ts]
    (cursor, active sources, shared gain), with the properties the
    specification states about them.

    Conventions.
    - A JavaScript [number] is a [num]: [NaN], an infinity, or a finite value
      carried as an exact rational.  In the PCM codec every operation on a
      finite value is exact in binary64 (a float32 times 32767 or 32768, an
      int16 divided by 32768), so the rational model is the code.  In the
      resampler and in the scheduler the JavaScript arithmetic rounds each
      intermediate result to binary64 (and each stored sample to float32);
      there the rationals are the code with that rounding left out, and the
      length and the indices of the resampler are computed a second time
      with the rounding ([Num.binary64]) to show that it does not matter.
    - Memory is not bounded: no allocation fails for want of space.
    - A [Uint8Array] is a [list byte]; an [Int16Array] is a [list Z] of
      values already wrapped to sixteen bits; a [Float32Array] is a
      [list num].
    - A JavaScript string is the list of its UTF-16 code units.
    - A call that can throw returns a [result]. *)

From Stdlib Require Import ZArith NArith QArith Qround Qminmax Qabs Qpower.
From Stdlib Require Import Lia Lqa ZifyNat ZifyN.
From Stdlib Require Import DecimalString.
From Stdlib.Strings Require Import Byte Ascii String.
From stdpp Require Import base option list gmap sets.

Set Default Proof Using "Type".
Local Open Scope Z_scope.

(** ** Exceptions *)

Inductive exn : Set :=
| RangeError
| InvalidCharacterError
| NotSupportedError
| InvalidStateError.

Inductive result (A : Type) : Type :=
| Ok (a : A)
| Throw (e : exn).
Arguments Ok {A} a.
Arguments Throw {A} e.

Definition rbind {A B} (r : result A) (k : A -> result B) : result B :=
  match r with
  | Ok a => k a
  | Throw e => Throw e
  end.

Notation "'let*' x ':=' r 'in' k" := (rbind r (fun x => k))
  (at level 10, x name, r at level 100, k at level 200,
   format "'[v' 'let*'  x  ':='  r  'in' '/' k ']'").

Definition is_ok {A} (r : result A) : bool :=
  match r with Ok _ => true | Throw _ => false end.

(** ** JavaScript strings and typed arrays *)

Module JS.

(** A string is its sequence of UTF-16 code units. *)
Abbreviation str := (list N).

Definition of_string (s : string) : str :=
  List.map N_of_ascii (list_ascii_of_string s).

(** [String.fromCharCode] of an element of a [Uint8Array]. *)
Definition fromCharCode (b : byte) : N := Byte.to_N b.

(** Storing a number into a [Uint8Array] keeps it modulo 256. *)
Definition ToUint8 (n : N) : byte :=
  match Byte.of_N (n mod 256) with
  | Some b => b
  | None => x00
  end.

(** A counted [for (let i = 0; i < n; i++) a[i] = f(i)] over a typed array
    [a]: a store past the end of a typed array is ignored. *)
Definition fill {A} (n : nat) (f : nat -> A) (a : list A) : list A :=
  foldl (fun acc i => <[i := f i]> acc) a (seq 0 n).

End JS.

(** ** [atob] and [btoa]

    The two host functions, from the WHATWG HTML standard (forgiving-base64
    decode and encode) and RFC 4648, section 4. *)

Module Base64.
Local Open Scope N_scope.

Definition pad : N := 61.  (* '=' *)

(** The character of a sextet: A-Z, a-z, 0-9, '+', '/'. *)
Definition char_of (n : N) : N :=
  if n <? 26 then 65 + n
  else if n <? 52 then 97 + (n - 26)
  else if n <? 62 then 48 + (n - 52)
  else if n =? 62 then 43
  else 47.

Definition index_of (c : N) : option N :=
  if (65 <=? c) && (c <=? 90) then Some (c - 65)
  else if (97 <=? c) && (c <=? 122) then Some (c - 97 + 26)
  else if (48 <=? c) && (c <=? 57) then Some (c - 48 + 52)
  else if c =? 43 then Some 62
  else if c =? 47 then Some 63
  else None.

(** Three octets give four sextets; one or two trailing octets give two or
    three, the missing bits being zero. *)
Fixpoint sextets (l : list N) : list N :=
  match l with
  | [] => []
  | [a] => [a / 4; (a mod 4) * 16]
  | [a; b] => [a / 4; (a mod 4) * 16 + b / 16; (b mod 16) * 4]
  | a :: b :: c :: rest =>
      a / 4 :: (a mod 4) * 16 + b / 16 :: (b mod 16) * 4 + c / 64 :: c mod 64
        :: sextets rest
  end.

Definition padding (len : nat) : list N :=
  match (len mod 3)%nat with
  | 1%nat => [pad; pad]
  | 2%nat => [pad]
  | _ => []
  end.

(** [btoa]: throws when a code unit is above U+00FF. *)
Definition btoa (binary : JS.str) : result JS.str :=
  if forallb (fun c => c <=? 255) binary
  then Ok (List.map char_of (sextets binary) ++ padding (length binary))
  else Throw InvalidCharacterError.

Definition is_whitespace (c : N) : bool :=
  (c =? 9) || (c =? 10) || (c =? 12) || (c =? 13) || (c =? 32).

(** When the length is a multiple of four, one or two trailing '=' are
    removed. *)
Definition remove_last_pad (s : JS.str) : JS.str :=
  match rev s with
  | c :: r => if c =? pad then rev r else s
  | [] => s
  end.

Definition strip_padding (s : JS.str) : JS.str :=
  if (length s mod 4 =? 0)%nat
  then remove_last_pad (remove_last_pad s)
  else s.

(** Four sextets give three octets; a final group of two gives one octet
    and a final group of three gives two, the spare bits being dropped. *)
Fixpoint octets (l : list N) : list N :=
  match l with
  | s0 :: s1 :: s2 :: s3 :: rest =>
      s0 * 4 + s1 / 16 :: (s1 mod 16) * 16 + s2 / 4 :: (s2 mod 4) * 64 + s3
        :: octets rest
  | [s0; s1; s2] => [s0 * 4 + s1 / 16; (s1 mod 16) * 16 + s2 / 4]
  | [s0; s1] => [s0 * 4 + s1 / 16]
  | _ => []
  end.

(** [atob]: throws on a length of 1 modulo 4 (after stripping) and on any
    character outside the alphabet. *)
Definition atob (data : JS.str) : result JS.str :=
  let s := strip_padding (List.filter (fun c => negb (is_whitespace c)) data) in
  if (length s mod 4 =? 1)%nat then Throw InvalidCharacterError
  else match mapM index_of s with
       | Some sx => Ok (octets sx)
       | None => Throw InvalidCharacterError
       end.

End Base64.

(** ** [base64ToBytes], [bytesToBase64] *)

Abbreviation Uint8Array := (list byte).

Definition base64ToBytes (base64 : JS.str) : result Uint8Array :=
  let* binaryString := Base64.atob base64 in
  let len := length binaryString in
  Ok (JS.fill len (fun i => JS.ToUint8 (binaryString !!! i)) (replicate len x00)).

Definition bytesToBase64 (bytes : Uint8Array) : result JS.str :=
  let binary := foldl (fun acc b => acc ++ [JS.fromCharCode b]) [] bytes in
  Base64.btoa binary.

(** ** Numbers *)

Inductive num : Type :=
| NaN
| Inf (negative : bool)
| Fin (q : Q).

Module Num.
Local Open Scope Q_scope.

Definition Qltb (a b : Q) : bool := negb (Qle_bool b a).

(** Rounding towards zero. *)
Definition Qtrunc (q : Q) : Z :=
  if Qltb q 0 then Qceiling q else Qfloor q.

Definition of_Z (z : Z) : num := Fin (inject_Z z).
Definition of_nat (n : nat) : num := of_Z (Z.of_nat n).

(** The value read from a typed array: [undefined] past the end, which
    arithmetic turns into [NaN]. *)
Definition of_read (o : option num) : num :=
  match o with
  | Some x => x
  | None => NaN
  end.

Definition lt (a b : num) : bool :=
  match a, b with
  | NaN, _ | _, NaN => false
  | Inf true, Inf true => false
  | Inf true, _ => true
  | _, Inf true => false
  | Inf false, _ => false
  | Fin _, Inf false => true
  | Fin p, Fin q => Qltb p q
  end.

Definition min (a b : num) : num :=
  match a, b with
  | NaN, _ | _, NaN => NaN
  | _, _ => if lt b a then b else a
  end.

Definition max (a b : num) : num :=
  match a, b with
  | NaN, _ | _, NaN => NaN
  | _, _ => if lt a b then b else a
  end.

Definition add (a b : num) : num :=
  match a, b with
  | NaN, _ | _, NaN => NaN
  | Inf s, Inf t => if Bool.eqb s t then Inf s else NaN
  | Inf s, Fin _ | Fin _, Inf s => Inf s
  | Fin p, Fin q => Fin (p + q)
  end.

Definition mul (a b : num) : num :=
  match a, b with
  | NaN, _ | _, NaN => NaN
  | Inf s, Inf t => Inf (xorb s t)
  | Inf s, Fin q | Fin q, Inf s =>
      if Qeq_bool q 0 then NaN else Inf (xorb s (Qltb q 0))
  | Fin p, Fin q => Fin (p * q)
  end.

Definition div (a b : num) : num :=
  match a, b with
  | NaN, _ | _, NaN => NaN
  | Inf _, Inf _ => NaN
  | Inf s, Fin q => Inf (xorb s (Qltb q 0))
  | Fin _, Inf _ => Fin 0
  | Fin p, Fin q =>
      if Qeq_bool q 0
      then (if Qeq_bool p 0 then NaN else Inf (Qltb p 0))
      else Fin (p / q)
  end.

(** Two's-complement wrap of an integer to sixteen bits. *)
Definition wrap16 (z : Z) : Z := ((z + 32768) mod 65536 - 32768)%Z.

(** The conversion on a store into an [Int16Array]: [NaN] and the
    infinities give 0, a finite value is truncated and wrapped. *)
Definition ToInt16 (x : num) : Z :=
  match x with
  | Fin q => wrap16 (Qtrunc q)
  | _ => 0%Z
  end.

(** The conversion of an [unsigned long] argument. *)
Definition ToUint32 (x : num) : Z :=
  match x with
  | Fin q => (Qtrunc q mod 2 ^ 32)%Z
  | _ => 0%Z
  end.

(** The number of passes of [for (let i = 0; i < bound; i++)].  The loop
    does not end on [Inf false]; no caller reaches it with that bound. *)
Definition passes (bound : num) : nat :=
  match bound with
  | Fin q => Z.to_nat (Qceiling q)
  | _ => 0%nat
  end.

(** [Math.round]: to the nearest integer, a tie going up. *)
Definition Math_round (q : Q) : Z := Qfloor (q + (1 # 2)).

Definition Math_floor (q : Q) : Z := Qfloor q.

(** Rounding to the nearest integer, a tie going to the even one. *)
Definition nearest_even (m : Q) : Z :=
  let f := Qfloor m in
  let d := m - inject_Z f in
  if Qltb d (1 # 2) then f
  else if Qltb (1 # 2) d then (f + 1)%Z
  else if Z.even f then f else (f + 1)%Z.

(** The binary64 value nearest to a rational: 53 significant bits, a tie
    going to the even significand.  The exponent is not bounded, so this is
    the rounding of the JavaScript arithmetic where it neither overflows nor
    underflows. *)
Definition binary64 (q : Q) : Q :=
  if Qeq_bool q 0 then 0
  else
    let a := Qabs q in
    let e1 := (Z.log2 (Z.abs (Qnum q)) - Z.log2 (Zpos (Qden q)))%Z in
    let e := if Qle_bool (2 ^ e1) a then e1 else (e1 - 1)%Z in
    let ulp := 2 ^ (e - 52) in
    let v := inject_Z (nearest_even (a / ulp)) * ulp in
    if Qltb q 0 then - v else v.

End Num.

(** ** Typed array views

    A view covers the whole of its buffer, as every array of this program
    does, and the bytes of a sixteen-bit element come low byte first, as on
    every platform a browser runs on. *)

Abbreviation Int16Array := (list Z).
Abbreviation Float32Array := (list num).

(** The sixteen-bit value of two bytes, low byte first. *)
Definition int16_of_bytes (lo hi : byte) : Z :=
  Num.wrap16 (Z.of_N (Byte.to_N lo) + 256 * Z.of_N (Byte.to_N hi)).

(** [new Int16Array(buffer)]: a [RangeError] when the byte length is odd. *)
Fixpoint Int16Array_of_buffer (buffer : list byte) : result Int16Array :=
  match buffer with
  | [] => Ok []
  | [_] => Throw RangeError
  | lo :: hi :: rest =>
      let* tail := Int16Array_of_buffer rest in
      Ok (int16_of_bytes lo hi :: tail)
  end.

Definition byte_of_Z (z : Z) : byte := JS.ToUint8 (Z.to_N (z mod 256)).

(** [new Uint8Array(int16.buffer)]: two bytes per element, low byte first. *)
Definition Uint8Array_of_Int16Array (a : Int16Array) : Uint8Array :=
  flat_map (fun z => [byte_of_Z z; byte_of_Z (z / 256)]) a.

(** ** The Web Audio buffer

    [AudioBuffer] and [BaseAudioContext.createBuffer], from the Web Audio
    API: the call throws [NotSupportedError] when an argument is outside its
    nominal range, taken here as the range every implementation supports
    (1 to 32 channels, at least one frame, 8000 to 96000 Hz). *)

Inductive AudioContextState : Set := suspended | running | closed.

Record AudioContext : Type := { state : AudioContextState }.

Record AudioBuffer : Type := {
  ab_sampleRate : Q;
  ab_length : nat;
  ab_channels : list Float32Array
}.

Definition duration (b : AudioBuffer) : Q :=
  (inject_Z (Z.of_nat (ab_length b)) / ab_sampleRate b)%Q.

Definition createBuffer (ctx : AudioContext)
    (numberOfChannels : nat) (length : num) (rate : Q) : result AudioBuffer :=
  let frames := Z.to_nat (Num.ToUint32 length) in
  if ((1 <=? numberOfChannels)%nat && (numberOfChannels <=? 32)%nat
      && (1 <=? frames)%nat
      && Qle_bool 8000 rate && Qle_bool rate 96000)%bool
  then Ok {| ab_sampleRate := rate;
             ab_length := frames;
             ab_channels := replicate numberOfChannels
                              (replicate frames (Fin 0)) |}
  else Throw NotSupportedError.

(** ** [decodeAudioData] *)

Definition decodeAudioData (data : Uint8Array) (ctx : AudioContext)
    (sampleRate : Q) (numChannels : nat) : result AudioBuffer :=
  let* dataInt16 := Int16Array_of_buffer data in
  let frameCount :=
    Num.div (Num.of_nat (length dataInt16)) (Num.of_nat numChannels) in
  let* buffer := createBuffer ctx numChannels frameCount sampleRate in
  Ok {| ab_sampleRate := ab_sampleRate buffer;
        ab_length := ab_length buffer;
        ab_channels :=
          imap (fun channel channelData =>
                  JS.fill (Num.passes frameCount)
                    (fun i =>
                       Num.div
                         (Num.of_read
                            (Num.of_Z <$>
                               dataInt16 !! (i * numChannels + channel)%nat))
                         (Fin 32768))
                    channelData)
            (ab_channels buffer) |}.

(** What [decodeAudioData] returns once the bytes have been read as
    sixteen-bit samples: an error when they hold less than one frame, and
    otherwise the de-interleaved samples, each divided by 32768. *)
Definition decoded (d16 : Int16Array) (rate : Q) (numChannels : nat)
    : result AudioBuffer :=
  let frames := (length d16 / numChannels)%nat in
  if (frames =? 0)%nat then Throw NotSupportedError
  else Ok {| ab_sampleRate := rate;
             ab_length := frames;
             ab_channels :=
               List.map
                 (fun channel =>
                    List.map
                      (fun i =>
                         Num.div
                           (Num.of_read
                              (Num.of_Z <$>
                                 d16 !! (i * numChannels + channel)%nat))
                           (Fin 32768))
                      (seq 0 frames))
                 (seq 0 numChannels) |}.

(** ** [resampleTo16k] *)

(** An element read at a numeric index: [undefined] unless the index is an
    integer within the array. *)
Definition read_at (a : Float32Array) (index : Z) : num :=
  Num.of_read (if (index <? 0)%Z then None else a !! Z.to_nat index).

Definition resampleTo16k (audioData : Float32Array) (origSampleRate : Q)
    : result Float32Array :=
  if Qeq_bool origSampleRate 16000 then Ok audioData
  else
    let targetSampleRate := 16000%Q in
    let ratio := (origSampleRate / targetSampleRate)%Q in
    let len := inject_Z (Z.of_nat (length audioData)) in
    (* audioData.length / ratio is an infinity, or NaN, when ratio is 0 *)
    if Qeq_bool ratio 0
    then (if Qeq_bool len 0 then Ok [] else Throw RangeError)
    else
      let newLength := Num.Math_round (len / ratio) in
      if (newLength <? 0)%Z then Throw RangeError
      else
        let result := replicate (Z.to_nat newLength) (Fin 0) in
        Ok (JS.fill (Z.to_nat newLength)
              (fun i =>
                 let originalIndex := (inject_Z (Z.of_nat i) * ratio)%Q in
                 let index1 := Num.Math_floor originalIndex in
                 let index2 :=
                   Z.min (index1 + 1) (Z.of_nat (length audioData) - 1) in
                 let fraction := (originalIndex - inject_Z index1)%Q in
                 Num.add
                   (Num.mul (read_at audioData index1) (Fin (1 - fraction)))
                   (Num.mul (read_at audioData index2) (Fin fraction)))
              result).

(** The sample [resampleTo16k] stores at index [i] (the body of its loop),
    and the two indices it reads. *)
Definition index1_of (ratio : Q) (i : nat) : Z :=
  Num.Math_floor (inject_Z (Z.of_nat i) * ratio).

Definition index2_of (audioData : Float32Array) (ratio : Q) (i : nat) : Z :=
  Z.min (index1_of ratio i + 1) (Z.of_nat (length audioData) - 1).

Definition fraction_of (ratio : Q) (i : nat) : Q :=
  (inject_Z (Z.of_nat i) * ratio - inject_Z (index1_of ratio i))%Q.

Definition resampled_sample (audioData : Float32Array) (ratio : Q) (i : nat)
    : num :=
  Num.add
    (Num.mul (read_at audioData (index1_of ratio i))
       (Fin (1 - fraction_of ratio i)))
    (Num.mul (read_at audioData (index2_of audioData ratio i))
       (Fin (fraction_of ratio i))).

(** The length of the result and the first index read, as binary64
    arithmetic gives them: [origSampleRate / targetSampleRate],
    [audioData.length / ratio] and [i * ratio] are each rounded. *)
Definition newLength_binary64 (audioData : Float32Array) (origSampleRate : Q)
    : Z :=
  let ratio := Num.binary64 (origSampleRate / 16000) in
  Num.Math_round
    (Num.binary64 (inject_Z (Z.of_nat (length audioData)) / ratio)).

Definition index1_binary64 (origSampleRate : Q) (i : nat) : Z :=
  let ratio := Num.binary64 (origSampleRate / 16000) in
  Num.Math_floor (Num.binary64 (inject_Z (Z.of_nat i) * ratio)).

(** ** [createPcmBlob] *)

Record Blob : Type := {
  blob_data : JS.str;
  blob_mimeType : JS.str
}.

(** [sampleRate] is 16000 when the caller leaves it out. *)
Definition createPcmBlob (data : Float32Array) (sampleRate : N)
    : result Blob :=
  let l := length data in
  let int16 := replicate l 0%Z in
  let int16 :=
    JS.fill l
      (fun i =>
         (* Clamp values between -1 and 1 to avoid wrapping artifacts *)
         let sample :=
           Num.max (Fin (-1)) (Num.min (Fin 1) (Num.of_read (data !! i))) in
         (* Convert float32 (-1.0 to 1.0) to int16 (-32768 to 32767) *)
         Num.ToInt16
           (if Num.lt sample (Fin 0)
            then Num.mul sample (Fin 32768)
            else Num.mul sample (Fin 32767)))
      int16 in
  let* base64 := bytesToBase64 (Uint8Array_of_Int16Array int16) in
  Ok {| blob_data := base64;
        blob_mimeType :=
          JS.of_string
            ("audio/pcm;rate="
               ++ NilZero.string_of_uint (N.to_uint sampleRate)) |}.

(** The value [createPcmBlob] stores for one sample (the body of its loop). *)
Definition pcm_sample (x : num) : Z :=
  let sample := Num.max (Fin (-1)) (Num.min (Fin 1) x) in
  Num.ToInt16
    (if Num.lt sample (Fin 0)
     then Num.mul sample (Fin 32768)
     else Num.mul sample (Fin 32767)).

(** ** The codec in the specification's words

    Encoding clamps a sample to [-1, 1], scales a negative value by 32768 and
    any other by 32767, and truncates; the infinities clamp to the bounds and
    [NaN], which has no place in [-1, 1], is stored as 0. *)

Definition clamp (q : Q) : Q := Qmax (-1) (Qmin 1 q).

Definition spec_encode_sample (x : num) : Z :=
  match x with
  | NaN => 0
  | Inf true => -32768
  | Inf false => 32767
  | Fin q =>
      let c := clamp q in
      Num.Qtrunc (if Num.Qltb c 0 then c * 32768 else c * 32767)%Q
  end.

(** Decoding divides a sample by 32768. *)
Definition spec_decode_sample (z : Z) : num :=
  Fin (inject_Z z / 32768).

(** ** The playback side of [LiveManager]

    The class keeps references to Web Audio objects that it and the audio
    device both change: the output context, one gain node, and the source
    nodes it has scheduled.  The objects live in two stores, the gain nodes
    by name and the source nodes by the order of their creation; the fields
    hold names and positions.

    The device's clock, [outputAudioContext.currentTime], is read by the
    code at two places; each operation takes the value read as an argument.
    [handleMessage] is first given as one function, its steps run without
    another handler in between; further down it is cut at its [await]s. *)

Inductive Ending : Set := played_out | stop_called.

Record AudioBufferSourceNode : Type := {
  src_buffer : AudioBuffer;
  src_destination : nat;           (* the node it is connected to *)
  src_start : option Q;            (* the argument of start(), once called *)
  src_ending : option Ending       (* set once the node has ended *)
}.

Record LiveManager : Type := {
  (* fields of the class *)
  outputAudioContext : option AudioContext;
  outputNode : option nat;
  nextStartTime : Q;
  activeSources : gset nat;
  (* the objects the fields refer to *)
  gains : gmap nat Q;                      (* gain.value of each GainNode *)
  sources : list AudioBufferSourceNode
}.

Definition set_outputAudioContext (c : option AudioContext) (m : LiveManager) :=
  {| outputAudioContext := c;
     outputNode := outputNode m;
     nextStartTime := nextStartTime m;
     activeSources := activeSources m;
     gains := gains m;
     sources := sources m |}.

Definition set_outputNode (n : option nat) (m : LiveManager) :=
  {| outputAudioContext := outputAudioContext m;
     outputNode := n;
     nextStartTime := nextStartTime m;
     activeSources := activeSources m;
     gains := gains m;
     sources := sources m |}.

Definition set_nextStartTime (t : Q) (m : LiveManager) :=
  {| outputAudioContext := outputAudioContext m;
     outputNode := outputNode m;
     nextStartTime := t;
     activeSources := activeSources m;
     gains := gains m;
     sources := sources m |}.

Definition set_activeSources (s : gset nat) (m : LiveManager) :=
  {| outputAudioContext := outputAudioContext m;
     outputNode := outputNode m;
     nextStartTime := nextStartTime m;
     activeSources := s;
     gains := gains m;
     sources := sources m |}.

Definition set_gains (g : gmap nat Q) (m : LiveManager) :=
  {| outputAudioContext := outputAudioContext m;
     outputNode := outputNode m;
     nextStartTime := nextStartTime m;
     activeSources := activeSources m;
     gains := g;
     sources := sources m |}.

Definition set_sources (s : list AudioBufferSourceNode) (m : LiveManager) :=
  {| outputAudioContext := outputAudioContext m;
     outputNode := outputNode m;
     nextStartTime := nextStartTime m;
     activeSources := activeSources m;
     gains := gains m;
     sources := s |}.

(** [new LiveManager()]. *)
Definition new_LiveManager : LiveManager :=
  {| outputAudioContext := None;
     outputNode := None;
     nextStartTime := 0;
     activeSources := ∅;
     gains := ∅;
     sources := [] |}.

(** *** Source nodes *)

(** [source.start(when)]: a [RangeError] on a negative time, an
    [InvalidStateError] on a second call. *)
Definition source_start (when : Q) (s : AudioBufferSourceNode)
    : result AudioBufferSourceNode :=
  match src_start s with
  | Some _ => Throw InvalidStateError
  | None =>
      if Num.Qltb when 0 then Throw RangeError
      else Ok {| src_buffer := src_buffer s;
                 src_destination := src_destination s;
                 src_start := Some when;
                 src_ending := src_ending s |}
  end.

(** [source.stop()]: an [InvalidStateError] before [start]; nothing happens
    to a node that has ended. *)
Definition source_stop (s : AudioBufferSourceNode)
    : result AudioBufferSourceNode :=
  match src_start s with
  | None => Throw InvalidStateError
  | Some _ =>
      match src_ending s with
      | Some _ => Ok s
      | None => Ok {| src_buffer := src_buffer s;
                      src_destination := src_destination s;
                      src_start := src_start s;
                      src_ending := Some stop_called |}
      end
  end.

(** The device plays a scheduled node to its end. *)
Definition device_finishes (id : nat) (m : LiveManager) : LiveManager :=
  match sources m !! id with
  | Some s =>
      match src_start s, src_ending s with
      | Some _, None =>
          set_sources
            (<[id := {| src_buffer := src_buffer s;
                        src_destination := src_destination s;
                        src_start := src_start s;
                        src_ending := Some played_out |}]> (sources m)) m
      | _, _ => m
      end
  | None => m
  end.

(** The listener of a node's ['ended'] event. *)
Definition ended (source : nat) (m : LiveManager) : LiveManager :=
  set_activeSources (activeSources m ∖ {[source]}) m.

(** *** [connect], the output path

    The part of [connect] that builds the output path: a new output context
    (in the state the browser gives it) and a new gain node, whose gain is 1.
    The microphone and the session are outside this model. *)
Definition connect (initial : AudioContextState) (m : LiveManager)
    : LiveManager :=
  let m := set_outputAudioContext (Some {| state := initial |}) m in
  let node := fresh (dom (gains m)) in
  let m := set_gains (<[node := 1%Q]> (gains m)) m in
  set_outputNode (Some node) m.

(** *** [stopAllAudio] *)

Definition stopAllAudio (currentTime : Q) (m : LiveManager) : LiveManager :=
  let m :=
    set_sources
      (foldr (fun source srcs =>
                match srcs !! source with
                | Some s =>
                    (* try { source.stop(); } catch(e) {} *)
                    match source_stop s with
                    | Ok s' => <[source := s']> srcs
                    | Throw _ => srcs
                    end
                | None => srcs
                end)
         (sources m) (elements (activeSources m))) m in
  let m := set_activeSources ∅ m in
  (* Reset cursor to current time *)
  match outputAudioContext m with
  | Some _ => set_nextStartTime currentTime m
  | None => set_nextStartTime 0 m
  end.

(** *** [handleMessage] *)

Record LiveServerMessage : Type := {
  (* message.serverContent?.modelTurn?.parts?.[0]?.inlineData?.data *)
  inlineData : option JS.str;
  (* message.serverContent?.interrupted *)
  interrupted : bool
}.

(** The body of the [try]: the state it leaves, whether it ran to its end or
    was cut short by an exception (which the [catch] only logs).  A
    suspended context resumes when asked to. *)
Definition schedule (base64Audio : JS.str) (ctx : AudioContext) (node : nat)
    (currentTime : Q) (m : LiveManager) : LiveManager :=
  (* Ensure output context is running (browsers suspend it sometimes) *)
  let ctx :=
    match state ctx with
    | suspended => {| state := running |}
    | _ => ctx
    end in
  let m := set_outputAudioContext (Some ctx) m in
  let m := set_nextStartTime (Qmax (nextStartTime m) currentTime) m in
  match base64ToBytes base64Audio with
  | Throw _ => m
  | Ok audioBytes =>
      (* Output from Gemini Live is 24000Hz *)
      match decodeAudioData audioBytes ctx 24000 1 with
      | Throw _ => m
      | Ok audioBuffer =>
          let source := length (sources m) in
          let node_ := {| src_buffer := audioBuffer;
                          src_destination := node;
                          src_start := None;
                          src_ending := None |} in
          match source_start (nextStartTime m) node_ with
          | Throw _ => set_sources (sources m ++ [node_]) m
          | Ok started =>
              let m := set_sources (sources m ++ [started]) m in
              let m :=
                set_nextStartTime
                  (nextStartTime m + duration audioBuffer)%Q m in
              set_activeSources ({[source]} ∪ activeSources m) m
          end
      end
  end.

Definition handleMessage (message : LiveServerMessage)
    (currentTime currentTime' : Q) (m : LiveManager) : LiveManager :=
  match outputAudioContext m, outputNode m with
  | Some ctx, Some node =>
      let m :=
        match inlineData message with
        | Some (c :: rest) => schedule (c :: rest) ctx node currentTime m
        | _ => m
        end in
      if interrupted message then stopAllAudio currentTime' m else m
  | _, _ => m
  end.

(** *** [disconnect], the output path *)

Definition disconnect (currentTime : Q) (m : LiveManager) : LiveManager :=
  let m := stopAllAudio currentTime m in
  match outputAudioContext m with
  | Some _ => set_outputAudioContext None m
  | None => m
  end.

(** *** [setVolume] *)

Definition setVolume (val : Q) (m : LiveManager) : LiveManager :=
  match outputNode m, outputAudioContext m with
  | Some node, Some _ =>
      (* val is 0-100 *)
      set_gains (<[node := (val / 100)%Q]> (gains m)) m
  | _, _ => m
  end.

(** The gain on the path from a source node to the device. *)
Definition output_gain (m : LiveManager) (s : AudioBufferSourceNode)
    : option Q :=
  gains m !! src_destination s.

(** *** Runs *)

(** What happens to a manager between [connect] and [disconnect]: a message
    arrives (with the two clock readings of its handler), the device plays a
    node to its end, the listener of an ['ended'] event runs, the volume is
    set. *)
Inductive event : Type :=
| Message (message : LiveServerMessage) (currentTime currentTime' : Q)
| Finished (source : nat)
| Ended (source : nat)
| Volume (val : Q).

Definition step (m : LiveManager) (e : event) : LiveManager :=
  match e with
  | Message message t t' => handleMessage message t t' m
  | Finished source => device_finishes source m
  | Ended source => ended source m
  | Volume val => setVolume val m
  end.

Definition run (m : LiveManager) (events : list event) : LiveManager :=
  foldl step m events.

Definition no_interrupt (e : event) : Prop :=
  match e with
  | Message message _ _ => interrupted message = false
  | _ => True
  end.

Definition no_volume (e : event) : Prop :=
  match e with
  | Volume _ => False
  | _ => True
  end.

(** The units scheduled on the device, in the order of their scheduling:
    start time and duration. *)
Definition units (m : LiveManager) : list (Q * Q) :=
  omap (fun s => (fun t => (t, duration (src_buffer s))) <$> src_start s)
    (sources m).

(** No unit begins before the one scheduled before it is over. *)
Fixpoint gapless (us : list (Q * Q)) : Prop :=
  match us with
  | (t1, d1) :: (((t2, _) :: _) as rest) =>
      (t1 + d1 <= t2)%Q /\ gapless rest
  | _ => True
  end.

(** The same, with no unit before [cursor] either. *)
Fixpoint gapless_from (cursor : Q) (us : list (Q * Q)) : Prop :=
  match us with
  | [] => True
  | (t, d) :: rest => (cursor <= t)%Q /\ gapless_from (t + d) rest
  end.

(** ** Handlers in flight

    [handleMessage] is asynchronous: it gives way at
    [await this.outputAudioContext.resume()] (only when the context is
    suspended) and at [await decodeAudioData(...)], and other handlers may
    run before it goes on.  Here it is cut at the two places.  A handler
    that has given way is kept with what it holds at that place; when it
    goes on it reads the fields of the manager again. *)

Inductive handler : Type :=
| at_resume (message : LiveServerMessage) (base64Audio : JS.str)
| at_decode (message : LiveServerMessage) (decoded : result AudioBuffer).

(** After the [try]: the interruption. *)
Definition interruption (message : LiveServerMessage) (currentTime' : Q)
    (m : LiveManager) : LiveManager :=
  if interrupted message then stopAllAudio currentTime' m else m.

(** From the update of the cursor to [await decodeAudioData(...)].  Without
    an output context the read of its clock throws, and the [catch] logs. *)
Definition decoding (message : LiveServerMessage) (base64Audio : JS.str)
    (currentTime currentTime' : Q) (m : LiveManager)
    : LiveManager * option handler :=
  match outputAudioContext m with
  | None => (interruption message currentTime' m, None)
  | Some ctx =>
      let m := set_nextStartTime (Qmax (nextStartTime m) currentTime) m in
      match base64ToBytes base64Audio with
      | Throw _ => (interruption message currentTime' m, None)
      | Ok audioBytes =>
          (m, Some (at_decode message
                      (decodeAudioData audioBytes ctx 24000 1)))
      end
  end.

(** From the start of the handler to its first [await]. *)
Definition entering (message : LiveServerMessage)
    (currentTime currentTime' : Q) (m : LiveManager)
    : LiveManager * option handler :=
  match outputAudioContext m, outputNode m with
  | Some ctx, Some node =>
      match inlineData message with
      | Some (c :: rest) =>
          match state ctx with
          | suspended => (m, Some (at_resume message (c :: rest)))
          | _ => decoding message (c :: rest) currentTime currentTime' m
          end
      | _ => (interruption message currentTime' m, None)
      end
  | _, _ => (m, None)
  end.

(** The context resumes, and the handler goes on. *)
Definition resuming (message : LiveServerMessage) (base64Audio : JS.str)
    (currentTime currentTime' : Q) (m : LiveManager)
    : LiveManager * option handler :=
  let m :=
    match outputAudioContext m with
    | Some ctx =>
        match state ctx with
        | suspended => set_outputAudioContext (Some {| state := running |}) m
        | _ => m
        end
    | None => m
    end in
  decoding message base64Audio currentTime currentTime' m.

(** From the result of [decodeAudioData] to the end.  Without an output
    context or an output node the creation or the connection of the source
    node throws, and the [catch] logs. *)
Definition scheduling (message : LiveServerMessage)
    (decoded : result AudioBuffer) (currentTime' : Q) (m : LiveManager)
    : LiveManager :=
  let m :=
    match decoded, outputAudioContext m, outputNode m with
    | Ok audioBuffer, Some _, Some node =>
        let source := length (sources m) in
        let node_ := {| src_buffer := audioBuffer;
                        src_destination := node;
                        src_start := None;
                        src_ending := None |} in
        match source_start (nextStartTime m) node_ with
        | Throw _ => set_sources (sources m ++ [node_]) m
        | Ok started =>
            let m := set_sources (sources m ++ [started]) m in
            let m :=
              set_nextStartTime
                (nextStartTime m + duration audioBuffer)%Q m in
            set_activeSources ({[source]} ∪ activeSources m) m
        end
    | _, _, _ => m
    end in
  interruption message currentTime' m.

(** A manager with its handlers in flight, and what can happen to it: a
    message arrives and its handler runs to its first [await]; a handler in
    flight goes on (any of them: the order of the event loop is one of the
    orders allowed here); an event of the manager alone (a message among
    them, whose handler then runs to its end without giving way). *)
Inductive occurrence : Type :=
| Arrives (message : LiveServerMessage) (currentTime currentTime' : Q)
| GoesOn (index : nat) (currentTime currentTime' : Q)
| Alone (e : event).

Definition in_flight : Type := LiveManager * list handler.

Definition keep (h : option handler) (hs : list handler) : list handler :=
  match h with
  | Some h => hs ++ [h]
  | None => hs
  end.

Definition occur (s : in_flight) (o : occurrence) : in_flight :=
  let '(m, hs) := s in
  match o with
  | Arrives message t t' =>
      let '(m, h) := entering message t t' m in (m, keep h hs)
  | GoesOn index t t' =>
      match hs !! index with
      | Some (at_resume message base64Audio) =>
          let '(m, h) := resuming message base64Audio t t' m in
          (m, keep h (delete index hs))
      | Some (at_decode message decoded) =>
          (scheduling message decoded t' m, delete index hs)
      | None => (m, hs)
      end
  | Alone e => (step m e, hs)
  end.

Definition occurrences (s : in_flight) (os : list occurrence) : in_flight :=
  foldl occur s os.

(** A message that arrives carries no interruption. *)
Definition uninterrupted (o : occurrence) : Prop :=
  match o with
  | Arrives message _ _ => interrupted message = false
  | GoesOn _ _ _ => True
  | Alone e => no_interrupt e
  end.

(** A handler in flight whose message carries no interruption and whose
    buffer, once decoded, has a duration that is not negative. *)
Definition sound (h : handler) : Prop :=
  match h with
  | at_resume message _ => interrupted message = false
  | at_decode message decoded =>
      interrupted message = false /\
      match decoded with
      | Ok audioBuffer => (0 <= duration audioBuffer)%Q
      | Throw _ => True
      end
  end.

(** A handler run from its start to its end with nothing in between. *)
Definition to_completion (message : LiveServerMessage)
    (currentTime currentTime' : Q) (m : LiveManager) : LiveManager :=
  match entering message currentTime currentTime' m with
  | (m, None) => m
  | (m, Some (at_decode message decoded)) =>
      scheduling message decoded currentTime' m
  | (m, Some (at_resume message base64Audio)) =>
      match resuming message base64Audio currentTime currentTime' m with
      | (m, Some (at_decode message decoded)) =>
          scheduling message decoded currentTime' m
      | (m, _) => m
      end
  end.

(** ** Encoding followed by decoding

    [createPcmBlob], then [base64ToBytes] and [decodeAudioData] on its text,
    at the rate of the encoding and one channel; the result is the data of
    channel 0. *)

Definition roundtrip (ctx : AudioContext) (s : Float32Array)
    : result Float32Array :=
  let* blob := createPcmBlob s 16000 in
  let* bytes := base64ToBytes (blob_data blob) in
  let* buffer := decodeAudioData bytes ctx 16000 1 in
  Ok (default [] (ab_channels buffer !! 0%nat)).

(** A finite sample within [-1, 1]. *)
Definition in_unit_range (x : num) : Prop :=
  match x with
  | Fin q => (-1 <= q <= 1)%Q
  | _ => False
  end.

(** Two samples no further apart than [eps]. *)
Definition within (eps : Q) (x y : num) : Prop :=
  match x, y with
  | Fin p, Fin q => (Qabs (p - q) <= eps)%Q
  | _, _ => False
  end.

(** ** A small session

    A manager just connected, and two messages that each carry two samples
    of silence (the base64 text of four zero bytes). *)

Definition connected : LiveManager := connect running new_LiveManager.

Definition silence : LiveServerMessage :=
  {| inlineData := Some (JS.of_string "AAAAAA==");
     interrupted := false |}.

(** * More of the code

    The rest of [audioUtils.ts] (the two effect helpers), the capture side
    of [services/liveManager.ts] (the instruction for the model, the
    microphone handler) and the life of a manager through [connect] and
    [disconnect]. *)

(** A sample that is a number: neither [NaN] nor an infinity. *)
Definition finite (x : num) : Prop :=
  match x with
  | Fin _ => True
  | _ => False
  end.

(** ** The effect helpers of [audioUtils.ts] *)

(** Subtraction of two numbers. *)
Definition subtract (a b : num) : num :=
  match a, b with
  | NaN, _ | _, NaN => NaN
  | Inf s, Inf t => if Bool.eqb s t then NaN else Inf s
  | Inf s, Fin _ => Inf s
  | Fin _, Inf t => Inf (negb t)
  | Fin p, Fin q => Fin (p - q)
  end.

Module Math.

(** [Math.PI]: the binary64 value nearest to pi, 884279719003555 / 2^48. *)
Definition PI : Q := 884279719003555 # 281474976710656.

Definition abs (x : num) : num :=
  match x with
  | NaN => NaN
  | Inf _ => Inf false
  | Fin q => Fin (Qabs q)
  end.

End Math.

(** *** [makeDistortionCurve]

    [amount] is [None] for a value that is not a number, which only a caller
    outside TypeScript can pass. *)
Definition makeDistortionCurve (amount : option num) : Float32Array :=
  let k := match amount with Some amount => amount | None => Fin 50 end in
  let n_samples := 44100 in
  let curve := replicate (Z.to_nat n_samples) (Fin 0) in
  let deg := Num.div (Fin Math.PI) (Fin 180) in
  JS.fill (Z.to_nat n_samples)
    (fun i =>
       let x :=
         subtract
           (Num.div (Num.mul (Num.of_nat i) (Fin 2)) (Num.of_Z n_samples))
           (Fin 1) in
       (* Classic sigmoid distortion curve *)
       Num.div
         (Num.mul (Num.mul (Num.mul (Num.add (Fin 3) k) x) (Fin 20)) deg)
         (Num.add (Fin Math.PI) (Num.mul k (Math.abs x))))
    curve.

(** The input value of point [i] of the curve, and the value of the curve
    there for a finite amount [k] (the body of the loop). *)
Definition curve_x (i : nat) : Q :=
  (inject_Z (Z.of_nat i) * 2 / inject_Z 44100 - 1)%Q.

Definition curve_y (k x : Q) : Q :=
  ((3 + k) * x * 20 * (Math.PI / 180) / (Math.PI + k * Qabs x))%Q.

(** *** [createImpulseResponse]

    [Math.random] is the sequence of the values it returns, one for each
    call in the order of the calls; [Math.pow], whose result is left to the
    implementation, is a function of its two arguments.  [sampleRate] is
    [context.sampleRate]. *)
Definition createImpulseResponse (random : nat -> Q)
    (pow : num -> num -> num) (context : AudioContext) (sampleRate : Q)
    (duration decay : num) (reverse : bool) : result AudioBuffer :=
  let length := Num.mul (Fin sampleRate) duration in
  let* impulse := createBuffer context 2 length sampleRate in
  (* left is channel 0 and right is channel 1; in each pass of the loop
     left draws first *)
  let side (channel : nat) (channelData : Float32Array) : Float32Array :=
    JS.fill (Num.passes length)
      (fun i =>
         let n := if reverse then subtract length (Num.of_nat i)
                  else Num.of_nat i in
         (* Simple white noise with exponential decay *)
         Num.mul
           (subtract (Num.mul (Fin (random (2 * i + channel)%nat)) (Fin 2))
              (Fin 1))
           (pow (subtract (Fin 1) (Num.div n length)) decay))
      channelData in
  Ok {| ab_sampleRate := ab_sampleRate impulse;
        ab_length := ab_length impulse;
        ab_channels := imap side (ab_channels impulse) |}.

(** The sample [createImpulseResponse] stores at index [i] of a channel (the
    body of its loop); [length] is [sampleRate * duration]. *)
Definition impulse_sample (random : nat -> Q) (pow : num -> num -> num)
    (length decay : num) (reverse : bool) (channel i : nat) : num :=
  let n := if reverse then subtract length (Num.of_nat i) else Num.of_nat i in
  Num.mul
    (subtract (Num.mul (Fin (random (2 * i + channel)%nat)) (Fin 2))
       (Fin 1))
    (pow (subtract (Fin 1) (Num.div n length)) decay).

(** ** The life of a manager

    What the application does to a manager, besides what happens to it while
    it is connected: [connect] (the browser giving the new output context
    its state) and [disconnect] (with the reading of the clock).  A
    [connect] that fails after the output path is built ends in the
    [disconnect] of its [catch]: a [Connect] followed by a [Disconnect]. *)
Inductive action : Type :=
| Connect (initial : AudioContextState)
| Disconnect (currentTime : Q)
| Happens (e : event).

Definition act (m : LiveManager) (a : action) : LiveManager :=
  match a with
  | Connect initial => connect initial m
  | Disconnect currentTime => disconnect currentTime m
  | Happens e => step m e
  end.

Definition lifetime (m : LiveManager) (actions : list action) : LiveManager :=
  foldl act m actions.

(** What can still reach a manager once it is disconnected: messages that
    arrive, handlers in flight that go on, ['ended'] listeners, changes of
    the volume. *)
Definition late (o : occurrence) : Prop :=
  match o with
  | Arrives _ _ _ | GoesOn _ _ _ => True
  | Alone (Message _ _ _) | Alone (Ended _) | Alone (Volume _) => True
  | Alone (Finished _) => False
  end.

(** A node after [stop()]. *)
Definition stopped (s : AudioBufferSourceNode) : AudioBufferSourceNode :=
  {| src_buffer := src_buffer s;
     src_destination := src_destination s;
     src_start := src_start s;
     src_ending := Some stop_called |}.

(** What holds of a manager at every moment of its life: an active source
    is a node that has been started; without an output context nothing is
    active; with one there is an output node; the output node and the
    destination of every source node are gain nodes that exist. *)
Definition coherent (m : LiveManager) : Prop :=
  (forall id : nat, id ∈ activeSources m ->
     exists s : AudioBufferSourceNode,
       sources m !! id = Some s /\ src_start s <> None) /\
  (outputAudioContext m = None -> activeSources m = ∅) /\
  (outputAudioContext m <> None -> outputNode m <> None) /\
  (forall node : nat, outputNode m = Some node -> is_Some (gains m !! node)) /\
  (forall (id : nat) (s : AudioBufferSourceNode),
     sources m !! id = Some s -> is_Some (gains m !! src_destination s)).

(** The source nodes of [m] are still there in [m'], with their buffers,
    their destinations and their start times, and ended if they had. *)
Definition extends (m m' : LiveManager) : Prop :=
  (length (sources m) <= length (sources m'))%nat /\
  forall (id : nat) (s : AudioBufferSourceNode),
    sources m !! id = Some s ->
    exists s' : AudioBufferSourceNode,
      sources m' !! id = Some s' /\
      src_buffer s' = src_buffer s /\
      src_destination s' = src_destination s /\
      src_start s' = src_start s /\
      (src_ending s <> None -> s' = s).

(** A manager that is disconnected and stays as [m0] left it, but for the
    cursor, which may have been set to 0. *)
Definition quiet (m0 m : LiveManager) : Prop :=
  outputAudioContext m = None /\
  activeSources m = ∅ /\
  sources m = sources m0 /\
  gains m = gains m0 /\
  outputNode m = outputNode m0 /\
  (nextStartTime m = nextStartTime m0 \/ nextStartTime m = 0%Q).

(** ** The capture side of [LiveManager] *)

(** *** [getSystemInstruction]

    A member of [PersonaStyle] is a string at run time, and the [switch]
    compares strings: the function is given on strings, its [default] taken
    by every string that is not the value of a member. *)
Inductive PersonaStyle : Set := Echo | Pirate | Robot | Wizard | NewsAnchor.

Definition PersonaStyle_value (persona : PersonaStyle) : string :=
  match persona with
  | Echo => "Echo"
  | Pirate => "Pirate"
  | Robot => "Robot"
  | Wizard => "Wizard"
  | NewsAnchor => "News Anchor"
  end.

Definition getSystemInstruction (persona : string) : string :=
  let base := "You are a voice repeater AI."%string in
  if String.eqb persona (PersonaStyle_value Echo) then
    (base ++ " Repeat EXACTLY what the user says. Be a perfect echo. Do not answer questions. Do not add commentary. Just repeat the audio content verbatim.")%string
  else if String.eqb persona (PersonaStyle_value Pirate) then
    (base ++ " Repeat what the user says but convert it into the speech of a 17th-century pirate. Use pirate slang like 'Ahoy', 'Matey', 'Yarr'. Do not answer questions, just transform the speech.")%string
  else if String.eqb persona (PersonaStyle_value Robot) then
    (base ++ " Repeat what the user says in a cold, logical, robotic manner. Be concise. Use terminology like 'Affirmative' or 'Processing'. Do not answer questions, just repeat the content robotically.")%string
  else if String.eqb persona (PersonaStyle_value Wizard) then
    (base ++ " Repeat what the user says but sound like a mystical ancient wizard. Use archaic words. Do not answer questions, just transform the speech into a wizard's proclamation.")%string
  else if String.eqb persona (PersonaStyle_value NewsAnchor) then
    (base ++ " Repeat what the user says in the style of a breaking news alert. Be professional, urgent, and dramatic. Start with 'Breaking News:'. Do not answer questions.")%string
  else
    (base ++ " Repeat exactly what the user says.")%string.

(** *** The [onaudioprocess] handler of [handleOpen]

    The handler reads two fields of the manager: [inputAudioContext], of
    which it takes the sample rate, and [sessionPromise].  What it returns
    here is the blob it hands to the session: none without an input context
    or without a session promise, and none when the promise is rejected
    (the [catch] ignores it). *)
Inductive promise : Set := fulfilled | rejected.

Definition onaudioprocess (inputAudioContext : option Q)
    (sessionPromise : option promise) (inputData : Float32Array)
    : result (option Blob) :=
  match inputAudioContext with
  | None => Ok None
  | Some currentSampleRate =>
      (* CRITICAL: Ensure we send 16000Hz data to Gemini. *)
      let* downsampledData := resampleTo16k inputData currentSampleRate in
      (* Create Blob with strict 16000Hz label *)
      let* pcmBlob := createPcmBlob downsampledData 16000 in
      match sessionPromise with
      | Some fulfilled => Ok (Some pcmBlob)
      | _ => Ok None
      end
  end.

(** * Properties *)

(** Linear arithmetic with division and remainder by constants. *)
Ltac dlia := zify; Z.to_euclidean_division_equations; lia.

(** ** Counted loops *)

Lemma fill_spec {A} (f : nat -> A) (a : list A) (n : nat) :
  JS.fill n f a = List.map f (seq 0 (n `min` length a)) ++ drop n a.
Proof.
  unfold JS.fill. induction n as [|n IH].
  - simpl. by rewrite drop_0.
  - rewrite seq_S, foldl_app. cbn [foldl Nat.add]. rewrite IH.
    destruct (decide (n < length a)%nat) as [Hlt|Hge].
    + replace (S n `min` length a)%nat with (S n) by lia.
      replace (n `min` length a)%nat with n by lia.
      rewrite seq_S, map_app, <- app_assoc. simpl.
      destruct (lookup_lt_is_Some_2 a n Hlt) as [x Hx].
      rewrite (drop_S a x n Hx).
      rewrite insert_app_r_alt by (rewrite length_map, length_seq; lia).
      rewrite length_map, length_seq, Nat.sub_diag. done.
    + replace (S n `min` length a)%nat with (length a) by lia.
      replace (n `min` length a)%nat with (length a) by lia.
      rewrite !drop_ge by lia.
      rewrite list_insert_ge; [done|].
      rewrite length_app, length_map, length_seq. simpl. lia.
Qed.

Lemma fill_replicate {A} (f : nat -> A) (d : A) (n : nat) :
  JS.fill n f (replicate n d) = List.map f (seq 0 n).
Proof.
  rewrite fill_spec, length_replicate, Nat.min_id.
  rewrite drop_ge by (rewrite length_replicate; lia).
  by rewrite app_nil_r.
Qed.

Lemma map_lookup_seq {A B} (g : option A -> B) (l : list A) :
  List.map (fun i => g (l !! i)) (seq 0 (length l))
  = List.map (fun x => g (Some x)) l.
Proof.
  apply list_eq. intros i.
  rewrite !list_lookup_fmap.
  destruct (decide (i < length l)%nat) as [Hlt|Hge].
  - rewrite lookup_seq_lt by done. simpl.
    destruct (lookup_lt_is_Some_2 l i Hlt) as [x Hx].
    by rewrite Hx.
  - rewrite lookup_seq_ge by lia.
    rewrite lookup_ge_None_2 by lia. done.
Qed.

Lemma map_lookup_total_seq {A} `{Inhabited A} {B} (g : A -> B) (l : list A) :
  List.map (fun i => g (l !!! i)) (seq 0 (length l)) = List.map g l.
Proof.
  rewrite <- (map_lookup_seq (fun o => g (default inhabitant o)) l).
  apply map_ext_in. intros i Hi. apply in_seq in Hi.
  by rewrite list_lookup_total_alt.
Qed.

Lemma foldl_snoc_map {A B} (g : A -> B) (l : list A) (acc : list B) :
  foldl (fun acc b => acc ++ [g b]) acc l = acc ++ List.map g l.
Proof.
  revert acc. induction l as [|x l IH]; intros acc; simpl.
  - by rewrite app_nil_r.
  - rewrite IH, <- app_assoc. done.
Qed.

(** ** Base64 *)

Section Base64Facts.
Import Base64.
Local Open Scope N_scope.

(** Lists are taken three elements at a time, as [sextets] does. *)
Lemma list_ind3 {A} (P : list A -> Prop) :
  P [] -> (forall a, P [a]) -> (forall a b, P [a; b]) ->
  (forall a b c l, P l -> P (a :: b :: c :: l)) ->
  forall l, P l.
Proof.
  intros H0 H1 H2 H3.
  assert (forall n l, (length l <= n)%nat -> P l) as Hn.
  { induction n as [|n IH]; intros l Hl.
    - destruct l; [done | simpl in Hl; lia].
    - destruct l as [|a [|b [|c l]]]; auto.
      apply H3, IH. simpl in Hl. lia. }
  intros l. by apply (Hn (length l)).
Qed.

Ltac char_cases n :=
  unfold char_of;
  destruct (N.ltb_spec n 26);
    [|destruct (N.ltb_spec n 52);
      [|destruct (N.ltb_spec n 62); [|destruct (N.eqb_spec n 62)]]].

Ltac bool_cases :=
  repeat match goal with
         | |- context [N.leb ?a ?b] => destruct (N.leb_spec a b)
         | |- context [N.eqb ?a ?b] => destruct (N.eqb_spec a b)
         | _ => progress simpl
         end.

Lemma index_of_char_of n : n < 64 -> index_of (char_of n) = Some n.
Proof.
  intros Hn. char_cases n; unfold index_of; bool_cases;
    try lia; f_equal; lia.
Qed.

Lemma char_of_not_pad n : char_of n <> pad.
Proof. unfold pad. char_cases n; lia. Qed.

Lemma char_of_not_whitespace n : is_whitespace (char_of n) = false.
Proof.
  char_cases n; unfold is_whitespace; bool_cases; try reflexivity; lia.
Qed.

Lemma sextets_bound l :
  Forall (fun a => a < 256) l -> Forall (fun s => s < 64) (sextets l).
Proof.
  induction l as [|a|a b|a b c l IH] using list_ind3; intros Hl; simpl.
  - constructor.
  - inversion_clear Hl.
    repeat (apply Forall_cons_2; [dlia|]). constructor.
  - inversion_clear Hl as [|? ? Ha Hl']. inversion_clear Hl'.
    repeat (apply Forall_cons_2; [dlia|]). constructor.
  - inversion_clear Hl as [|? ? Ha Hl1]. inversion_clear Hl1 as [|? ? Hb Hl2].
    inversion_clear Hl2 as [|? ? Hc Hl3].
    repeat (apply Forall_cons_2; [dlia|]). by apply IH.
Qed.

Lemma octets_sextets l :
  Forall (fun a => a < 256) l -> octets (sextets l) = l.
Proof.
  induction l as [|a|a b|a b c l IH] using list_ind3; intros Hl.
  - done.
  - inversion_clear Hl. simpl. f_equal. dlia.
  - inversion_clear Hl as [|? ? Ha Hl']. inversion_clear Hl'.
    simpl. f_equal; [dlia|]. f_equal. dlia.
  - inversion_clear Hl as [|? ? Ha Hl1]. inversion_clear Hl1 as [|? ? Hb Hl2].
    inversion_clear Hl2 as [|? ? Hc Hl3].
    cbn [sextets octets]. rewrite (IH Hl3).
    f_equal; [dlia|]. f_equal; [dlia|]. f_equal. dlia.
Qed.

Lemma length_sextets l :
  length (sextets l) =
    (4 * (length l / 3) +
       match length l mod 3 with 0 => 0 | 1 => 2 | _ => 3 end)%nat.
Proof.
  induction l as [|a|a b|a b c l IH] using list_ind3; try done.
  cbn [sextets length]. rewrite IH.
  replace (S (S (S (length l))) / 3)%nat with (S (length l / 3)) by dlia.
  replace (S (S (S (length l))) mod 3)%nat with (length l mod 3)%nat by dlia.
  lia.
Qed.

Lemma mapM_index_of_char_of sx :
  Forall (fun s => s < 64) sx ->
  mapM index_of (List.map char_of sx) = Some sx.
Proof.
  induction 1 as [|s sx Hs _ IH]; [done|].
  simpl. rewrite (index_of_char_of s Hs). simpl.
  by rewrite IH.
Qed.

Lemma remove_last_pad_snoc s : remove_last_pad (s ++ [pad]) = s.
Proof.
  unfold remove_last_pad. rewrite rev_app_distr. simpl.
  by rewrite rev_involutive.
Qed.

Lemma remove_last_pad_chars sx :
  remove_last_pad (List.map char_of sx) = List.map char_of sx.
Proof.
  unfold remove_last_pad.
  destruct (rev (List.map char_of sx)) as [|c r] eqn:Hrev; [done|].
  destruct (N.eqb_spec c pad) as [->|]; [|done].
  assert (pad ∈ List.map char_of sx) as Hin.
  { rewrite <- (rev_involutive (List.map char_of sx)), Hrev. simpl.
    set_solver. }
  apply list_elem_of_fmap in Hin as (n & Hn & _).
  by destruct (char_of_not_pad n).
Qed.

Lemma strip_padding_encoded l :
  strip_padding (List.map char_of (sextets l) ++ padding (length l))
  = List.map char_of (sextets l).
Proof.
  unfold strip_padding.
  assert (length (List.map char_of (sextets l) ++ padding (length l)) mod 4
          = 0)%nat as ->.
  { rewrite length_app, length_map, length_sextets. unfold padding.
    destruct (length l mod 3)%nat as [|[|[|?]]] eqn:E;
      cbn [length]; dlia. }
  cbn [Nat.eqb]. unfold padding.
  destruct (length l mod 3)%nat as [|[|[|?]]].
  - by rewrite app_nil_r, !remove_last_pad_chars.
  - change [pad; pad] with ([pad] ++ [pad]).
    by rewrite app_assoc, !remove_last_pad_snoc.
  - by rewrite remove_last_pad_snoc, remove_last_pad_chars.
  - by rewrite app_nil_r, !remove_last_pad_chars.
Qed.

Lemma filter_whitespace_encoded l :
  List.filter (fun c => negb (is_whitespace c))
    (List.map char_of (sextets l) ++ padding (length l))
  = List.map char_of (sextets l) ++ padding (length l).
Proof.
  apply forallb_filter_id, forallb_forall. intros c Hc.
  apply in_app_or in Hc as [Hc|Hc].
  - apply in_map_iff in Hc as (n & <- & _).
    by rewrite char_of_not_whitespace.
  - unfold padding in Hc.
    destruct (length l mod 3)%nat as [|[|[|?]]]; simpl in Hc;
      intuition (subst; done).
Qed.

(** [atob] undoes [btoa] on every binary string. *)
Lemma atob_btoa l :
  Forall (fun a => a < 256) l ->
  exists s, btoa l = Ok s /\ atob s = Ok l.
Proof.
  intros Hl. exists (List.map char_of (sextets l) ++ padding (length l)).
  split.
  - unfold btoa.
    replace (forallb (fun c => c <=? 255) l) with true; [done|].
    symmetry. apply forallb_forall. intros c Hc.
    rewrite Forall_forall in Hl. apply N.leb_le.
    specialize (Hl c). rewrite <- list_elem_of_In in Hc.
    specialize (Hl Hc). lia.
  - unfold atob. rewrite filter_whitespace_encoded, strip_padding_encoded.
    rewrite length_map, length_sextets.
    destruct (_ mod 4 =? 1)%nat eqn:E.
    { apply Nat.eqb_eq in E.
      destruct (length l mod 3)%nat as [|[|?]] eqn:E3; dlia. }
    rewrite mapM_index_of_char_of by by apply sextets_bound.
    by rewrite octets_sextets.
Qed.

End Base64Facts.

Lemma to_N_ToUint8 (n : N) : Byte.to_N (JS.ToUint8 n) = (n mod 256)%N.
Proof.
  unfold JS.ToUint8.
  destruct (Byte.of_N (n mod 256)) as [b|] eqn:E.
  - by apply Byte.to_of_N.
  - apply Byte.of_N_None_iff in E. dlia.
Qed.

Lemma ToUint8_to_N (b : byte) : JS.ToUint8 (Byte.to_N b) = b.
Proof.
  unfold JS.ToUint8.
  pose proof (Byte.to_N_bounded b) as Hb.
  rewrite N.mod_small by lia. by rewrite Byte.of_to_N.
Qed.

(** The bytes come back from their base64 text. *)
Lemma base64_inverse (bytes : Uint8Array) :
  exists s, bytesToBase64 bytes = Ok s /\ base64ToBytes s = Ok bytes.
Proof.
  assert (Forall (fun a => (a < 256)%N) (List.map JS.fromCharCode bytes))
    as Hb.
  { apply Forall_forall. intros a Ha.
    apply list_elem_of_fmap in Ha as (b & -> & _).
    pose proof (Byte.to_N_bounded b). unfold JS.fromCharCode. lia. }
  destruct (atob_btoa _ Hb) as (s & Hs & Hatob).
  exists s. split.
  - unfold bytesToBase64. by rewrite foldl_snoc_map.
  - unfold base64ToBytes. rewrite Hatob. cbn [rbind]. f_equal.
    rewrite fill_replicate.
    rewrite (map_lookup_total_seq JS.ToUint8 (List.map JS.fromCharCode bytes)).
    rewrite List.map_map.
    rewrite <- (map_id bytes) at 2.
    apply map_ext. intros b. apply ToUint8_to_N.
Qed.

Example base64_Man :
  bytesToBase64 [x4d; x61; x6e; x79] = Ok (JS.of_string "TWFueQ==").
Proof. reflexivity. Qed.

Example atob_Man :
  base64ToBytes (JS.of_string " TWFu eQ") = Ok [x4d; x61; x6e; x79].
Proof. reflexivity. Qed.


Example atob_cases :
  List.map (fun s => base64ToBytes (JS.of_string s))
    ["AQI="; "AQI"; "AQ=="; "AQ"; "A"; "A==="; "AQI=="; "!!!!"; " "; ""]%string
  = [Ok [x01; x02]; Ok [x01; x02]; Ok [x01]; Ok [x01];
     Throw InvalidCharacterError; Throw InvalidCharacterError;
     Throw InvalidCharacterError; Throw InvalidCharacterError;
     Ok []; Ok []].
Proof. reflexivity. Qed.

(** ** Typed array views *)

Lemma int16_of_bytes_of_Z (z : Z) :
  -32768 <= z <= 32767 ->
  int16_of_bytes (byte_of_Z z) (byte_of_Z (z / 256)) = z.
Proof.
  intros Hz. unfold int16_of_bytes, byte_of_Z, Num.wrap16.
  rewrite !to_N_ToUint8. dlia.
Qed.

(** Reading the bytes of an [Int16Array] back as an [Int16Array]. *)
Lemma Int16Array_of_Uint8Array (a : Int16Array) :
  Forall (fun z => -32768 <= z <= 32767) a ->
  Int16Array_of_buffer (Uint8Array_of_Int16Array a) = Ok a.
Proof.
  induction 1 as [|z a Hz _ IH]; [done|].
  cbn [Uint8Array_of_Int16Array flat_map app Int16Array_of_buffer].
  fold (Uint8Array_of_Int16Array a). rewrite IH. simpl.
  by rewrite int16_of_bytes_of_Z.
Qed.

Lemma length_Uint8Array_of_Int16Array (a : Int16Array) :
  length (Uint8Array_of_Int16Array a) = (2 * length a)%nat.
Proof.
  unfold Uint8Array_of_Int16Array.
  induction a as [|z a IH]; [done|].
  cbn [flat_map]. rewrite length_app, IH. cbn [length]. lia.
Qed.

(** [new Int16Array(buffer)] throws exactly on an odd byte length. *)
Lemma Int16Array_of_buffer_spec (buffer : list byte) :
  match Int16Array_of_buffer buffer with
  | Ok a => length buffer = (2 * length a)%nat
  | Throw e => e = RangeError /\ (length buffer mod 2 = 1)%nat
  end.
Proof.
  assert (forall n (b : list byte), (length b <= n)%nat ->
          match Int16Array_of_buffer b with
          | Ok a => length b = (2 * length a)%nat
          | Throw e => e = RangeError /\ (length b mod 2 = 1)%nat
          end) as Hn.
  { induction n as [|n IH]; intros b Hb.
    - destruct b; [done | simpl in Hb; lia].
    - destruct b as [|lo [|hi rest]]; [done | done |].
      cbn [Int16Array_of_buffer].
      specialize (IH rest ltac:(simpl in Hb; lia)).
      destruct (Int16Array_of_buffer rest) as [a|e]; cbn [rbind length].
      + lia.
      + destruct IH as [-> IH]. split; [done|]. dlia. }
  by apply (Hn (length buffer)).
Qed.

(** ** Numbers *)

Example lt_cases :
  List.map (fun '(a, b) => Num.lt a b)
    [(Fin 0, Fin 1); (Fin 1, Fin 0); (Fin 0, Fin 0);
     (Inf true, Fin 0); (Fin 0, Inf true); (Inf false, Fin 0);
     (Fin 0, Inf false); (Inf true, Inf false); (Inf false, Inf true);
     (Inf true, Inf true); (Inf false, Inf false); (NaN, Fin 0); (Fin 0, NaN)]
  = [true; false; false; true; false; false; true; true; false; false;
     false; false; false].
Proof. reflexivity. Qed.

Example clamp_cases :
  List.map (fun x => Num.max (Fin (-1)) (Num.min (Fin 1) x))
    [Fin (1 # 2); Fin 3; Fin (-3); Inf false; Inf true; NaN]
  = [Fin (1 # 2); Fin 1; Fin (-1); Fin 1; Fin (-1); NaN].
Proof. reflexivity. Qed.

(** ** Rationals *)

Section Rationals.
Local Open Scope Q_scope.
Import Num.

Lemma Qltb_lt a b : Qltb a b = true <-> a < b.
Proof.
  unfold Qltb. rewrite negb_true_iff.
  destruct (Qle_bool b a) eqn:E.
  - apply Qle_bool_iff in E. split; [done | intros; lra].
  - split; [intros _ | done].
    destruct (Qlt_le_dec a b); [done|].
    apply Qle_bool_iff in q. congruence.
Qed.

Lemma Qltb_ge a b : Qltb a b = false <-> b <= a.
Proof.
  destruct (Qltb a b) eqn:E.
  - apply Qltb_lt in E. split; [done | intros; lra].
  - split; [intros _ | done].
    destruct (Qlt_le_dec a b) as [Hlt|]; [|done].
    apply Qltb_lt in Hlt. congruence.
Qed.

Lemma Qmin_ltb a b : Qmin a b = if Qltb b a then b else a.
Proof.
  unfold Qmin, GenericMinMax.gmin.
  destruct (Qcompare_spec a b) as [H|H|H].
  - by rewrite (proj2 (Qltb_ge b a)) by lra.
  - by rewrite (proj2 (Qltb_ge b a)) by lra.
  - by rewrite (proj2 (Qltb_lt b a)).
Qed.

Lemma Qmax_ltb a b : Qmax a b = if Qltb a b then b else a.
Proof.
  unfold Qmax, GenericMinMax.gmax.
  destruct (Qcompare_spec a b) as [H|H|H].
  - by rewrite (proj2 (Qltb_ge a b)) by lra.
  - by rewrite (proj2 (Qltb_lt a b)).
  - by rewrite (proj2 (Qltb_ge a b)) by lra.
Qed.

Lemma clamp_range q : -1 <= clamp q <= 1.
Proof.
  unfold clamp.
  pose proof (Q.le_max_l (-1) (Qmin 1 q)).
  pose proof (Q.le_min_l 1 q).
  split; [done|]. by apply Q.max_lub.
Qed.

Lemma Qtrunc_neg q : q < 0 -> Qtrunc q = Qceiling q.
Proof. intros H. unfold Qtrunc. by rewrite (proj2 (Qltb_lt q 0)). Qed.

Lemma Qtrunc_nonneg q : 0 <= q -> Qtrunc q = Qfloor q.
Proof. intros H. unfold Qtrunc. by rewrite (proj2 (Qltb_ge q 0)). Qed.

Lemma Qfloor_bounds q (lo hi : Z) :
  inject_Z lo <= q -> q <= inject_Z hi -> (lo <= Qfloor q <= hi)%Z.
Proof.
  intros Hlo Hhi. split.
  - rewrite <- (Qfloor_Z lo). by apply Qfloor_resp_le.
  - rewrite <- (Qfloor_Z hi). by apply Qfloor_resp_le.
Qed.

Lemma Qceiling_bounds q (lo hi : Z) :
  inject_Z lo <= q -> q <= inject_Z hi -> (lo <= Qceiling q <= hi)%Z.
Proof.
  intros Hlo Hhi. split.
  - rewrite <- (Qceiling_Z lo). by apply Qceiling_resp_le.
  - rewrite <- (Qceiling_Z hi). by apply Qceiling_resp_le.
Qed.

(** The scaled clamped sample truncates into the sixteen-bit range. *)
Lemma quantize_range c :
  -1 <= c <= 1 ->
  (-32768 <= Qtrunc (if Qltb c 0 then c * 32768 else c * 32767) <= 32767)%Z.
Proof.
  intros [H1 H2]. destruct (Qltb c 0) eqn:E.
  - apply Qltb_lt in E. rewrite Qtrunc_neg by lra.
    apply Qceiling_bounds.
    + change (inject_Z (-32768)) with (-32768). lra.
    + change (inject_Z 32767) with 32767. lra.
  - apply Qltb_ge in E. rewrite Qtrunc_nonneg by lra.
    apply Qfloor_bounds.
    + change (inject_Z (-32768)) with (-32768). lra.
    + change (inject_Z 32767) with 32767. lra.
Qed.

Lemma wrap16_id z : (-32768 <= z <= 32767)%Z -> wrap16 z = z.
Proof. intros Hz. unfold wrap16. dlia. Qed.

End Rationals.

(** ** Encoding one sample *)

Section Encode.
Local Open Scope Q_scope.
Import Num.

Lemma clamp_code q :
  Num.max (Fin (-1)) (Num.min (Fin 1) (Fin q)) = Fin (clamp q).
Proof.
  unfold clamp. rewrite Qmin_ltb, Qmax_ltb.
  cbn [Num.min Num.lt].
  destruct (Qltb q 1); cbn [Num.max Num.lt];
    by destruct (Qltb (-1) _).
Qed.

(** The code stores what the specification describes, and the sixteen-bit
    wrap of the store never changes the value. *)
Lemma pcm_sample_spec x :
  pcm_sample x = spec_encode_sample x /\
  (-32768 <= pcm_sample x <= 32767)%Z.
Proof.
  destruct x as [|[|]|q]; try (split; [reflexivity | by vm_compute]).
  unfold pcm_sample, spec_encode_sample.
  rewrite clamp_code. cbn [Num.lt].
  pose proof (quantize_range (clamp q) (clamp_range q)) as Hr.
  destruct (Qltb (clamp q) 0); cbn [Num.mul ToInt16];
    rewrite wrap16_id by done; done.
Qed.

End Encode.

(** ** [createPcmBlob] *)

Lemma createPcmBlob_int16 (data : Float32Array) :
  JS.fill (length data)
    (fun i =>
       let sample :=
         Num.max (Fin (-1)) (Num.min (Fin 1) (Num.of_read (data !! i))) in
       Num.ToInt16
         (if Num.lt sample (Fin 0)
          then Num.mul sample (Fin 32768)
          else Num.mul sample (Fin 32767)))
    (replicate (length data) 0)
  = List.map pcm_sample data.
Proof.
  rewrite fill_replicate.
  apply (map_lookup_seq (fun o => pcm_sample (Num.of_read o)) data).
Qed.

(** [createPcmBlob] never throws; the text it returns is the base64 of the
    samples of [pcm_sample], two bytes each, low byte first. *)
Lemma createPcmBlob_spec (data : Float32Array) (rate : N) :
  exists blob,
    createPcmBlob data rate = Ok blob /\
    base64ToBytes (blob_data blob)
    = Ok (Uint8Array_of_Int16Array (List.map pcm_sample data)).
Proof.
  unfold createPcmBlob. rewrite createPcmBlob_int16.
  destruct (base64_inverse
              (Uint8Array_of_Int16Array (List.map pcm_sample data)))
    as (s & -> & Hs).
  eexists. split; [reflexivity|]. exact Hs.
Qed.

(** ** [decodeAudioData] *)

Lemma imap_replicate {A B} (f : nat -> A -> B) (n : nat) (x : A) :
  imap f (replicate n x) = List.map (fun c => f c x) (seq 0 n).
Proof.
  apply list_eq. intros i.
  rewrite list_lookup_imap, list_lookup_fmap.
  destruct (decide (i < n)%nat) as [Hlt|Hge].
  - rewrite lookup_replicate_2, lookup_seq_lt by done. done.
  - rewrite lookup_ge_None_2 by (rewrite length_replicate; lia).
    rewrite lookup_seq_ge by lia. done.
Qed.

Section Decode.
Local Open Scope Q_scope.
Import Num.

Lemma inject_nat_pos (n : nat) :
  (1 <= n)%nat -> Qeq_bool (inject_Z (Z.of_nat n)) 0 = false.
Proof.
  intros Hn. destruct (Qeq_bool _ 0) eqn:E; [|done].
  apply Qeq_bool_eq in E. unfold Qeq in E. simpl in E. lia.
Qed.

Lemma Qfloor_nat_div (n m : nat) :
  Qfloor (inject_Z (Z.of_nat n) / inject_Z (Z.of_nat m))
  = Z.of_nat (n / m).
Proof. by rewrite <- Zdiv_Qdiv, Nat2Z.inj_div. Qed.

Lemma nat_div_nonneg (n m : nat) :
  0 <= inject_Z (Z.of_nat n) / inject_Z (Z.of_nat m).
Proof.
  destruct m as [|m].
  - simpl. unfold Qdiv, Qinv. simpl. rewrite Qmult_0_r. lra.
  - apply Qle_shift_div_l.
    + change 0 with (inject_Z 0). rewrite <- Zlt_Qlt. lia.
    + rewrite Qmult_0_l. change 0 with (inject_Z 0).
      rewrite <- Zle_Qle. lia.
Qed.

(** The frame count handed to [createBuffer] and the loop bound. *)
Lemma frameCount_frames (n ch : nat) :
  (1 <= ch)%nat -> (Z.of_nat (n / ch) < 2 ^ 32)%Z ->
  let frameCount := Num.div (of_nat n) (of_nat ch) in
  Z.to_nat (ToUint32 frameCount) = (n / ch)%nat /\
  (n / ch <= passes frameCount)%nat.
Proof.
  intros Hch Hsz. cbn zeta. unfold Num.div, of_nat, of_Z.
  rewrite (inject_nat_pos ch Hch). cbn [ToUint32 passes].
  rewrite Qtrunc_nonneg by apply nat_div_nonneg.
  rewrite Qfloor_nat_div. split.
  - rewrite Z.mod_small by lia. lia.
  - pose proof (Qle_floor_ceiling
                  (inject_Z (Z.of_nat n) / inject_Z (Z.of_nat ch))) as H.
    rewrite Qfloor_nat_div, <- Zle_Qle in H. lia.
Qed.

End Decode.

Lemma decodeAudioData_decoded (data : Uint8Array) (ctx : AudioContext)
    (rate : Q) (numChannels : nat) (d16 : Int16Array) :
  Int16Array_of_buffer data = Ok d16 ->
  (1 <= numChannels <= 32)%nat ->
  (8000 <= rate <= 96000)%Q ->
  (Z.of_nat (length d16 / numChannels) < 2 ^ 32)%Z ->
  decodeAudioData data ctx rate numChannels = decoded d16 rate numChannels.
Proof.
  intros Hd [Hc1 Hc2] [Hr1 Hr2] Hsz.
  unfold decodeAudioData, decoded. rewrite Hd. cbn [rbind].
  destruct (frameCount_frames (length d16) numChannels Hc1 Hsz) as [Hf Hp].
  cbn zeta in Hf, Hp. unfold createBuffer. rewrite Hf.
  rewrite (proj2 (Nat.leb_le 1 numChannels)) by done.
  rewrite (proj2 (Nat.leb_le numChannels 32)) by done.
  rewrite (proj2 (Qle_bool_iff 8000 rate)) by done.
  rewrite (proj2 (Qle_bool_iff rate 96000)) by done.
  destruct (length d16 / numChannels)%nat as [|f] eqn:Ef; [done|].
  cbn [Nat.leb andb rbind Nat.eqb ab_sampleRate ab_length ab_channels].
  f_equal. f_equal.
  rewrite imap_replicate. apply map_ext. intros c.
  rewrite fill_spec, length_replicate.
  replace (_ `min` S f)%nat with (S f) by lia.
  rewrite drop_ge by (rewrite length_replicate; lia).
  by rewrite app_nil_r.
Qed.

Lemma decodeAudioData_ctx (data : Uint8Array) (c1 c2 : AudioContext)
    (rate : Q) (numChannels : nat) :
  decodeAudioData data c1 rate numChannels
  = decodeAudioData data c2 rate numChannels.
Proof. reflexivity. Qed.

Lemma decoded_is_ok (d16 : Int16Array) (rate : Q) (numChannels : nat) :
  is_ok (decoded d16 rate numChannels) = false
  <-> (length d16 / numChannels = 0)%nat.
Proof.
  unfold decoded. destruct (Nat.eqb_spec (length d16 / numChannels) 0);
    simpl; split; intros; done.
Qed.

Lemma decoded_ok (d16 : Int16Array) (rate : Q) (numChannels : nat)
    (buffer : AudioBuffer) :
  (1 <= numChannels)%nat ->
  decoded d16 rate numChannels = Ok buffer ->
  ab_sampleRate buffer = rate /\
  ab_length buffer = (length d16 / numChannels)%nat /\
  length (ab_channels buffer) = numChannels /\
  forall channel i : nat,
    (channel < numChannels)%nat -> (i < ab_length buffer)%nat ->
    exists (z : Z) (samples : Float32Array),
      d16 !! (i * numChannels + channel)%nat = Some z /\
      ab_channels buffer !! channel = Some samples /\
      length samples = ab_length buffer /\
      samples !! i = Some (spec_decode_sample z).
Proof.
  intros Hch. unfold decoded.
  destruct (Nat.eqb_spec (length d16 / numChannels) 0) as [|Hf]; [done|].
  intros [= <-]. cbn [ab_sampleRate ab_length ab_channels].
  split; [done|]. split; [done|].
  split; [by rewrite length_map, length_seq|].
  intros channel i Hc Hi.
  assert (i * numChannels + channel < length d16)%nat as Hk.
  { pose proof (Nat.Div0.mul_div_le (length d16) numChannels). nia. }
  destruct (lookup_lt_is_Some_2 d16 _ Hk) as [z Hz].
  eexists z, _. split; [done|].
  split; [by rewrite list_lookup_fmap, lookup_seq_lt|].
  split; [by rewrite length_map, length_seq|].
  rewrite list_lookup_fmap, lookup_seq_lt by done. simpl.
  by rewrite Hz.
Qed.

(** The sixteen-bit samples of a buffer, by position. *)
Lemma Int16Array_of_buffer_lookup (data : Uint8Array) (d16 : Int16Array)
    (k : nat) (z : Z) :
  Int16Array_of_buffer data = Ok d16 ->
  d16 !! k = Some z ->
  exists lo hi : byte,
    data !! (2 * k)%nat = Some lo /\
    data !! (2 * k + 1)%nat = Some hi /\
    z = int16_of_bytes lo hi.
Proof.
  revert d16 k.
  assert (forall n (b : list byte), (length b <= n)%nat ->
          forall d16 k, Int16Array_of_buffer b = Ok d16 ->
          d16 !! k = Some z ->
          exists lo hi : byte,
            b !! (2 * k)%nat = Some lo /\
            b !! (2 * k + 1)%nat = Some hi /\
            z = int16_of_bytes lo hi) as Hn.
  { induction n as [|n IH]; intros b Hb d16 k Hd Hk.
    - destruct b; [|simpl in Hb; lia]. by injection Hd as <-.
    - destruct b as [|lo [|hi rest]]; [by injection Hd as <- | done |].
      cbn [Int16Array_of_buffer] in Hd.
      destruct (Int16Array_of_buffer rest) as [tail|] eqn:Et; [|done].
      injection Hd as <-.
      destruct k as [|k].
      + injection Hk as <-. by exists lo, hi.
      + destruct (IH rest ltac:(simpl in Hb; lia) tail k Et Hk)
          as (lo' & hi' & H1 & H2 & H3).
        exists lo', hi'.
        replace (2 * S k)%nat with (S (S (2 * k))) by lia.
        replace (S (S (2 * k)) + 1)%nat with (S (S (2 * k + 1))) by lia.
        done. }
  intros d16 k. by apply (Hn (length data)).
Qed.

(** ** Quantisation *)

Section Quantisation.
Local Open Scope Q_scope.
Import Num.

Lemma clamp_in_range q : -1 <= q <= 1 -> clamp q == q.
Proof.
  intros [H1 H2]. unfold clamp.
  rewrite (Q.min_r 1 q) by done. by rewrite Q.max_r.
Qed.

(** A sample of [-1, 1], encoded and decoded, moves towards zero: by less
    than two steps of 1/32768, and by less than one when it is negative. *)
Lemma quantisation_error q :
  -1 <= q <= 1 ->
  let r := inject_Z (spec_encode_sample (Fin q)) / 32768 in
  (q < 0 -> 0 <= r - q < 1 # 32768) /\
  (0 <= q -> 0 <= q - r < 2 # 32768).
Proof.
  intros Hq. pose proof (clamp_in_range q Hq) as Hc.
  cbn zeta. unfold spec_encode_sample.
  set (c := clamp q) in *.
  destruct (Qltb c 0) eqn:E.
  - apply Qltb_lt in E. rewrite Qtrunc_neg by lra.
    pose proof (Qle_ceiling (c * 32768)) as H1.
    pose proof (Qceiling_lt (c * 32768)) as H2.
    unfold Z.sub in H2. rewrite inject_Z_plus in H2.
    change (inject_Z (- (1))) with (-1) in H2.
    split; [intros _ | intros; lra].
    set (z := inject_Z (Qceiling (c * 32768))) in *.
    assert (z / 32768 == z * (1 # 32768)) as -> by (field; lra).
    split; lra.
  - apply Qltb_ge in E. rewrite Qtrunc_nonneg by lra.
    pose proof (Qfloor_le (c * 32767)) as H1.
    pose proof (Qlt_floor (c * 32767)) as H2.
    rewrite inject_Z_plus in H2. change (inject_Z 1) with 1 in H2.
    split; [intros; lra | intros _].
    set (z := inject_Z (Qfloor (c * 32767))) in *.
    assert (z / 32768 == z * (1 # 32768)) as -> by (field; lra).
    split; lra.
Qed.

End Quantisation.

(** The stored samples are those of the specification, all in range. *)
Lemma encode_samples_ok (data : Float32Array) :
  Forall (fun z => -32768 <= z <= 32767) (List.map pcm_sample data) /\
  List.map pcm_sample data = List.map spec_encode_sample data.
Proof.
  split.
  - apply Forall_forall. intros z Hz.
    apply list_elem_of_fmap in Hz as (x & -> & _). apply pcm_sample_spec.
  - apply map_ext. intros x. apply pcm_sample_spec.
Qed.

(** ** [resampleTo16k] *)

Section Resample.
Local Open Scope Q_scope.
Import Num.

Lemma Qeq_bool_false a b : ~ a == b -> Qeq_bool a b = false.
Proof.
  intros H. destruct (Qeq_bool a b) eqn:E; [|done].
  by apply Qeq_bool_eq in E.
Qed.

Lemma ratio_pos rate : 0 < rate -> 0 < rate / 16000.
Proof. intros H. apply Qlt_shift_div_l; lra. Qed.

Lemma inject_nat_nonneg (n : nat) : 0 <= inject_Z (Z.of_nat n).
Proof. change 0 with (inject_Z 0). rewrite <- Zle_Qle. lia. Qed.

Lemma newLength_nonneg (n : nat) ratio :
  0 < ratio -> (0 <= Math_round (inject_Z (Z.of_nat n) / ratio))%Z.
Proof.
  intros Hr. unfold Math_round.
  assert (0 <= inject_Z (Z.of_nat n) / ratio) as H.
  { apply Qle_shift_div_l; [done|]. rewrite Qmult_0_l.
    apply inject_nat_nonneg. }
  change 0%Z with (Qfloor 0). apply Qfloor_resp_le. lra.
Qed.

Lemma resampleTo16k_same_rate (audioData : Float32Array) rate :
rate == 16000 -> resampleTo16k audioData rate = Ok audioData.
Proof.
intros H. unfold resampleTo16k. by rewrite (Qeq_eq_bool _ _ H).
Qed.

(** Outside the early return the result is the loop's sample at every
    index below [Math.round(audioData.length / ratio)]. *)
Lemma resampleTo16k_unfold (audioData : Float32Array) rate :
  0 < rate -> ~ rate == 16000 ->
  resampleTo16k audioData rate
  = Ok (List.map (resampled_sample audioData (rate / 16000))
          (seq 0 (Z.to_nat
                    (Math_round
                       (inject_Z (Z.of_nat (length audioData))
                          / (rate / 16000)))))).
Proof.
  intros Hpos Hne. unfold resampleTo16k.
  rewrite (Qeq_bool_false _ _ Hne).
  pose proof (ratio_pos rate Hpos) as Hr.
  rewrite Qeq_bool_false by lra.
  pose proof (newLength_nonneg (length audioData) _ Hr) as Hn.
  rewrite (proj2 (Z.ltb_ge _ 0)) by done.
  by rewrite fill_replicate.
Qed.

(** The first index is a valid index at every position the loop visits. *)
Lemma index1_valid (n : nat) ratio (i : nat) :
  0 < ratio ->
  (Z.of_nat i < Math_round (inject_Z (Z.of_nat n) / ratio))%Z ->
  (0 <= index1_of ratio i < Z.of_nat n)%Z.
Proof.
  intros Hr Hi. unfold index1_of, Math_floor.
  set (x := inject_Z (Z.of_nat i) * ratio).
  assert (0 <= x) as Hx0.
  { unfold x. apply Qmult_le_0_compat; [apply inject_nat_nonneg | lra]. }
  assert (x < inject_Z (Z.of_nat n)) as Hxn.
  { unfold Math_round in Hi.
    assert (inject_Z (Z.of_nat i) + 1
            <= inject_Z (Z.of_nat n) / ratio + (1 # 2)) as H1.
    { eapply Qle_trans; [|apply Qfloor_le].
      change 1 with (inject_Z 1). rewrite <- inject_Z_plus, <- Zle_Qle.
      lia. }
    assert (inject_Z (Z.of_nat i) * ratio
            <= (inject_Z (Z.of_nat n) / ratio - (1 # 2)) * ratio) as H2.
    { apply Qmult_le_compat_r; lra. }
    assert ((inject_Z (Z.of_nat n) / ratio - (1 # 2)) * ratio
            == inject_Z (Z.of_nat n) - (1 # 2) * ratio) as H3.
    { field. lra. }
    unfold x. lra. }
  split.
  - change 0%Z with (Qfloor 0). by apply Qfloor_resp_le.
  - rewrite Zlt_Qlt. eapply Qle_lt_trans; [apply Qfloor_le | done].
Qed.

Lemma index2_valid (audioData : Float32Array) ratio (i : nat) :
  (0 <= index1_of ratio i < Z.of_nat (length audioData))%Z ->
  (0 <= index2_of audioData ratio i < Z.of_nat (length audioData))%Z.
Proof. unfold index2_of. lia. Qed.

Lemma fraction_range ratio (i : nat) : 0 <= fraction_of ratio i < 1.
Proof.
  unfold fraction_of, index1_of, Math_floor.
  set (x := inject_Z (Z.of_nat i) * ratio).
  pose proof (Qfloor_le x). pose proof (Qlt_floor x) as H2.
  rewrite inject_Z_plus in H2. change (inject_Z 1) with 1 in H2.
  split; lra.
Qed.

Lemma read_at_valid (a : Float32Array) (index : Z) :
  (0 <= index < Z.of_nat (length a))%Z ->
  exists v, a !! Z.to_nat index = Some v /\ read_at a index = v.
Proof.
  intros Hi. destruct (lookup_lt_is_Some_2 a (Z.to_nat index)) as [v Hv].
  { lia. }
  exists v. split; [done|]. unfold read_at.
  rewrite (proj2 (Z.ltb_ge index 0)) by lia. by rewrite Hv.
Qed.

End Resample.

(** ** Rounding to binary64 *)

Section Binary64.
Local Open Scope Q_scope.
Import Num.

Lemma nearest_even_close m :
  Qabs (inject_Z (nearest_even m) - m) <= 1 # 2.
Proof.
  unfold nearest_even.
  pose proof (Qfloor_le m) as H1. pose proof (Qlt_floor m) as H2.
  rewrite inject_Z_plus in H2. change (inject_Z 1) with 1 in H2.
  set (f := Qfloor m) in *.
  apply Qabs_Qle_condition.
  destruct (Qltb (m - inject_Z f) (1 # 2)) eqn:E1.
  { apply Qltb_lt in E1. split; lra. }
  apply Qltb_ge in E1.
  destruct (Qltb (1 # 2) (m - inject_Z f)) eqn:E2.
  { rewrite inject_Z_plus. change (inject_Z 1) with 1. split; lra. }
  apply Qltb_ge in E2.
  destruct (Z.even f).
  - split; lra.
  - rewrite inject_Z_plus. change (inject_Z 1) with 1. split; lra.
Qed.

Lemma two_power_pos (z : Z) : 0 < 2 ^ z.
Proof. by apply Qpower_0_lt. Qed.

(** The leading power of two of a positive rational is no larger than it. *)
Lemma leading_power_le (x : Q) :
  ~ x == 0 ->
  let a := Qabs x in
  let e1 := (Z.log2 (Z.abs (Qnum x)) - Z.log2 (Zpos (Qden x)))%Z in
  let e := if Qle_bool (2 ^ e1) a then e1 else (e1 - 1)%Z in
  2 ^ e <= a.
Proof.
  intros Hx a e1 e. unfold e.
  destruct (Qle_bool (2 ^ e1) a) eqn:E; [by apply Qle_bool_iff|].
  set (p := Z.abs (Qnum x)). set (d := Zpos (Qden x)).
  assert (0 < p)%Z as Hp.
  { unfold p. destruct x as [n dn]. unfold Qeq in Hx. simpl in *. lia. }
  assert (0 < d)%Z as Hd by done.
  destruct (Z.log2_spec p Hp) as [Hp1 _].
  destruct (Z.log2_spec d Hd) as [_ Hd2].
  pose proof (Z.log2_nonneg p) as Hlp. pose proof (Z.log2_nonneg d) as Hld.
  assert (a == inject_Z p / inject_Z d) as Ha.
  { unfold a, p, d. destruct x as [n dn]. unfold Qabs. simpl.
    rewrite (Qmake_Qdiv (Z.abs n) dn). reflexivity. }
  replace (e1 - 1)%Z with (Z.log2 p - (Z.log2 d + 1))%Z by (unfold e1, p, d; lia).
  rewrite Qpower_minus by discriminate.
  rewrite Ha.
  assert (2 ^ Z.log2 p <= inject_Z p) as Q1.
  { rewrite <- (Zpower_Qpower 2 (Z.log2 p)) by done. by rewrite <- Zle_Qle. }
  assert (inject_Z d <= 2 ^ (Z.log2 d + 1)) as Q2.
  { rewrite <- (Zpower_Qpower 2 (Z.log2 d + 1)) by lia.
    rewrite <- Zle_Qle. unfold Z.succ in Hd2. lia. }
  assert (0 < inject_Z d) as Q3.
  { change 0 with (inject_Z 0). by rewrite <- Zlt_Qlt. }
  pose proof (two_power_pos (Z.log2 p)) as Q4.
  pose proof (two_power_pos (Z.log2 d + 1)) as Q5.
  apply Qle_shift_div_l; [done|].
  assert (inject_Z d / 2 ^ (Z.log2 d + 1) <= 1) as Q6.
  { apply Qle_shift_div_r; [done|]. by rewrite Qmult_1_l. }
  eapply Qle_trans; [|exact Q1].
  assert (2 ^ Z.log2 p / 2 ^ (Z.log2 d + 1) * inject_Z d
          == 2 ^ Z.log2 p * (inject_Z d / 2 ^ (Z.log2 d + 1))) as ->.
  { field. lra. }
  rewrite <- (Qmult_1_r (2 ^ Z.log2 p)) at 2.
  by apply Qmult_le_l.
Qed.

(** Rounding to binary64 moves a value by at most the fraction 2^-53 of
    it. *)
Lemma binary64_close (x : Q) :
  Qabs (binary64 x - x) <= (1 # 9007199254740992) * Qabs x.
Proof.
  unfold binary64.
  destruct (Qeq_bool x 0) eqn:E0.
  { apply Qeq_bool_eq in E0. rewrite E0. discriminate. }
  apply Qeq_bool_neq in E0.
  pose proof (leading_power_le x E0) as Hle. cbn zeta in Hle.
  set (a := Qabs x) in *.
  set (e := if Qle_bool _ a then _ else _) in *.
  set (ulp := 2 ^ (e - 52)).
  assert (0 < ulp) as Hulp by apply two_power_pos.
  assert (4503599627370496 * ulp == 2 ^ e) as Hscale.
  { unfold ulp. rewrite Qpower_minus by discriminate.
    change (2 ^ 52) with 4503599627370496. field. }
  pose proof (nearest_even_close (a / ulp)) as Hn.
  set (M := inject_Z (nearest_even (a / ulp))) in *.
  assert (Qabs (M * ulp - a) <= ulp * (1 # 2)) as Hv.
  { assert (M * ulp - a == (M - a / ulp) * ulp) as -> by (field; lra).
    rewrite Qabs_Qmult, (Qabs_pos ulp) by lra.
    rewrite (Qmult_comm ulp). apply Qmult_le_compat_r; lra. }
  assert (ulp * (1 # 2) <= (1 # 9007199254740992) * a) as Hrel by lra.
  destruct (Qltb x 0) eqn:Es.
  - apply Qltb_lt in Es.
    assert (a == - x) as Ha by (unfold a; by apply Qabs_neg; lra).
    assert (- (M * ulp) - x == - (M * ulp - a)) as -> by (rewrite Ha; ring).
    rewrite Qabs_opp. lra.
  - apply Qltb_ge in Es.
    assert (a == x) as Ha by (unfold a; by apply Qabs_pos).
    assert (M * ulp - x == M * ulp - a) as -> by (rewrite Ha; ring).
    lra.
Qed.


Example binary64_tenth :
  Qred (binary64 (1 # 10)) = 3602879701896397 # 36028797018963968.
Proof. reflexivity. Qed.

Lemma binary64_bounds x :
  0 <= x ->
  x * (1 - (1 # 9007199254740992)) <= binary64 x
  <= x * (1 + (1 # 9007199254740992)).
Proof.
  intros Hx. pose proof (binary64_close x) as H.
  rewrite (Qabs_pos x Hx) in H.
  apply Qabs_Qle_condition in H. destruct H as [H1 H2].
  split; lra.
Qed.

(** A quotient by a divisor that is off by the fraction 2^-53. *)
Lemma div_bounds (len r r' : Q) :
  0 <= len -> 0 < r ->
  r * (1 - (1 # 9007199254740992)) <= r'
  <= r * (1 + (1 # 9007199254740992)) ->
  0 < r' /\
  (len / r) * (1 - (1 # 9007199254740992)) <= len / r' /\
  (len / r') * (1 - (1 # 9007199254740992)) <= len / r.
Proof.
  intros Hl Hr [H1 H2].
  assert (0 < r') as Hr'. { eapply Qlt_le_trans; [|exact H1]. lra. }
  split; [done|].
  set (y := len / r'). set (L := len / r).
  assert (y * r' == len) as Hy. { unfold y. field. lra. }
  assert (L * r == len) as HL. { unfold L. field. lra. }
  assert (0 <= y) as Hy0. { unfold y. apply Qle_shift_div_l; lra. }
  assert (0 <= L) as HL0. { unfold L. apply Qle_shift_div_l; lra. }
  split.
  - apply Qmult_le_r with (z := r'); [done|].
    rewrite Hy, <- HL.
    pose proof (Qmult_le_0_compat L
                  (r * (1 + (1 # 9007199254740992)) - r') HL0 ltac:(lra)).
    pose proof (Qmult_le_0_compat L r HL0 ltac:(lra)).
    lra.
  - apply Qmult_le_r with (z := r); [done|].
    rewrite HL, <- Hy.
    pose proof (Qmult_le_0_compat y
                  (r' - r * (1 - (1 # 9007199254740992))) Hy0 ltac:(lra)).
    pose proof (Qmult_le_0_compat y r Hy0 ltac:(lra)).
    lra.
Qed.

(** With the rounding of binary64, and an exact length
    [L = length * 16000 / rate] of at most 2^50: the length computed is
    within 1 of [L], and the first index is a valid index at every position
    below the length computed. *)
Lemma resample_binary64 (audioData : Float32Array) (rate : Q) :
  0 < rate ->
  let L := inject_Z (Z.of_nat (length audioData)) * 16000 / rate in
  L <= 1125899906842624 ->
  let N := newLength_binary64 audioData rate in
  (0 <= N)%Z /\ Qabs (inject_Z N - L) <= 1 /\
  forall i : nat, (Z.of_nat i < N)%Z ->
    (0 <= index1_binary64 rate i < Z.of_nat (length audioData))%Z.
Proof.
  intros Hrate L HL N. unfold N, newLength_binary64, index1_binary64.
  set (n := inject_Z (Z.of_nat (length audioData))) in *.
  pose proof (inject_nat_nonneg (length audioData)) as Hn. fold n in Hn.
  set (r := rate / 16000).
  set (r' := binary64 r).
  set (y' := binary64 (n / r')).
  assert (0 < r) as Hr. { unfold r. apply Qlt_shift_div_l; lra. }
  assert (n / r == L) as HLr. { unfold r, L. field. lra. }
  pose proof (binary64_bounds r ltac:(lra)) as Hr'. fold r' in Hr'.
  destruct (div_bounds n r r' Hn Hr Hr') as (Hr'0 & Hy1 & Hy2).
  rewrite HLr in Hy1, Hy2.
  set (y := n / r') in *.
  assert (0 <= L) as HL0.
  { rewrite <- HLr. apply Qle_shift_div_l; lra. }
  assert (0 <= y) as Hy0. { unfold y. apply Qle_shift_div_l; lra. }
  assert (y * r' == n) as Hyr. { unfold y. field. lra. }
  pose proof (binary64_bounds y Hy0) as Hy'. fold y' in Hy'.
  pose proof (Qfloor_le (y' + (1 # 2))) as HN1.
  pose proof (Qlt_floor (y' + (1 # 2))) as HN2.
  rewrite inject_Z_plus in HN2. change (inject_Z 1) with 1 in HN2.
  fold (Math_round y') in HN1, HN2.
  assert (0 <= Math_round y')%Z as HN0.
  { unfold Math_round. change 0%Z with (Qfloor 0).
    apply Qfloor_resp_le. lra. }
  split; [done|]. split.
  { apply Qabs_Qle_condition. split; lra. }
  intros i Hi. unfold Math_floor.
  set (x := inject_Z (Z.of_nat i) * r').
  pose proof (inject_nat_nonneg i) as Hi0.
  assert (0 <= x) as Hx0. { unfold x. apply Qmult_le_0_compat; lra. }
  pose proof (binary64_bounds x Hx0) as Hx'.
  assert (inject_Z (Z.of_nat i) + 1 <= inject_Z (Math_round y')) as HiN.
  { change 1 with (inject_Z 1). rewrite <- inject_Z_plus, <- Zle_Qle. lia. }
  assert (x <= (y' - (1 # 2)) * r') as Hx1.
  { unfold x. apply Qmult_le_compat_r; lra. }
  assert (y' * r' <= y * (1 + (1 # 9007199254740992)) * r') as Hx2.
  { apply Qmult_le_compat_r; lra. }
  assert (n <= 2251799813685248 * r') as Hnr.
  { rewrite <- Hyr. apply Qmult_le_compat_r; lra. }
  split.
  - change 0%Z with (Qfloor 0). apply Qfloor_resp_le. lra.
  - rewrite Zlt_Qlt. eapply Qle_lt_trans; [apply Qfloor_le|]. fold n.
    lra.
Qed.

End Binary64.

(** Reading a field of an updated manager or node. *)
Ltac fields :=
  cbn [src_buffer src_destination src_start src_ending
       outputAudioContext outputNode nextStartTime activeSources gains sources
       set_outputAudioContext set_outputNode set_nextStartTime
       set_activeSources set_gains set_sources] in *.

(** ** [stopAllAudio] *)

(** Stopping the active sources changes neither the number of nodes nor
    where they are connected, and leaves alone every node that has ended. *)
Lemma stop_sources_frame (ids : list nat) (srcs : list AudioBufferSourceNode) :
  let srcs' :=
    foldr (fun source srcs =>
             match srcs !! source with
             | Some s =>
                 match source_stop s with
                 | Ok s' => <[source := s']> srcs
                 | Throw _ => srcs
                 end
             | None => srcs
             end) srcs ids in
  length srcs' = length srcs /\
  forall id s, srcs !! id = Some s ->
    exists s', srcs' !! id = Some s' /\
      src_buffer s' = src_buffer s /\
      src_destination s' = src_destination s /\
      src_start s' = src_start s /\
      (src_ending s <> None -> s' = s).
Proof.
  induction ids as [|a ids IH]; cbn zeta.
  - split; [done|]. intros id s Hs. by exists s.
  - cbn [foldr]. cbn zeta in IH. destruct IH as [IHlen IH].
    set (done_ := foldr _ srcs ids) in *.
    destruct (done_ !! a) as [sa|] eqn:Ea; [|by split].
    unfold source_stop.
    destruct (src_start sa) eqn:Est; [|by split].
    destruct (src_ending sa) eqn:Een.
    + rewrite list_insert_id by done. by split.
    + split; [by rewrite length_insert|].
      intros id s Hs. destruct (IH id s Hs) as (s' & Hs' & H1 & H2 & H3 & H4).
      destruct (decide (id = a)) as [->|Hne].
      * rewrite Ea in Hs'. injection Hs' as <-.
        eexists. split.
        { apply list_lookup_insert_eq. by eapply lookup_lt_Some. }
        cbn [src_buffer src_destination src_start src_ending].
        split; [done|]. split; [done|]. split; [congruence|].
        intros Hended. specialize (H4 Hended). subst. congruence.
      * exists s'. by rewrite list_lookup_insert_ne.
Qed.

Lemma stopAllAudio_frame (currentTime : Q) (m : LiveManager) :
  let m' := stopAllAudio currentTime m in
  length (sources m') = length (sources m) /\
  gains m' = gains m /\
  outputNode m' = outputNode m /\
  outputAudioContext m' = outputAudioContext m /\
  activeSources m' = ∅ /\
  nextStartTime m'
  = match outputAudioContext m with
    | Some _ => currentTime
    | None => 0%Q
    end.
Proof.
  cbn zeta. unfold stopAllAudio. cbn.
  destruct (outputAudioContext m) eqn:E; cbn;
    (split; [apply stop_sources_frame|]); repeat split; done.
Qed.

(** ** [handleMessage] *)

Lemma decodeAudioData_rate (data : Uint8Array) (ctx : AudioContext)
    (rate : Q) (numChannels : nat) (buffer : AudioBuffer) :
  decodeAudioData data ctx rate numChannels = Ok buffer ->
  ab_sampleRate buffer = rate /\ (8000 <= rate)%Q.
Proof.
  unfold decodeAudioData.
  destruct (Int16Array_of_buffer data) as [d16|]; [|done]. cbn [rbind].
  unfold createBuffer.
  destruct (Qle_bool 8000 rate) eqn:E.
  2: { by rewrite andb_false_r. }
  apply Qle_bool_iff in E.
  match goal with |- context [if ?c then _ else _] => destruct c end;
    [|done].
  cbn [rbind]. by intros [= <-].
Qed.

Lemma duration_nonneg (buffer : AudioBuffer) :
  (0 < ab_sampleRate buffer)%Q -> (0 <= duration buffer)%Q.
Proof.
  intros H. unfold duration. apply Qle_shift_div_l; [done|].
  rewrite Qmult_0_l. apply inject_nat_nonneg.
Qed.

(** What the body of the [try] leaves behind. *)
Inductive scheduled (node : nat) (t : Q) (m m' : LiveManager) : Prop :=
| dropped :
    sources m' = sources m ->
    activeSources m' = activeSources m ->
    nextStartTime m' = Qmax (nextStartTime m) t ->
    scheduled node t m m'
| start_refused (s : AudioBufferSourceNode) :
    sources m' = sources m ++ [s] ->
    src_start s = None ->
    src_destination s = node ->
    activeSources m' = activeSources m ->
    nextStartTime m' = Qmax (nextStartTime m) t ->
    scheduled node t m m'
| started (s : AudioBufferSourceNode) :
    sources m' = sources m ++ [s] ->
    src_start s = Some (Qmax (nextStartTime m) t) ->
    src_ending s = None ->
    src_destination s = node ->
    (0 <= duration (src_buffer s))%Q ->
    activeSources m' = {[length (sources m)]} ∪ activeSources m ->
    nextStartTime m'
    = (Qmax (nextStartTime m) t + duration (src_buffer s))%Q ->
    scheduled node t m m'.

Lemma schedule_spec (base64Audio : JS.str) (ctx : AudioContext) (node : nat)
    (t : Q) (m : LiveManager) :
  let m' := schedule base64Audio ctx node t m in
  scheduled node t m m' /\
  gains m' = gains m /\
  outputNode m' = outputNode m /\
  outputAudioContext m' <> None.
Proof.
  cbn zeta. unfold schedule.
  destruct (base64ToBytes base64Audio) as [audioBytes|];
    [|by split; [apply dropped|]].
  destruct (decodeAudioData audioBytes _ 24000 1) as [audioBuffer|] eqn:Ed;
    [|by split; [apply dropped|]].
  apply decodeAudioData_rate in Ed as [Hrate _].
  unfold source_start. fields.
  destruct (Num.Qltb (Qmax (nextStartTime m) t) 0); fields.
  - split; [|done]. by eapply start_refused.
  - split; [|done]. eapply started; try done.
    fields. apply duration_nonneg. rewrite Hrate. reflexivity.
Qed.

(** ** Units and the cursor *)

Lemma units_snoc (m m' : LiveManager) (s : AudioBufferSourceNode) :
  sources m' = sources m ++ [s] ->
  units m'
  = units m ++ match src_start s with
               | Some t => [(t, duration (src_buffer s))]
               | None => []
               end.
Proof.
  intros H. unfold units. rewrite H, omap_app. f_equal.
  cbn. by destruct (src_start s).
Qed.

Lemma units_insert (srcs : list AudioBufferSourceNode) (id : nat)
    (s s' : AudioBufferSourceNode) :
  srcs !! id = Some s ->
  src_start s' = src_start s -> src_buffer s' = src_buffer s ->
  omap (fun s => (fun t => (t, duration (src_buffer s))) <$> src_start s)
    (<[id := s']> srcs)
  = omap (fun s => (fun t => (t, duration (src_buffer s))) <$> src_start s)
      srcs.
Proof.
  revert id. induction srcs as [|x srcs IH]; intros id Hid Hs Hb; [done|].
  destruct id as [|id].
  - injection Hid as ->. simpl. by rewrite Hs, Hb.
  - pose proof (IH id Hid Hs Hb) as IH'. unfold omap in IH'.
    simpl. by rewrite IH'.
Qed.

(** What one event does to the cursor and to the units. *)
Inductive advance (m m' : LiveManager) : Prop :=
| idle :
    units m' = units m ->
    (nextStartTime m <= nextStartTime m')%Q ->
    advance m m'
| enqueued (t d : Q) :
    units m' = units m ++ [(t, d)] ->
    (nextStartTime m <= t)%Q ->
    (0 <= d)%Q ->
    nextStartTime m' = (t + d)%Q ->
    advance m m'.

Lemma handleMessage_units (message : LiveServerMessage) (t t' : Q)
    (m : LiveManager) :
  interrupted message = false ->
  let m' := handleMessage message t t' m in
  (units m' = units m /\
   (nextStartTime m' = nextStartTime m \/
    nextStartTime m' = Qmax (nextStartTime m) t)) \/
  (exists d : Q,
     (0 <= d)%Q /\
     units m' = units m ++ [(Qmax (nextStartTime m) t, d)] /\
     nextStartTime m' = (Qmax (nextStartTime m) t + d)%Q).
Proof.
  intros Hint. cbn zeta. unfold handleMessage. rewrite Hint.
  destruct (outputAudioContext m) as [ctx|]; [|by left; split; [|left]].
  destruct (outputNode m) as [node|]; [|by left; split; [|left]].
  destruct (inlineData message) as [[|c rest]|];
    [by left; split; [|left] | | by left; split; [|left]].
  destruct (schedule_spec (c :: rest) ctx node t m) as [Hs _].
  destruct Hs as [Hsrc _ Hc | s Hsrc Hst _ _ Hc | s Hsrc Hst _ _ Hd _ Hc].
  - left. split; [|by right]. unfold units. by rewrite Hsrc.
  - left. split; [|by right].
    rewrite (units_snoc _ _ _ Hsrc), Hst. by rewrite app_nil_r.
  - right. exists (duration (src_buffer s)). split; [done|].
    split; [|done]. by rewrite (units_snoc _ _ _ Hsrc), Hst.
Qed.

Lemma step_advance (m : LiveManager) (e : event) :
  no_interrupt e -> advance m (step m e).
Proof.
  destruct e as [message t t'|source|source|val]; cbn [no_interrupt step].
  - intros Hint.
    destruct (handleMessage_units message t t' m Hint)
      as [[Hu [Hc|Hc]]|(d & Hd & Hu & Hc)].
    + apply idle; [done|]. rewrite Hc. apply Qle_refl.
    + apply idle; [done|]. rewrite Hc. apply Q.le_max_l.
    + eapply enqueued; [done | apply Q.le_max_l | done | done].
  - intros _. apply idle; [|apply Qle_refl || idtac].
    + unfold device_finishes.
      destruct (sources m !! source) as [s|] eqn:Es; [|done].
      destruct (src_start s) eqn:Est; [|done].
      destruct (src_ending s); [done|].
      unfold units. fields. by eapply units_insert.
    + unfold device_finishes.
      destruct (sources m !! source) as [s|]; [|apply Qle_refl].
      destruct (src_start s); [|apply Qle_refl].
      destruct (src_ending s); apply Qle_refl.
  - intros _. apply idle; [done | apply Qle_refl].
  - intros _. unfold setVolume.
    destruct (outputNode m); [|by apply idle; [|apply Qle_refl]].
    destruct (outputAudioContext m); by apply idle; [|apply Qle_refl].
Qed.

Lemma gapless_from_weaken (c c' : Q) (us : list (Q * Q)) :
  (c' <= c)%Q -> gapless_from c us -> gapless_from c' us.
Proof.
  destruct us as [|[t d] us]; [done|]. cbn. intros Hc [Ht Hus].
  split; [by eapply Qle_trans | done].
Qed.

Lemma gapless_from_gapless (c : Q) (us : list (Q * Q)) :
  gapless_from c us -> gapless us.
Proof.
  revert c. induction us as [|[t d] us IH]; intros c; [done|].
  cbn [gapless_from]. intros [_ Hus].
  destruct us as [|[t2 d2] us]; [done|].
  cbn [gapless]. split; [apply Hus | by eapply IH].
Qed.

(** Along a run without interruption the cursor never goes back, and the
    units scheduled during the run follow one another from the cursor on. *)
Lemma run_advance (events : list event) (m : LiveManager) :
  Forall no_interrupt events ->
  (nextStartTime m <= nextStartTime (run m events))%Q /\
  exists new : list (Q * Q),
    units (run m events) = units m ++ new /\
    gapless_from (nextStartTime m) new /\
    Forall (fun u => (u.1 + u.2 <= nextStartTime (run m events))%Q) new.
Proof.
  intros Hev. revert m.
  induction Hev as [|e events He _ IH]; intros m.
  - split; [apply Qle_refl|]. exists []. by rewrite app_nil_r.
  - cbn [run foldl]. fold (run (step m e) events).
    destruct (IH (step m e)) as (Hc & new & Hu & Hg & Hend).
    destruct (step_advance m e He) as [Hu1 Hc1 | t d Hu1 Ht Hd Hc1].
    + split; [by eapply Qle_trans|].
      exists new. rewrite Hu, Hu1. split; [done|].
      split; [by eapply gapless_from_weaken | done].
    + split.
      { eapply Qle_trans; [|exact Hc]. rewrite Hc1.
        eapply Qle_trans; [exact Ht|].
        rewrite <- (Qplus_0_r t) at 1. by apply Qplus_le_r. }
      exists ((t, d) :: new). rewrite Hu, Hu1, <- app_assoc.
      split; [done|]. split.
      * cbn [gapless_from]. split; [done|]. by rewrite <- Hc1.
      * constructor; [|done]. cbn [fst snd]. by rewrite <- Hc1.
Qed.

(** ** [stopAllAudio] and the nodes *)

Lemma stopAllAudio_sources (currentTime : Q) (m : LiveManager) :
  let m' := stopAllAudio currentTime m in
  length (sources m') = length (sources m) /\
  forall id s, sources m !! id = Some s ->
    exists s', sources m' !! id = Some s' /\
      src_buffer s' = src_buffer s /\
      src_destination s' = src_destination s /\
      src_start s' = src_start s /\
      (src_ending s <> None -> s' = s).
Proof.
  cbn zeta. unfold stopAllAudio.
  destruct (outputAudioContext _); fields; apply stop_sources_frame.
Qed.

(** Every started node of the list has ended once the list is stopped. *)
Lemma stop_sources_stops (ids : list nat) (srcs : list AudioBufferSourceNode)
    (id : nat) (s : AudioBufferSourceNode) :
  srcs !! id = Some s -> id ∈ ids -> src_start s <> None ->
  exists s',
    foldr (fun source srcs =>
             match srcs !! source with
             | Some s =>
                 match source_stop s with
                 | Ok s' => <[source := s']> srcs
                 | Throw _ => srcs
                 end
             | None => srcs
             end) srcs ids !! id = Some s' /\
    src_ending s' <> None.
Proof.
  intros Hs Hin Hst. induction ids as [|a ids IH]; [by inversion Hin|].
  cbn [foldr].
  pose proof (stop_sources_frame ids srcs) as [Hlen Hframe].
  cbn zeta in Hlen, Hframe.
  set (done_ := foldr _ srcs ids) in *.
  destruct (Hframe id s Hs) as (s1 & Hs1 & _ & _ & Hst1 & _).
  destruct (decide (id = a)) as [<-|Hne].
  - rewrite Hs1. unfold source_stop. rewrite Hst1.
    destruct (src_start s) eqn:E; [|done].
    destruct (src_ending s1) eqn:E1.
    + exists s1. by rewrite list_insert_id, Hs1, E1.
    + eexists. split.
      * apply list_lookup_insert_eq. by eapply lookup_lt_Some.
      * done.
  - apply elem_of_cons in Hin as [?|Hin]; [done|].
    destruct (IH Hin) as (s' & Hs' & Hen).
    exists s'. split; [|done].
    destruct (done_ !! a) as [sa|] eqn:Ea; [|done].
    destruct (source_stop sa); [|done].
    by rewrite list_lookup_insert_ne.
Qed.

Lemma stopAllAudio_stops (currentTime : Q) (m : LiveManager) (id : nat)
    (s : AudioBufferSourceNode) :
  sources m !! id = Some s -> id ∈ activeSources m -> src_start s <> None ->
  exists s',
    sources (stopAllAudio currentTime m) !! id = Some s' /\
    src_ending s' <> None.
Proof.
  intros Hs Hin Hst. unfold stopAllAudio.
  destruct (outputAudioContext _); fields;
    apply (stop_sources_stops _ _ id s Hs); try done;
    by apply elem_of_elements.
Qed.

(** ** The output node *)

(** What an event other than a volume change leaves in place: the output
    node, the gains, the destination of every existing node; the nodes it
    adds are connected to the output node. *)
Definition routed (m m' : LiveManager) : Prop :=
  outputNode m' = outputNode m /\
  gains m' = gains m /\
  exists new : list nat,
    List.map src_destination (sources m')
    = List.map src_destination (sources m) ++ new /\
    Forall (fun d => outputNode m = Some d) new.

Lemma routed_refl (m m' : LiveManager) :
  outputNode m' = outputNode m -> gains m' = gains m ->
  List.map src_destination (sources m')
  = List.map src_destination (sources m) ->
  routed m m'.
Proof.
  intros Hn Hg Hs. split; [done|]. split; [done|].
  exists []. by rewrite app_nil_r.
Qed.

Lemma routed_trans (m1 m2 m3 : LiveManager) :
  routed m1 m2 -> routed m2 m3 -> routed m1 m3.
Proof.
  intros (Hn1 & Hg1 & new1 & Hs1 & Hf1) (Hn2 & Hg2 & new2 & Hs2 & Hf2).
  split; [congruence|]. split; [congruence|].
  exists (new1 ++ new2). split.
  - by rewrite Hs2, Hs1, app_assoc.
  - apply Forall_app. split; [done|]. by rewrite <- Hn1.
Qed.

Lemma stopAllAudio_routed (currentTime : Q) (m : LiveManager) :
  routed m (stopAllAudio currentTime m).
Proof.
  destruct (stopAllAudio_frame currentTime m) as (Hlen & Hg & Hn & _).
  destruct (stopAllAudio_sources currentTime m) as [_ Hsrc].
  apply routed_refl; [done | done |].
  apply list_eq. intros i. rewrite !list_lookup_fmap.
  destruct (sources m !! i) as [s|] eqn:Es.
  - destruct (Hsrc i s Es) as (s' & -> & _ & Hd & _). cbn. by rewrite Hd.
  - apply lookup_ge_None in Es.
    rewrite lookup_ge_None_2 by lia. done.
Qed.

Lemma schedule_routed (base64Audio : JS.str) (ctx : AudioContext)
    (node : nat) (t : Q) (m : LiveManager) :
  outputNode m = Some node ->
  routed m (schedule base64Audio ctx node t m).
Proof.
  intros Hnode.
  destruct (schedule_spec base64Audio ctx node t m) as (Hs & Hg & Hn & _).
  destruct Hs as [Hsrc _ _ | s Hsrc _ Hd _ _ | s Hsrc _ _ Hd _ _ _].
  - apply routed_refl; [done | done | by rewrite Hsrc].
  - split; [done|]. split; [done|]. exists [node].
    split; [by rewrite Hsrc, map_app; cbn; rewrite Hd|].
    by repeat constructor.
  - split; [done|]. split; [done|]. exists [node].
    split; [by rewrite Hsrc, map_app; cbn; rewrite Hd|].
    by repeat constructor.
Qed.

Lemma handleMessage_routed (message : LiveServerMessage) (t t' : Q)
    (m : LiveManager) :
  routed m (handleMessage message t t' m).
Proof.
  unfold handleMessage.
  destruct (outputAudioContext m) as [ctx|]; [|by apply routed_refl].
  destruct (outputNode m) as [node|] eqn:Hnode; [|by apply routed_refl].
  assert (routed m
            match inlineData message with
            | Some (c :: rest) => schedule (c :: rest) ctx node t m
            | _ => m
            end) as H1.
  { destruct (inlineData message) as [[|c rest]|];
      [by apply routed_refl | by apply schedule_routed | by apply routed_refl]. }
  destruct (interrupted message); [|done].
  eapply routed_trans; [exact H1 | apply stopAllAudio_routed].
Qed.

Lemma step_routed (m : LiveManager) (e : event) :
  no_volume e -> routed m (step m e).
Proof.
  destruct e as [message t t'|source|source|val]; cbn [no_volume step];
    [intros _ | intros _ | intros _ | done].
  - apply handleMessage_routed.
  - unfold device_finishes.
    destruct (sources m !! source) as [s|] eqn:Es; [|by apply routed_refl].
    destruct (src_start s); [|by apply routed_refl].
    destruct (src_ending s); [by apply routed_refl|].
    apply routed_refl; [done | done |]. fields.
    rewrite list_fmap_insert. cbn.
    apply list_insert_id. by rewrite list_lookup_fmap, Es.
  - by apply routed_refl.
Qed.

Lemma run_routed (events : list event) (m : LiveManager) :
  Forall no_volume events -> routed m (run m events).
Proof.
  intros Hev. revert m. induction Hev as [|e events He _ IH]; intros m.
  - by apply routed_refl.
  - cbn [run foldl]. fold (run (step m e) events).
    eapply routed_trans; [by apply step_routed | apply IH].
Qed.

(** ** A well-formed payload is scheduled *)

(** A payload that is the base64 text of [n] sixteen-bit samples, [n] at
    least 1, arriving while the output context and node are there and no
    interruption comes with it, becomes a unit of [n / 24000] seconds that
    starts at the maximum of the cursor and the clock. *)
Lemma handleMessage_enqueues (message : LiveServerMessage) (t t' : Q)
    (m : LiveManager) (ctx : AudioContext) (node : nat)
    (base64Audio : JS.str) (audioBytes : Uint8Array) (n : nat) :
  outputAudioContext m = Some ctx -> outputNode m = Some node ->
  inlineData message = Some base64Audio -> interrupted message = false ->
  base64ToBytes base64Audio = Ok audioBytes ->
  length audioBytes = (2 * n)%nat -> (1 <= n)%nat -> Z.of_nat n < 2 ^ 32 ->
  (0 <= Qmax (nextStartTime m) t)%Q ->
  let m' := handleMessage message t t' m in
  let start := Qmax (nextStartTime m) t in
  let d := (inject_Z (Z.of_nat n) / 24000)%Q in
  units m' = units m ++ [(start, d)] /\
  nextStartTime m' = (start + d)%Q /\
  activeSources m' = {[length (sources m)]} ∪ activeSources m /\
  exists s : AudioBufferSourceNode,
    sources m' = sources m ++ [s] /\
    src_destination s = node /\ src_start s = Some start /\
    src_ending s = None /\ ab_length (src_buffer s) = n.
Proof.
  intros Hctx Hnode Hpay Hint Hbytes Hlen Hn Hsz Hpos. cbn zeta.
  assert (base64Audio <> []) as Hne.
  { intros ->. vm_compute in Hbytes. injection Hbytes as <-.
    cbn in Hlen. lia. }
  destruct base64Audio as [|c rest]; [done|].
  unfold handleMessage. rewrite Hctx, Hnode, Hpay, Hint.
  unfold schedule. rewrite Hbytes. fields.
  pose proof (Int16Array_of_buffer_spec audioBytes) as Hview.
  destruct (Int16Array_of_buffer audioBytes) as [d16|e] eqn:Ed.
  2: { destruct Hview as [_ Hodd]. rewrite Hlen in Hodd. exfalso. dlia. }
  assert (length d16 = n) as Hd16 by lia.
  rewrite (decodeAudioData_decoded audioBytes _ 24000 1 d16 Ed).
  2: lia.
  2: split; discriminate.
  2: { rewrite Nat.div_1_r, Hd16. done. }
  unfold decoded. rewrite Nat.div_1_r, Hd16.
  destruct (Nat.eqb_spec n 0) as [->|_]; [lia|].
  unfold source_start. fields.
  rewrite (proj2 (Qltb_ge _ 0)) by done. fields.
  split; [|split; [done|split; [done|]]].
  - unfold units. fields. rewrite omap_app. done.
  - eexists. split; [done|]. by fields.
Qed.

(** ** Handlers in flight *)

Lemma set_outputAudioContext_same (m : LiveManager) (ctx : AudioContext) :
  outputAudioContext m = Some ctx ->
  set_outputAudioContext (Some ctx) m = m.
Proof. destruct m. cbn. by intros ->. Qed.

Lemma decoding_not_at_resume (message : LiveServerMessage)
    (base64Audio : JS.str) (t t' : Q) (m m1 : LiveManager)
    (message1 : LiveServerMessage) (base64Audio1 : JS.str) :
  decoding message base64Audio t t' m
  <> (m1, Some (at_resume message1 base64Audio1)).
Proof.
  unfold decoding. destruct (outputAudioContext m); [|done].
  by destruct (base64ToBytes base64Audio).
Qed.

(** The handler as one function is the handler run to completion. *)
Lemma handleMessage_to_completion (message : LiveServerMessage) (t t' : Q)
    (m : LiveManager) :
  handleMessage message t t' m = to_completion message t t' m.
Proof.
  unfold handleMessage, to_completion, entering.
  destruct (outputAudioContext m) as [ctx|] eqn:Hctx; [|done].
  destruct (outputNode m) as [node|] eqn:Hnode; [|done].
  destruct (inlineData message) as [[|c rest]|]; [done | | done].
  assert (forall (m0 : LiveManager) (c0 : AudioContext),
            outputAudioContext m0 = Some c0 -> outputNode m0 = Some node ->
            state c0 <> suspended ->
            (if interrupted message
             then stopAllAudio t' (schedule (c :: rest) c0 node t m0)
             else schedule (c :: rest) c0 node t m0)
            = match decoding message (c :: rest) t t' m0 with
              | (m1, Some (at_decode message1 decoded)) =>
                  scheduling message1 decoded t' m1
              | (m1, _) => m1
              end) as Hrun.
  { intros m0 c0 Hc0 Hn0 Hst. unfold schedule, decoding. rewrite Hc0.
    replace (match state c0 with
             | suspended => {| state := running |}
             | _ => c0
             end) with c0 by by destruct (state c0).
    rewrite (set_outputAudioContext_same m0 c0 Hc0).
    destruct (base64ToBytes (c :: rest)) as [audioBytes|]; [|done].
    unfold scheduling. fields. rewrite Hc0, Hn0.
    by destruct (decodeAudioData audioBytes c0 24000 1). }
  destruct (state ctx) eqn:Hst.
  - (* suspended: the handler waits for the context *)
    unfold resuming. rewrite Hctx, Hst.
    rewrite <- (Hrun (set_outputAudioContext (Some {| state := running |}) m)
                  {| state := running |}) by done.
    unfold schedule. rewrite Hst. fields.
    destruct (base64ToBytes (c :: rest)) as [audioBytes|]; [|done].
    destruct (decodeAudioData audioBytes _ 24000 1); [|done].
    by destruct (source_start _ _).
  - rewrite (Hrun m ctx Hctx Hnode) by by rewrite Hst.
    destruct (decoding message (c :: rest) t t' m) as [m1 [[]|]] eqn:E;
      [|done|done].
    by apply decoding_not_at_resume in E.
  - rewrite (Hrun m ctx Hctx Hnode) by by rewrite Hst.
    destruct (decoding message (c :: rest) t t' m) as [m1 [[]|]] eqn:E;
      [|done|done].
    by apply decoding_not_at_resume in E.
Qed.

Lemma interruption_none (message : LiveServerMessage) (t' : Q)
    (m : LiveManager) :
  interrupted message = false -> interruption message t' m = m.
Proof. unfold interruption. by intros ->. Qed.

Lemma advance_refl (m m' : LiveManager) :
  units m' = units m -> nextStartTime m' = nextStartTime m -> advance m m'.
Proof. intros Hu Hc. apply idle; [done|]. rewrite Hc. apply Qle_refl. Qed.

(** Up to [await decodeAudioData(...)] the cursor can only go up, no unit is
    scheduled, and the handler left in flight is sound. *)
Lemma decoding_advance (message : LiveServerMessage) (base64Audio : JS.str)
    (t t' : Q) (m : LiveManager) :
  interrupted message = false ->
  let '(m', h) := decoding message base64Audio t t' m in
  advance m m' /\ from_option sound True h.
Proof.
  intros Hint. unfold decoding.
  destruct (outputAudioContext m) as [ctx|].
  2: { rewrite interruption_none by done. split; [by apply advance_refl|done]. }
  destruct (base64ToBytes base64Audio) as [audioBytes|].
  2: { rewrite interruption_none by done. split; [|done].
       apply idle; [done|]. apply Q.le_max_l. }
  split; [apply idle; [done | apply Q.le_max_l]|].
  cbn. split; [done|].
  destruct (decodeAudioData audioBytes ctx 24000 1) as [b|] eqn:Ed; [|done].
  apply decodeAudioData_rate in Ed as [Hr _].
  apply duration_nonneg. rewrite Hr. reflexivity.
Qed.

(** After [await decodeAudioData(...)] a unit, if one is scheduled, starts at
    the cursor as it is then, and moves the cursor to its own end. *)
Lemma scheduling_advance (message : LiveServerMessage)
    (decoded : result AudioBuffer) (t' : Q) (m : LiveManager) :
  sound (at_decode message decoded) ->
  let m' := scheduling message decoded t' m in
  (units m' = units m /\ nextStartTime m' = nextStartTime m) \/
  (exists d : Q,
     (0 <= d)%Q /\
     units m' = units m ++ [(nextStartTime m, d)] /\
     nextStartTime m' = (nextStartTime m + d)%Q).
Proof.
  intros [Hint Hd]. cbn zeta. unfold scheduling.
  rewrite interruption_none by done.
  destruct decoded as [audioBuffer|]; [|by left].
  destruct (outputAudioContext m); [|by left].
  destruct (outputNode m) as [node|]; [|by left].
  unfold source_start. fields.
  destruct (Num.Qltb (nextStartTime m) 0).
  - left. split; [|done]. unfold units. fields.
    rewrite omap_app. cbn. by rewrite app_nil_r.
  - right. exists (duration audioBuffer). split; [done|].
    split; [|done]. unfold units. fields. by rewrite omap_app.
Qed.

Lemma keep_sound (h : option handler) (hs : list handler) :
  from_option sound True h -> Forall sound hs -> Forall sound (keep h hs).
Proof.
  destruct h as [h|]; cbn; [|done].
  intros Hh Hhs. apply Forall_app. split; [done|]. by constructor.
Qed.

Lemma delete_sound (i : nat) (hs : list handler) :
  Forall sound hs -> Forall sound (delete i hs).
Proof.
  intros H. by apply Forall_delete.
Qed.

(** What one occurrence does to the cursor and to the units. *)
Lemma occur_advance (m : LiveManager) (hs : list handler) (o : occurrence) :
  uninterrupted o -> Forall sound hs ->
  advance m (occur (m, hs) o).1 /\ Forall sound (occur (m, hs) o).2.
Proof.
  intros Ho Hhs. destruct o as [message t t'|index t t'|e]; cbn [occur].
  - cbn [uninterrupted] in Ho. unfold entering.
    destruct (outputAudioContext m) as [ctx|];
      [|by split; [apply advance_refl|]].
    destruct (outputNode m) as [node|];
      [|by split; [apply advance_refl|]].
    destruct (inlineData message) as [[|c rest]|].
    + rewrite interruption_none by done. by split; [apply advance_refl|].
    + destruct (state ctx).
      * cbn. split; [by apply advance_refl|].
        apply Forall_app. split; [done|]. by constructor.
      * pose proof (decoding_advance message (c :: rest) t t' m Ho) as H.
        destruct (decoding message (c :: rest) t t' m) as [m' h].
        destruct H as [Ha Hh]. cbn. split; [done|]. by apply keep_sound.
      * pose proof (decoding_advance message (c :: rest) t t' m Ho) as H.
        destruct (decoding message (c :: rest) t t' m) as [m' h].
        destruct H as [Ha Hh]. cbn. split; [done|]. by apply keep_sound.
    + rewrite interruption_none by done. by split; [apply advance_refl|].
  - destruct (hs !! index) as [[message base64Audio|message decoded]|] eqn:Eh.
    + assert (sound (at_resume message base64Audio)) as Hs.
      { rewrite Forall_forall in Hhs. apply Hhs.
        by eapply list_elem_of_lookup_2. }
      cbn [sound] in Hs. unfold resuming.
      set (m0 := match outputAudioContext m with
                 | Some ctx =>
                     match state ctx with
                     | suspended =>
                         set_outputAudioContext
                           (Some {| state := running |}) m
                     | _ => m
                     end
                 | None => m
                 end).
      assert (units m0 = units m /\ nextStartTime m0 = nextStartTime m)
        as [Hu0 Hc0].
      { unfold m0. destruct (outputAudioContext m) as [ctx|]; [|done].
        by destruct (state ctx). }
      pose proof (decoding_advance message base64Audio t t' m0 Hs) as H.
      destruct (decoding message base64Audio t t' m0) as [m' h].
      destruct H as [Ha Hh]. cbn. split.
      * destruct Ha as [Hu Hc | u d Hu Hc Hd Hn].
        { apply idle; [by rewrite Hu | by rewrite <- Hc0]. }
        { eapply enqueued; [by rewrite Hu, Hu0 | by rewrite <- Hc0
                           | done | done]. }
      * apply keep_sound; [done|]. by apply delete_sound.
    + assert (sound (at_decode message decoded)) as Hs.
      { rewrite Forall_forall in Hhs. apply Hhs.
        by eapply list_elem_of_lookup_2. }
      cbn. split; [|by apply delete_sound].
      destruct (scheduling_advance message decoded t' m Hs)
        as [[Hu Hc]|(d & Hd & Hu & Hc)].
      * by apply advance_refl.
      * eapply enqueued; [done | apply Qle_refl | done | done].
    + cbn. by split; [apply advance_refl|].
  - cbn. split; [|done]. by apply step_advance.
Qed.

(** However the handlers in flight take their turns, as long as no message
    carries an interruption: the cursor never goes back, and the units
    scheduled follow one another from the cursor on. *)
Lemma occurrences_gapless (os : list occurrence) (m : LiveManager)
    (hs : list handler) :
  Forall uninterrupted os -> Forall sound hs ->
  let m' := (occurrences (m, hs) os).1 in
  (nextStartTime m <= nextStartTime m')%Q /\
  exists new : list (Q * Q),
    units m' = units m ++ new /\
    gapless_from (nextStartTime m) new /\
    gapless new.
Proof.
  intros Hos. revert m hs.
  induction Hos as [|o os Ho _ IH]; intros m hs Hhs; cbn zeta.
  - split; [apply Qle_refl|]. exists []. by rewrite app_nil_r.
  - cbn [occurrences foldl].
    destruct (occur_advance m hs o Ho Hhs) as [Ha Hhs1].
    destruct (occur (m, hs) o) as [m1 hs1]. cbn [fst snd] in Ha, Hhs1.
    fold (occurrences (m1, hs1) os).
    destruct (IH m1 hs1 Hhs1) as (Hc & new & Hu & Hg & _).
    destruct Ha as [Hu1 Hc1 | t d Hu1 Ht Hd Hc1].
    + split; [by eapply Qle_trans|].
      exists new. rewrite Hu, Hu1. split; [done|].
      assert (gapless_from (nextStartTime m) new) as Hg'
        by by eapply gapless_from_weaken.
      split; [done | by eapply gapless_from_gapless].
    + split.
      { eapply Qle_trans; [|exact Hc]. rewrite Hc1.
        eapply Qle_trans; [exact Ht|].
        rewrite <- (Qplus_0_r t) at 1. by apply Qplus_le_r. }
      exists ((t, d) :: new). rewrite Hu, Hu1, <- app_assoc.
      split; [done|].
      assert (gapless_from (nextStartTime m) ((t, d) :: new)) as Hg'.
      { cbn [gapless_from]. split; [done|]. by rewrite <- Hc1. }
      split; [done | by eapply gapless_from_gapless].
Qed.

(** Two handlers that wait for the same suspended context: the second has
    read the cursor before the first has moved it, and its unit still starts
    where the first one ends. *)
Example two_handlers_in_flight :
  let m := connect suspended new_LiveManager in
  let os := [Arrives silence 0 0; Arrives silence 0 0;
             GoesOn 0 0 0; GoesOn 0 0 0; GoesOn 0 0 0; GoesOn 0 0 0] in
  units (occurrences (m, []) os).1
  = [(Qmax 0 0, 2 / 24000); (Qmax 0 0 + 2 / 24000, 2 / 24000)]%Q /\
  (occurrences (m, []) os).2 = [].
Proof. split; reflexivity. Qed.

(** * The claims *)



(** C2. After [stopAllAudio] the set of active sources is empty and the
    cursor is the device's clock as read by the call, or 0 when there is no
    output context.  The call never fails, whatever the state of the nodes
    in the set: [stop] on a node that has already ended returns normally
    and leaves the node as it was, and so does [stopAllAudio]. *)
Theorem interrupt_clears (currentTime : Q) (m : LiveManager) :
  let m' := stopAllAudio currentTime m in
  activeSources m' = ∅ /\
  nextStartTime m'
  = match outputAudioContext m with
    | Some _ => currentTime
    | None => 0%Q
    end /\
  (forall s : AudioBufferSourceNode,
     src_start s <> None -> src_ending s <> None -> source_stop s = Ok s) /\
  (forall (id : nat) (s : AudioBufferSourceNode),
     sources m !! id = Some s -> src_ending s <> None ->
     sources m' !! id = Some s) /\
  (forall (id : nat) (s : AudioBufferSourceNode),
     sources m !! id = Some s -> id ∈ activeSources m ->
     src_start s <> None ->
     exists s' : AudioBufferSourceNode,
       sources m' !! id = Some s' /\ src_ending s' <> None).
Proof.
  cbn zeta.
  destruct (stopAllAudio_frame currentTime m) as (_ & _ & _ & _ & Ha & Hc).
  split; [done|]. split; [done|]. split; [|split].
  - intros s Hst Hen. unfold source_stop.
    destruct (src_start s); [|done]. by destruct (src_ending s).
  - intros id s Hs Hen.
    destruct (stopAllAudio_sources currentTime m) as [_ H].
    destruct (H id s Hs) as (s' & Hs' & _ & _ & _ & Heq).
    by rewrite Hs', (Heq Hen).
  - intros id s Hs Hid Hst.
    by apply (stopAllAudio_stops currentTime m id s).
Qed.

(** A unit that has played out, its ['ended'] listener not yet run, and an
    interruption at time 5: the node stays as it was, the set is emptied
    and the cursor is 5. *)
Example interrupt_after_the_end :
  let m := device_finishes 0 (handleMessage silence 0 0 connected) in
  activeSources m = {[0%nat]} /\
  src_ending <$> sources m !! 0%nat = Some (Some played_out) /\
  src_ending <$> sources (stopAllAudio 5 m) !! 0%nat
  = Some (Some played_out) /\
  activeSources (stopAllAudio 5 m) = ∅ /\
  nextStartTime (stopAllAudio 5 m) = 5%Q.
Proof. cbn zeta. repeat split; vm_compute; reflexivity. Qed.

(** C3, as stated, fails: the sample [1 - 2^-17] is encoded as 32766 and
    decoded as 32766/32768, more than one step of 1/32768 below it; and the
    encoding of the empty buffer cannot be decoded at all. *)
Lemma roundtrip_one_step_counterexample :
  let ctx := {| state := running |} in
  let s := [Fin (131071 # 131072)] in
  Forall in_unit_range s /\
  ~ (exists out : Float32Array,
       roundtrip ctx s = Ok out /\ Forall2 (within (1 # 32768)) s out) /\
  ~ (exists out : Float32Array,
       roundtrip ctx [] = Ok out /\ Forall2 (within (1 # 32768)) [] out).
Proof.
  cbn zeta. split; [|split].
  - repeat constructor; discriminate.
  - intros (out & Hout & Hw).
    vm_compute in Hout. injection Hout as <-.
    apply Forall2_cons_1 in Hw as [Hw _].
    unfold within in Hw. vm_compute in Hw. by apply Hw.
  - intros (out & Hout & _). vm_compute in Hout. discriminate.
Qed.

(** C3, amended.  For every non-empty buffer of finite samples in [-1, 1]
    (fewer than 2^32 of them), decoding the encoding gives a buffer of the
    same length in which every sample differs from the one it came from by
    less than two steps of 1/32768, and by less than one step where the
    sample is negative. *)
Theorem roundtrip_error (ctx : AudioContext) (s : Float32Array) :
  s <> [] -> Forall in_unit_range s -> Z.of_nat (length s) < 2 ^ 32 ->
  exists out : Float32Array,
    roundtrip ctx s = Ok out /\
    length out = length s /\
    forall (i : nat) (q : Q), s !! i = Some (Fin q) ->
      exists r : Q,
        out !! i = Some (Fin r) /\
        (Qabs (q - r) < 2 # 32768)%Q /\
        ((q < 0)%Q -> (Qabs (q - r) < 1 # 32768)%Q).
Proof.
  intros Hne Hs Hsz.
  destruct (encode_samples_ok s) as (Hrange & Hcode).
  destruct (createPcmBlob_spec s 16000) as (blob & Hblob & Hbytes).
  unfold roundtrip. rewrite Hblob. cbn [rbind]. rewrite Hbytes. cbn [rbind].
  rewrite (decodeAudioData_decoded _ ctx 16000 1 (List.map pcm_sample s)).
  2: by apply Int16Array_of_Uint8Array.
  2: lia.
  2: split; discriminate.
  2: { rewrite length_map, Nat.div_1_r. done. }
  destruct (decoded (List.map pcm_sample s) 16000 1) as [buffer|e] eqn:Ed.
  2: { assert (is_ok (decoded (List.map pcm_sample s) 16000 1) = false) as Hf
         by by rewrite Ed.
       apply decoded_is_ok in Hf.
       rewrite length_map, Nat.div_1_r in Hf.
       by destruct s. }
  destruct (decoded_ok _ _ _ _ (le_n 1) Ed) as (_ & Hlen & Hch & Hsamples).
  rewrite length_map, Nat.div_1_r in Hlen.
  cbn [rbind].
  destruct (ab_channels buffer) as [|out [|? ?]] eqn:Eout; try done.
  exists out. split; [done|].
  assert (length out = length s) as Hlo.
  { destruct s as [|x s']; [done|].
    destruct (Hsamples 0%nat 0%nat) as (z & samples & _ & Hc & Hl & _).
    { lia. } { rewrite Hlen. simpl. lia. }
    injection Hc as <-. by rewrite Hl. }
  split; [done|].
  intros i q Hi.
  destruct (Hsamples 0%nat i) as (z & samples & Hz & Hc & _ & Hr).
  { lia. } { rewrite Hlen. by eapply lookup_lt_Some. }
  injection Hc as <-.
  rewrite Nat.mul_1_r, Nat.add_0_r, list_lookup_fmap, Hi in Hz.
  injection Hz as <-.
  assert (in_unit_range (Fin q)) as Hq.
  { rewrite Forall_forall in Hs. apply Hs. by eapply list_elem_of_lookup_2. }
  destruct (pcm_sample_spec (Fin q)) as [Hp _]. rewrite Hp in Hr.
  destruct (quantisation_error q Hq) as [Hneg Hpos].
  eexists. split; [exact Hr|].
  cbn zeta in Hneg, Hpos.
  set (r := (inject_Z (spec_encode_sample (Fin q)) / 32768)%Q) in *.
  destruct (Qlt_le_dec q 0) as [Hlt|Hge].
  - specialize (Hneg Hlt).
    assert (Qabs (q - r) < 1 # 32768)%Q as Hone.
    { apply Qabs_Qlt_condition. split; lra. }
    split; [lra | done].
  - specialize (Hpos Hge). split.
    + apply Qabs_Qlt_condition. split; lra.
    + intros. lra.
Qed.

(** The scenario of the specification: [1.0, -1.0, 0.0]. *)
Lemma roundtrip_error_witness :
  let ctx := {| state := running |} in
  let s := [Fin 1; Fin (-1); Fin 0] in
  s <> [] /\ Forall in_unit_range s /\ Z.of_nat (length s) < 2 ^ 32 /\
  exists out : Float32Array,
    roundtrip ctx s = Ok out /\
    Forall2 (within (1 # 32768)) s out.
Proof.
  cbn zeta. split; [discriminate|]. split.
  { repeat constructor; discriminate. }
  split; [reflexivity|].
  destruct (roundtrip_error {| state := running |} [Fin 1; Fin (-1); Fin 0])
    as (out & Hout & _).
  { discriminate. }
  { repeat constructor; discriminate. }
  { reflexivity. }
  exists out. split; [exact Hout|].
  vm_compute in Hout. injection Hout as <-.
  repeat constructor; unfold within; vm_compute; discriminate.
Defined.

(** C4. For every input buffer, whatever its values, [createPcmBlob] returns
    a blob whose text is the base64 of the samples clamped to [-1, 1],
    scaled by 32768 when negative and by 32767 otherwise, and truncated, two
    bytes each with the low byte first.  Every such sample lies in
    [-32768, 32767], so the sixteen-bit store changes none of them, and
    reading the bytes back as sixteen-bit integers gives the same values. *)
Theorem encode_clamps (data : Float32Array) (sampleRate : N) :
  let samples := List.map spec_encode_sample data in
  Forall (fun z => -32768 <= z <= 32767) samples /\
  List.map pcm_sample data = samples /\
  exists blob : Blob,
    createPcmBlob data sampleRate = Ok blob /\
    base64ToBytes (blob_data blob) = Ok (Uint8Array_of_Int16Array samples) /\
    Int16Array_of_buffer (Uint8Array_of_Int16Array samples) = Ok samples.
Proof.
  intros samples.
  destruct (encode_samples_ok data) as [Hr Hs]. fold samples in Hs.
  rewrite Hs in Hr.
  split; [done|]. split; [done|].
  destruct (createPcmBlob_spec data sampleRate) as (blob & Hb & Hbytes).
  exists blob. split; [done|]. rewrite <- Hs at 1. split; [done|].
  by apply Int16Array_of_Uint8Array.
Qed.

Example encode_out_of_range :
  List.map pcm_sample [Fin 2; Fin (-3); Inf false; Inf true; NaN; Fin 1]
  = [32767; -32768; 32767; -32768; 0; 32767].
Proof. reflexivity. Qed.

(** C5. For every input buffer [x], when the source rate equals the target
    rate, 16000, [resampleTo16k] returns its input unchanged. *)
Theorem resample_identity (x : Float32Array) (rate : Q) :
  (rate == 16000)%Q -> resampleTo16k x rate = Ok x.
Proof.
  apply resampleTo16k_same_rate.
Qed.

Lemma resample_identity_witness :
  (16000 == 16000)%Q /\
  resampleTo16k [Fin (1 # 2); NaN; Inf true] 16000
  = Ok [Fin (1 # 2); NaN; Inf true].
Proof.
  split; [reflexivity|].
  apply (resample_identity [Fin (1 # 2); NaN; Inf true] 16000). reflexivity.
Defined.





(** C8, as stated, fails: six bytes for two channels are not a multiple of
    [2 * channelCount] and are decoded without an error (one frame per
    channel, the third sample dropped); and no bytes at all, a multiple of
    anything, are refused. *)
Lemma decode_multiple_counterexample :
  let ctx := {| state := running |} in
  ~ (is_ok (decodeAudioData [x01; x00; x02; x00; x03; x00] ctx 24000 2)
     = false
     <-> (length [x01; x00; x02; x00; x03; x00] mod (2 * 2) <> 0)%nat) /\
  ~ (is_ok (decodeAudioData [] ctx 24000 1) = false
     <-> (length (@nil byte) mod (2 * 1) <> 0)%nat).
Proof.
  cbn zeta. split.
  - intros [_ H]. assert (true = false) as Hf; [|done].
    apply H. vm_compute. discriminate.
  - intros [H _]. apply H; reflexivity.
Qed.

(** C8, amended.  Within the ranges every implementation accepts (1 to 32
    channels, 8000 to 96000 Hz, fewer than 2^32 bytes) [decodeAudioData]
    throws if and only if the byte length is odd ([RangeError]) or the bytes
    hold less than one frame ([NotSupportedError]); in particular it
    succeeds on every non-empty input whose length is a multiple of
    [2 * channelCount].  When it succeeds the buffer has
    [floor(byteLength / 2 / channelCount)] frames in each of its channels,
    and sample [i] of channel [c] is the little-endian sixteen-bit value at
    position [i * channelCount + c], divided by 32768.  When it throws
    inside [handleMessage] the payload is dropped: no unit is scheduled and
    the output context and the output node stay in place. *)
Theorem decode_failure (data : Uint8Array) (ctx : AudioContext) (rate : Q)
    (numChannels : nat) :
  (1 <= numChannels <= 32)%nat -> (8000 <= rate <= 96000)%Q ->
  Z.of_nat (length data) < 2 ^ 32 ->
  (is_ok (decodeAudioData data ctx rate numChannels) = false
   <-> (length data mod 2 = 1 \/ length data / 2 < numChannels)%nat) /\
  (decodeAudioData data ctx rate numChannels = Throw RangeError
   <-> (length data mod 2 = 1)%nat) /\
  (decodeAudioData data ctx rate numChannels = Throw NotSupportedError
   <-> (length data mod 2 = 0 /\ length data / 2 < numChannels)%nat) /\
  ((length data mod (2 * numChannels) = 0)%nat -> data <> [] ->
   is_ok (decodeAudioData data ctx rate numChannels) = true) /\
  (forall buffer : AudioBuffer,
     decodeAudioData data ctx rate numChannels = Ok buffer ->
     ab_length buffer = (length data / 2 / numChannels)%nat /\
     length (ab_channels buffer) = numChannels /\
     forall channel i : nat,
       (channel < numChannels)%nat -> (i < ab_length buffer)%nat ->
       exists (lo hi : byte) (samples : Float32Array),
         data !! (2 * (i * numChannels + channel))%nat = Some lo /\
         data !! (2 * (i * numChannels + channel) + 1)%nat = Some hi /\
         ab_channels buffer !! channel = Some samples /\
         samples !! i = Some (spec_decode_sample (int16_of_bytes lo hi))) /\
  (forall (m : LiveManager) (message : LiveServerMessage) (base64 : JS.str)
          (node : nat) (t t' : Q),
     is_ok (decodeAudioData data ctx 24000 1) = false ->
     outputAudioContext m = Some ctx -> outputNode m = Some node ->
     inlineData message = Some base64 -> base64ToBytes base64 = Ok data ->
     let m' := handleMessage message t t' m in
     length (sources m') = length (sources m) /\
     gains m' = gains m /\
     outputNode m' = Some node /\
     outputAudioContext m' <> None /\
     (interrupted message = false ->
      sources m' = sources m /\ activeSources m' = activeSources m)).
Proof.
  intros Hch Hrate Hsz.
  pose proof (Int16Array_of_buffer_spec data) as Hview.
  assert (forall d16, Int16Array_of_buffer data = Ok d16 ->
          length data = (2 * length d16)%nat /\
          decodeAudioData data ctx rate numChannels
          = decoded d16 rate numChannels) as Hdec.
  { intros d16 Hd. rewrite Hd in Hview. split; [done|].
    apply decodeAudioData_decoded; try done.
    pose proof (Nat.Div0.div_le_upper_bound
                  (length d16) numChannels (length d16)) as Hle.
    assert (length d16 / numChannels <= length d16)%nat by (apply Hle; nia).
    lia. }
  assert (is_ok (decodeAudioData data ctx rate numChannels) = false
          <-> (length data mod 2 = 1 \/ length data / 2 < numChannels)%nat)
    as Hiff.
  { destruct (Int16Array_of_buffer data) as [d16|e] eqn:Ed.
    - destruct (Hdec d16 eq_refl) as [Hlen ->].
      rewrite decoded_is_ok.
      replace (length data / 2)%nat with (length d16) by dlia.
      split.
      + intros H0. right. apply Nat.div_small_iff in H0; lia.
      + intros [H1|H2]; [dlia|]. apply Nat.div_small_iff; lia.
    - destruct Hview as [_ Hodd].
      unfold decodeAudioData. rewrite Ed. cbn [rbind is_ok].
      split; [by left | done]. }
  split; [done|]. split; [|split; [|split; [|split]]].
  - destruct (Int16Array_of_buffer data) as [d16|e] eqn:Ed.
    + destruct (Hdec d16 eq_refl) as [Hlen ->]. unfold decoded.
      split; [by destruct (_ =? 0)%nat | intros; exfalso; dlia].
    + destruct Hview as [-> Hodd].
      unfold decodeAudioData. rewrite Ed. by cbn [rbind].
  - destruct (Int16Array_of_buffer data) as [d16|e] eqn:Ed.
    + destruct (Hdec d16 eq_refl) as [Hlen ->]. unfold decoded.
      replace (length data / 2)%nat with (length d16) by dlia.
      destruct (Nat.eqb_spec (length d16 / numChannels) 0) as [H0|H0].
      * split; [intros _ | done]. split; [dlia|].
        apply Nat.div_small_iff in H0; lia.
      * split; [done|]. intros [_ Hlt].
        destruct H0. apply Nat.div_small_iff; lia.
    + destruct Hview as [-> Hodd].
      unfold decodeAudioData. rewrite Ed. cbn [rbind].
      split; [done | intros [? _]; lia].
  - intros Hmult Hne.
    apply not_false_iff_true. intros E.
    apply Hiff in E. destruct data as [|b data']; [done|].
    cbn [length] in *. exfalso. clear - E Hmult Hch. destruct E as [E|E].
    + dlia.
    + assert (2 * numChannels <= S (length data'))%nat.
      { destruct (decide (S (length data') < 2 * numChannels)%nat) as [H|];
          [|lia].
        rewrite Nat.mod_small in Hmult by done. lia. }
      dlia.
  - intros buffer Hb.
    destruct (Int16Array_of_buffer data) as [d16|e] eqn:Ed.
    2: { unfold decodeAudioData in Hb. by rewrite Ed in Hb. }
    destruct (Hdec d16 eq_refl) as [Hlen Heq]. rewrite Heq in Hb.
    destruct (decoded_ok _ _ _ _ (proj1 Hch) Hb) as (_ & Hl & Hc & Hs).
    split; [rewrite Hl; f_equal; dlia|]. split; [done|].
    intros channel i Hci Hi.
    destruct (Hs channel i Hci Hi) as (z & samples & Hz & Hsm & _ & Hv).
    destruct (Int16Array_of_buffer_lookup data d16 _ z Ed Hz)
      as (lo & hi & Hlo & Hhi & ->).
    by exists lo, hi, samples.
  - intros m message base64 node t t' Hfail Hctx Hnode Hpay Hbytes m'.
    unfold m', handleMessage. rewrite Hctx, Hnode, Hpay.
    assert (forall n (m1 : LiveManager),
              length (sources (stopAllAudio n m1)) = length (sources m1) /\
              gains (stopAllAudio n m1) = gains m1 /\
              outputNode (stopAllAudio n m1) = outputNode m1 /\
              outputAudioContext (stopAllAudio n m1) = outputAudioContext m1)
      as Hstop.
    { intros n m1.
      destruct (stopAllAudio_frame n m1) as (H1 & H2 & H3 & H4 & _).
      done. }
    destruct base64 as [|c rest].
    + destruct (interrupted message).
      * destruct (Hstop t' m) as (-> & -> & -> & ->).
        rewrite Hctx. repeat split; done.
      * rewrite Hctx. repeat split; done.
    + assert (exists c',
                schedule (c :: rest) ctx node t m
                = set_nextStartTime (Qmax (nextStartTime m) t)
                    (set_outputAudioContext (Some c') m)) as [c' ->].
      { unfold schedule. rewrite Hbytes.
        destruct (decodeAudioData data _ 24000 1) as [buffer|e] eqn:E.
        - done.
        - by eexists. }
      destruct (interrupted message).
      * destruct (Hstop t' (set_nextStartTime (Qmax (nextStartTime m) t)
                              (set_outputAudioContext (Some c') m)))
          as (-> & -> & -> & ->).
        repeat split; done.
      * repeat split; done.
Qed.

Lemma decode_failure_witness :
  let ctx := {| state := running |} in
  (1 <= 1 <= 32)%nat /\ (8000 <= 24000 <= 96000)%Q /\
  Z.of_nat (length [x01; x02; x03]) < 2 ^ 32 /\
  (is_ok (decodeAudioData [x01; x02; x03] ctx 24000 1) = false
   <-> (length [x01; x02; x03] mod 2 = 1
        \/ length [x01; x02; x03] / 2 < 1)%nat).
Proof.
  cbn zeta. split; [lia|]. split; [split; discriminate|].
  split; [reflexivity|].
  apply (decode_failure [x01; x02; x03] {| state := running |} 24000 1);
    [lia | split; discriminate | reflexivity].
Defined.




(** C10. For every byte array [b], [base64ToBytes(bytesToBase64(b))] returns
    an array of the same length with the same byte at every index: neither
    helper throws and the second undoes the first. *)
Theorem base64_roundtrip (b : Uint8Array) :
  exists b' : Uint8Array,
    (let* s := bytesToBase64 b in base64ToBytes s) = Ok b' /\
    length b' = length b /\
    forall i : nat, b' !! i = b !! i.
Proof.
  destruct (base64_inverse b) as (s & Hs & Hb).
  exists b. rewrite Hs. cbn [rbind]. by rewrite Hb.
Qed.

(** * Scenarios of the specification *)

(** Two payloads of half a second each (12000 samples), the device's clock
    at 0 for the first and not yet at 1/2 for the second: the first unit
    starts at 0, the second at 1/2. *)
Example two_half_seconds (base64Audio : JS.str) (t : Q) :
  bytesToBase64 (replicate (Z.to_nat 24000) x00) = Ok base64Audio ->
  (0 <= t <= 1 # 2)%Q ->
  let message := {| inlineData := Some base64Audio; interrupted := false |} in
  exists start1 d1 start2 d2 : Q,
    units (run connected [Message message 0 0; Message message t t])
    = [(start1, d1); (start2, d2)] /\
    (start1 == 0)%Q /\ (d1 == 1 # 2)%Q /\
    (start2 == 1 # 2)%Q /\ (d2 == 1 # 2)%Q.
Proof.
  intros Hb64 Ht message.
  pose proof (Z2Nat.id 24000 ltac:(lia)) as Hk.
  pose proof (Z2Nat.id 12000 ltac:(lia)) as Hn.
  set (k := Z.to_nat 24000) in *. set (n := Z.to_nat 12000) in *.
  clearbody k n.
  destruct (base64_inverse (replicate k x00)) as (s & Hs & Hbytes).
  rewrite Hb64 in Hs. injection Hs as <-.
  assert (length (replicate k x00) = (2 * n)%nat) as Hlen
    by (rewrite length_replicate; lia).
  assert (1 <= n)%nat as Hn1 by lia.
  assert (Z.of_nat n < 2 ^ 32) as Hn2 by lia.
  assert (inject_Z (Z.of_nat n) / 24000 == 1 # 2)%Q as Hhalf
    by (rewrite Hn; reflexivity).
  assert (base64Audio <> []) as Hne.
  { intros ->. vm_compute in Hbytes. injection Hbytes as Hnil.
    apply (f_equal length) in Hnil. rewrite length_replicate in Hnil.
    cbn in Hnil. lia. }
  destruct (handleMessage_enqueues message 0 0 connected {| state := running |}
              0%nat base64Audio _ n eq_refl eq_refl eq_refl eq_refl
              Hbytes Hlen Hn1 Hn2 ltac:(discriminate))
    as (Hu1 & Hc1 & _ & s1 & Hs1 & Hd1 & _).
  set (m1 := handleMessage message 0 0 connected) in *.
  assert (outputAudioContext m1 = Some {| state := running |}
          /\ outputNode m1 = Some 0%nat) as [Hctx1 Hnode1].
  { destruct (handleMessage_routed message 0 0 connected) as (Hnd & _).
    fold m1 in Hnd. split; [|by rewrite Hnd].
    unfold m1, handleMessage, schedule. cbn -[base64ToBytes decodeAudioData].
    destruct base64Audio as [|c rest]; [done|].
    rewrite Hbytes.
    destruct (decodeAudioData _ _ _ _); [|done].
    unfold source_start. fields.
    by destruct (Num.Qltb _ 0). }
  assert (0 <= Qmax (nextStartTime m1) t)%Q as Hpos.
  { eapply Qle_trans; [|apply Q.le_max_r]. apply Ht. }
  destruct (handleMessage_enqueues message t t m1 {| state := running |}
              0%nat base64Audio _ n Hctx1 Hnode1 eq_refl eq_refl
              Hbytes Hlen Hn1 Hn2 Hpos)
    as (Hu2 & _).
  cbn [run foldl step]. fold m1. rewrite Hu2, Hu1.
  do 4 eexists. split; [reflexivity|].
  assert (nextStartTime m1 == 1 # 2)%Q as Hcursor.
  { rewrite Hc1, Hhalf. reflexivity. }
  split; [reflexivity|]. split; [exact Hhalf|]. split; [|exact Hhalf].
  rewrite Hcursor. apply Q.max_l. apply Ht.
Qed.

(** An interruption between two payloads: the second unit starts at the
    device's clock, not at the end of the first unit. *)
Example interrupted_between :
  let interruption := {| inlineData := None; interrupted := true |} in
  units (run connected
           [Message silence 0 0; Message interruption 0 0; Message silence 0 0])
  = [(Qmax 0 0, 2 / 24000); (Qmax 0 0, 2 / 24000)]%Q /\
  activeSources
    (run connected [Message silence 0 0; Message interruption 0 0])
  = ∅.
Proof. split; reflexivity. Qed.
(** * Further properties of the code *)

(** ** The codec, further *)

Section Requantisation.
Local Open Scope Q_scope.
Import Num.

Lemma Qfloor_unique (q : Q) (a : Z) :
  inject_Z a <= q -> q < inject_Z (a + 1) -> Qfloor q = a.
Proof.
  intros Hlo Hhi.
  pose proof (Qfloor_le q) as H1. pose proof (Qlt_floor q) as H2.
  assert (inject_Z (Qfloor q) < inject_Z (a + 1)) as H3 by lra.
  assert (inject_Z a < inject_Z (Qfloor q + 1)) as H4 by lra.
  rewrite <- Zlt_Qlt in H3, H4. lia.
Qed.

Lemma wrap16_range (z : Z) : (-32768 <= wrap16 z <= 32767)%Z.
Proof. unfold wrap16. dlia. Qed.

Lemma int16_of_bytes_range (lo hi : byte) :
  (-32768 <= int16_of_bytes lo hi <= 32767)%Z.
Proof. apply wrap16_range. Qed.

(** A decoded sample is a sixteen-bit value over 32768, so it lies in
    [-1, 1). *)
Lemma spec_decode_sample_range (z : Z) :
  (-32768 <= z <= 32767)%Z ->
  -1 <= inject_Z z / 32768 /\ inject_Z z / 32768 < 1.
Proof.
  intros [H1 H2].
  assert (inject_Z (-32768) <= inject_Z z) as H3 by by rewrite <- Zle_Qle.
  assert (inject_Z z <= inject_Z 32767) as H4 by by rewrite <- Zle_Qle.
  change (inject_Z (-32768)) with (-32768) in H3.
  change (inject_Z 32767) with 32767 in H4.
  assert (inject_Z z / 32768 == inject_Z z * (1 # 32768)) as ->
    by (field; lra).
  split; lra.
Qed.

(** Encoding what was decoded: a positive value comes back one lower, any
    other unchanged. *)
Lemma pcm_sample_decoded (z : Z) :
  (-32768 <= z <= 32767)%Z ->
  pcm_sample (spec_decode_sample z) = if (0 <? z)%Z then (z - 1)%Z else z.
Proof.
  intros Hz. destruct (pcm_sample_spec (spec_decode_sample z)) as [-> _].
  unfold spec_decode_sample, spec_encode_sample.
  destruct (spec_decode_sample_range z Hz) as [H1 H2].
  set (q := inject_Z z / 32768) in *.
  assert (q * 32768 == inject_Z z) as Hq by (unfold q; field).
  pose proof (clamp_in_range q ltac:(lra)) as Hc.
  set (c := clamp q) in *.
  destruct (Z.ltb_spec 0 z) as [Hpos|Hneg].
  - assert (inject_Z 0 < inject_Z z) as Hz' by (by rewrite <- Zlt_Qlt).
    change (inject_Z 0) with 0 in Hz'.
    rewrite (proj2 (Qltb_ge c 0)) by lra.
    rewrite Qtrunc_nonneg by lra.
    apply Qfloor_unique.
    + unfold Z.sub. rewrite inject_Z_plus.
      change (inject_Z (- (1))) with (-1). lra.
    + replace (z - 1 + 1)%Z with z by lia. lra.
  - assert (inject_Z z <= inject_Z 0) as Hz' by (by rewrite <- Zle_Qle).
    change (inject_Z 0) with 0 in Hz'.
    destruct (Qltb c 0) eqn:E.
    + apply Qltb_lt in E. rewrite Qtrunc_neg by lra.
      assert (c * 32768 == inject_Z z) as -> by lra.
      apply Qceiling_Z.
    + apply Qltb_ge in E. rewrite Qtrunc_nonneg by lra.
      assert (c * 32767 == inject_Z z) as -> by lra.
      apply Qfloor_Z.
Qed.

(** Encoding keeps the order of the samples. *)
Lemma spec_encode_sample_le (p q : Q) :
  p <= q -> (spec_encode_sample (Fin p) <= spec_encode_sample (Fin q))%Z.
Proof.
  intros Hpq. unfold spec_encode_sample.
  assert (clamp p <= clamp q) as Hc.
  { unfold clamp. apply Q.max_le_compat_l, Q.min_le_compat_l, Hpq. }
  pose proof (clamp_range p) as Hp. pose proof (clamp_range q) as Hq.
  set (c := clamp p) in *. set (d := clamp q) in *.
  destruct (Qltb c 0) eqn:Ec, (Qltb d 0) eqn:Ed.
  - apply Qltb_lt in Ec, Ed. rewrite !Qtrunc_neg by lra.
    apply Qceiling_resp_le. lra.
  - apply Qltb_lt in Ec. apply Qltb_ge in Ed.
    rewrite Qtrunc_neg, Qtrunc_nonneg by lra.
    transitivity 0%Z.
    + apply (Qceiling_bounds _ (-32768) 0).
      * change (inject_Z (-32768)) with (-32768). lra.
      * change (inject_Z 0) with 0. lra.
    + apply (Qfloor_bounds _ 0 32767).
      * change (inject_Z 0) with 0. lra.
      * change (inject_Z 32767) with 32767. lra.
  - apply Qltb_ge in Ec. apply Qltb_lt in Ed. lra.
  - apply Qltb_ge in Ec, Ed. rewrite !Qtrunc_nonneg by lra.
    apply Qfloor_resp_le. lra.
Qed.

End Requantisation.

(** [decodeAudioData] returns a buffer only for arguments [createBuffer]
    accepts. *)
Lemma decodeAudioData_accepted (data : Uint8Array) (ctx : AudioContext)
    (rate : Q) (numChannels : nat) (buffer : AudioBuffer) :
  decodeAudioData data ctx rate numChannels = Ok buffer ->
  (1 <= numChannels <= 32)%nat /\ (8000 <= rate <= 96000)%Q.
Proof.
  unfold decodeAudioData.
  destruct (Int16Array_of_buffer data) as [d16|]; [|done]. cbn [rbind].
  unfold createBuffer.
  match goal with |- context [if ?c then _ else _] => destruct c eqn:E end;
    [|done].
  intros _.
  repeat (apply andb_true_iff in E as [E ?]).
  repeat match goal with
         | H : (_ <=? _)%nat = true |- _ => apply Nat.leb_le in H
         | H : Qle_bool _ _ = true |- _ => apply Qle_bool_iff in H
         end.
  repeat split; assumption.
Qed.

(** X1.  Whatever bytes it is given, a buffer that [decodeAudioData] returns
    holds only finite samples, each a sixteen-bit integer divided by 32768
    and so within [-1, 1): every channel has the length of the buffer, and
    no sample is [NaN], an infinity, or out of the range a sound device
    plays without clipping. *)
Theorem decoded_samples_in_range (data : Uint8Array) (ctx : AudioContext)
    (rate : Q) (numChannels : nat) (buffer : AudioBuffer) :
  Z.of_nat (length data) < 2 ^ 32 ->
  decodeAudioData data ctx rate numChannels = Ok buffer ->
  length (ab_channels buffer) = numChannels /\
  Forall
    (fun samples : Float32Array =>
       length samples = ab_length buffer /\
       Forall
         (fun x =>
            exists k : Z,
              -32768 <= k <= 32767 /\
              x = Fin (inject_Z k / 32768) /\
              (-1 <= inject_Z k / 32768)%Q /\ (inject_Z k / 32768 < 1)%Q)
         samples)
    (ab_channels buffer).
Proof.
  intros Hsz Hok.
  destruct (decodeAudioData_accepted _ _ _ _ _ Hok) as [Hc Hr].
  destruct (Int16Array_of_buffer data) as [d16|e] eqn:Hd.
  2: { unfold decodeAudioData in Hok. by rewrite Hd in Hok. }
  pose proof (Int16Array_of_buffer_spec data) as Hlen. rewrite Hd in Hlen.
  rewrite (decodeAudioData_decoded data ctx rate numChannels d16) in Hok;
    [|done..|dlia].
  destruct (decoded_ok d16 rate numChannels buffer ltac:(lia) Hok)
    as (_ & Hl & Hn & Hs).
  split; [done|].
  apply Forall_lookup. intros channel samples Hch.
  assert (channel < numChannels)%nat as Hlt.
  { rewrite <- Hn. by eapply lookup_lt_Some. }
  assert (length samples = ab_length buffer) as Hls.
  { destruct (ab_length buffer) as [|f] eqn:Ef.
    - unfold decoded in Hok. by rewrite <- Hl in Hok.
    - destruct (Hs channel 0%nat Hlt ltac:(lia))
        as (z & samples' & _ & Hch' & Hls & _).
      congruence. }
  split; [done|].
  apply Forall_lookup. intros i x Hx.
  assert (i < ab_length buffer)%nat as Hi.
  { rewrite <- Hls. by eapply lookup_lt_Some. }
  destruct (Hs channel i Hlt Hi) as (z & samples' & Hz & Hch' & _ & Hx').
  assert (samples' = samples) as -> by congruence.
  rewrite Hx in Hx'. injection Hx' as ->.
  destruct (Int16Array_of_buffer_lookup _ _ _ _ Hd Hz) as (lo & hi & _ & _ & ->).
  pose proof (int16_of_bytes_range lo hi) as Hrange.
  exists (int16_of_bytes lo hi). split; [done|]. split; [done|].
  by apply spec_decode_sample_range.
Qed.

(** Two samples, the lowest and the highest: -1 and 32767/32768. *)
Lemma decoded_samples_in_range_witness :
  let ctx := {| state := running |} in
  let data := [x00; x80; xff; x7f] in
  let buffer := {| ab_sampleRate := 24000; ab_length := 2;
                   ab_channels := [[Fin (inject_Z (-32768) / 32768);
                                    Fin (inject_Z 32767 / 32768)]] |} in
  Z.of_nat (length data) < 2 ^ 32 /\
  decodeAudioData data ctx 24000 1 = Ok buffer /\
  Forall
    (fun samples : Float32Array =>
       length samples = ab_length buffer /\
       Forall
         (fun x =>
            exists k : Z,
              -32768 <= k <= 32767 /\
              x = Fin (inject_Z k / 32768) /\
              (-1 <= inject_Z k / 32768)%Q /\ (inject_Z k / 32768 < 1)%Q)
         samples)
    (ab_channels buffer).
Proof.
  cbv zeta.
  assert (Z.of_nat (length [x00; x80; xff; x7f]) < 2 ^ 32) as Hsz by done.
  assert (decodeAudioData [x00; x80; xff; x7f] {| state := running |} 24000 1
          = Ok {| ab_sampleRate := 24000; ab_length := 2;
                  ab_channels := [[Fin (inject_Z (-32768) / 32768);
                                   Fin (inject_Z 32767 / 32768)]] |}) as E
    by (vm_compute; reflexivity).
  split; [exact Hsz|]. split; [exact E|].
  exact (proj2 (decoded_samples_in_range
                  [x00; x80; xff; x7f] {| state := running |} 24000 1
                  _ Hsz E)).
Defined.

Lemma Int16Array_of_buffer_range (data : Uint8Array) (d16 : Int16Array) :
  Int16Array_of_buffer data = Ok d16 ->
  Forall (fun z => -32768 <= z <= 32767) d16.
Proof.
  intros Hd. apply Forall_lookup. intros k z Hz.
  destruct (Int16Array_of_buffer_lookup _ _ _ _ Hd Hz) as (lo & hi & _ & _ & ->).
  apply int16_of_bytes_range.
Qed.

(** One channel: the samples of the buffer are the sixteen-bit values, each
    divided by 32768. *)
Lemma decodeAudioData_mono (data : Uint8Array) (ctx : AudioContext)
    (rate : Q) (buffer : AudioBuffer) :
  Z.of_nat (length data) < 2 ^ 32 ->
  decodeAudioData data ctx rate 1 = Ok buffer ->
  exists d16 : Int16Array,
    Int16Array_of_buffer data = Ok d16 /\
    d16 <> [] /\
    ab_length buffer = length d16 /\
    ab_channels buffer = [List.map spec_decode_sample d16].
Proof.
  intros Hsz Hok.
  destruct (decodeAudioData_accepted _ _ _ _ _ Hok) as [Hc Hr].
  destruct (Int16Array_of_buffer data) as [d16|e] eqn:Hd.
  2: { unfold decodeAudioData in Hok. by rewrite Hd in Hok. }
  pose proof (Int16Array_of_buffer_spec data) as Hlen. rewrite Hd in Hlen.
  rewrite (decodeAudioData_decoded data ctx rate 1 d16) in Hok;
    [|done..|dlia].
  destruct (decoded_ok d16 rate 1 buffer ltac:(lia) Hok)
    as (_ & Hl & Hn & Hs).
  rewrite Nat.div_1_r in Hl.
  exists d16. split; [done|].
  assert (d16 <> []) as Hne.
  { intros ->. by vm_compute in Hok. }
  split; [done|]. split; [done|].
  destruct (ab_channels buffer) as [|samples [|]] eqn:Ech; try done.
  f_equal. apply list_eq. intros i.
  rewrite list_lookup_fmap.
  destruct (decide (i < length d16)%nat) as [Hi|Hi].
  - destruct (Hs 0%nat i ltac:(lia) ltac:(lia))
      as (z & samples' & Hz & Hch & _ & Hx).
    injection Hch as <-.
    rewrite Nat.mul_1_r, Nat.add_0_r in Hz. by rewrite Hz, Hx.
  - destruct d16 as [|z0 d16']; [done|].
    destruct (Hs 0%nat 0%nat ltac:(lia) ltac:(rewrite Hl; simpl; lia))
      as (z & samples' & _ & Hch & Hls & _).
    injection Hch as <-.
    rewrite !lookup_ge_None_2; [done| |]; lia.
Qed.

(** X2.  Decoding and then encoding again does not give the bytes back: for
    every one-channel payload that [decodeAudioData] accepts, the text that
    [createPcmBlob] makes of the decoded samples holds every sixteen-bit
    value that is zero or negative unchanged and every positive value
    lowered by one (a sample is divided by 32768 on the way in and
    multiplied by 32767 on the way out, and then truncated). *)
Theorem reencoding_lowers_positive (data : Uint8Array) (ctx : AudioContext)
    (rate : Q) (sampleRate : N) (buffer : AudioBuffer) :
  Z.of_nat (length data) < 2 ^ 32 ->
  decodeAudioData data ctx rate 1 = Ok buffer ->
  exists (d16 : Int16Array) (samples : Float32Array) (blob : Blob),
    Int16Array_of_buffer data = Ok d16 /\
    ab_channels buffer = [samples] /\
    createPcmBlob samples sampleRate = Ok blob /\
    let again := List.map (fun z => if 0 <? z then z - 1 else z) d16 in
    base64ToBytes (blob_data blob) = Ok (Uint8Array_of_Int16Array again) /\
    Int16Array_of_buffer (Uint8Array_of_Int16Array again) = Ok again.
Proof.
  intros Hsz Hok.
  destruct (decodeAudioData_mono _ _ _ _ Hsz Hok) as (d16 & Hd & _ & _ & Hch).
  destruct (createPcmBlob_spec (List.map spec_decode_sample d16) sampleRate)
    as (blob & Hblob & Hbytes).
  exists d16, (List.map spec_decode_sample d16), blob.
  do 3 (split; [done|]). cbn zeta.
  pose proof (Int16Array_of_buffer_range _ _ Hd) as Hrange.
  assert (List.map pcm_sample (List.map spec_decode_sample d16)
          = List.map (fun z => if 0 <? z then z - 1 else z) d16) as E.
  { rewrite List.map_map. apply Forall_fmap_ext_1.
    eapply Forall_impl; [exact Hrange|]. intros z Hz.
    by apply pcm_sample_decoded. }
  rewrite E in Hbytes. split; [done|].
  apply Int16Array_of_Uint8Array.
  apply Forall_fmap. eapply Forall_impl; [exact Hrange|].
  intros z Hz. unfold compose. cbv beta in Hz.
  destruct (Z.ltb_spec 0 z); lia.
Qed.

(** The values 1, -1, 0, 32767 and -32768 come back as 0, -1, 0, 32766 and
    -32768. *)
Lemma reencoding_lowers_positive_witness :
  let ctx := {| state := running |} in
  let data := [x01; x00; xff; xff; x00; x00; xff; x7f; x00; x80] in
  Z.of_nat (length data) < 2 ^ 32 /\
  is_ok (decodeAudioData data ctx 24000 1) = true /\
  exists (samples : Float32Array) (blob : Blob),
    createPcmBlob samples 16000 = Ok blob /\
    base64ToBytes (blob_data blob)
    = Ok [x00; x00; xff; xff; x00; x00; xfe; x7f; x00; x80].
Proof.
  cbv zeta.
  split; [vm_compute; reflexivity|]. split; [vm_compute; reflexivity|].
  destruct (decodeAudioData [x01; x00; xff; xff; x00; x00; xff; x7f; x00; x80]
              {| state := running |} 24000 1) as [buffer|e] eqn:E;
    [|vm_compute in E; discriminate E].
  assert (Z.of_nat
            (length [x01; x00; xff; xff; x00; x00; xff; x7f; x00; x80])
          < 2 ^ 32) as Hsz by done.
  destruct (reencoding_lowers_positive _ _ _ 16000%N _ Hsz E)
    as (d16 & samples & blob & Hd & _ & Hblob & Hbytes & _).
  exists samples, blob. split; [exact Hblob|].
  vm_compute in Hd. injection Hd as <-. exact Hbytes.
Defined.

Section Order.
Import Num.

(** X3.  Encoding keeps the order of the samples: when [x] is not above [y]
    (neither being [NaN]), the sixteen-bit value stored for [x] is not above
    the one stored for [y], the infinities included; and 0 is stored as 0,
    so no sample changes its sign. *)
Theorem encode_monotone (x y : num) :
  x <> NaN -> y <> NaN -> Num.lt y x = false ->
  pcm_sample x <= pcm_sample y /\
  pcm_sample (Fin 0) = 0 /\
  (Num.lt x (Fin 0) = true -> pcm_sample x <= 0) /\
  (Num.lt (Fin 0) y = true -> 0 <= pcm_sample y).
Proof.
  intros Hx Hy Hle.
  assert (forall a b : num, a <> NaN -> b <> NaN -> Num.lt b a = false ->
            pcm_sample a <= pcm_sample b) as Hmono.
  { clear. intros a b Ha Hb Hle.
    destruct (pcm_sample_spec a) as [Ea Ra], (pcm_sample_spec b) as [Eb Rb].
    destruct a as [|[|]|p], b as [|[|]|q]; try done;
      try (change (pcm_sample (Inf true)) with (-32768) in *; lia);
      try (change (pcm_sample (Inf false)) with 32767 in *; lia).
    rewrite Ea, Eb. apply spec_encode_sample_le.
    cbn [Num.lt] in Hle. by apply Qltb_ge in Hle. }
  assert (pcm_sample (Fin 0) = 0) as H0 by (by vm_compute).
  split; [by apply Hmono|]. split; [done|]. split.
  - intros Hneg. rewrite <- H0. apply Hmono; [done..|].
    destruct x as [|[|]|p]; try done.
    cbn [Num.lt] in *. apply Qltb_lt in Hneg. apply Qltb_ge. lra.
  - intros Hpos. rewrite <- H0. apply Hmono; [done..|].
    destruct y as [|[|]|q]; try done.
    cbn [Num.lt] in *. apply Qltb_lt in Hpos. apply Qltb_ge. lra.
Qed.

Lemma encode_monotone_witness :
  Fin (-1 # 2) <> NaN /\ Inf false <> NaN /\
  Num.lt (Inf false) (Fin (-1 # 2)) = false /\
  pcm_sample (Fin (-1 # 2)) = -16384 /\ pcm_sample (Inf false) = 32767 /\
  pcm_sample (Fin (-1 # 2)) <= pcm_sample (Inf false).
Proof.
  split; [discriminate|]. split; [discriminate|].
  split; [reflexivity|]. split; [vm_compute; reflexivity|].
  split; [vm_compute; reflexivity|].
  exact (proj1 (encode_monotone (Fin (-1 # 2)) (Inf false)
                  ltac:(discriminate) ltac:(discriminate) eq_refl)).
Defined.

End Order.

Section Base64Text.
Import Base64.

(** The text of [bytesToBase64]: characters of the alphabet, then the
    padding. *)
Lemma bytesToBase64_shape (bytes : Uint8Array) :
  exists body : JS.str,
    let pads := ((3 - length bytes mod 3) mod 3)%nat in
    bytesToBase64 bytes = Ok (body ++ replicate pads pad) /\
    Forall (fun c => is_Some (index_of c)) body /\
    length body = (4 * ((length bytes + 2) / 3) - pads)%nat /\
    length (body ++ replicate pads pad) = (4 * ((length bytes + 2) / 3))%nat.
Proof.
  exists (List.map char_of (sextets (List.map JS.fromCharCode bytes))).
  cbn zeta.
  assert (Forall (fun a => (a < 256)%N) (List.map JS.fromCharCode bytes))
    as Hb.
  { apply Forall_forall. intros a Ha.
    apply list_elem_of_fmap in Ha as (b & -> & _).
    pose proof (Byte.to_N_bounded b). unfold JS.fromCharCode. lia. }
  assert (padding (length bytes)
          = replicate ((3 - length bytes mod 3) mod 3) pad) as Hpad.
  { unfold padding.
    pose proof (Nat.mod_upper_bound (length bytes) 3 ltac:(lia)) as Hm.
    by destruct (length bytes mod 3)%nat as [|[|[|?]]]. }
  assert (length (List.map char_of (sextets (List.map JS.fromCharCode bytes)))
          = (4 * ((length bytes + 2) / 3)
             - (3 - length bytes mod 3) mod 3)%nat) as Hlen.
  { rewrite length_map, length_sextets, length_map.
    pose proof (Nat.mod_upper_bound (length bytes) 3 ltac:(lia)) as Hm.
    pose proof (Nat.div_mod_eq (length bytes) 3) as Hdm.
    destruct (length bytes mod 3)%nat as [|[|[|?]]] eqn:E3; [| | |lia].
    - replace ((length bytes + 2) / 3)%nat with (length bytes / 3)%nat
        by dlia.
      cbn. lia.
    - replace ((length bytes + 2) / 3)%nat with (length bytes / 3 + 1)%nat
        by dlia.
      cbn. lia.
    - replace ((length bytes + 2) / 3)%nat with (length bytes / 3 + 1)%nat
        by dlia.
      cbn. lia. }
  split; [|split; [|split]].
  - unfold bytesToBase64. rewrite foldl_snoc_map. cbn [app]. unfold btoa.
    replace (forallb (fun c => (c <=? 255)%N) (List.map JS.fromCharCode bytes))
      with true.
    + by rewrite length_map, Hpad.
    + symmetry. apply forallb_forall. intros c Hc.
      rewrite Forall_forall in Hb. apply N.leb_le.
      rewrite <- list_elem_of_In in Hc. specialize (Hb c Hc). lia.
  - apply Forall_fmap. eapply Forall_impl; [apply sextets_bound, Hb|].
    intros n Hn. cbn. rewrite index_of_char_of by done. by eexists.
  - exact Hlen.
  - rewrite length_app, Hlen, length_replicate. clear. dlia.
Qed.

(** X4.  [bytesToBase64] never throws, and the text it returns for [n] bytes
    has [4 * ceil(n / 3)] characters: first characters of the base64
    alphabet only, then as many ['='] as bytes are missing from the last
    group of three (none, one or two), and nothing else: no white space and
    no line break. *)
Theorem bytesToBase64_text (bytes : Uint8Array) :
  exists body : JS.str,
    let pads := ((3 - length bytes mod 3) mod 3)%nat in
    bytesToBase64 bytes = Ok (body ++ replicate pads pad) /\
    Forall (fun c => is_Some (index_of c)) body /\
    length body = (4 * ((length bytes + 2) / 3) - pads)%nat /\
    length (body ++ replicate pads pad) = (4 * ((length bytes + 2) / 3))%nat.
Proof. apply bytesToBase64_shape. Qed.

End Base64Text.

(** ** The resampler, further *)

Section Interpolation.
Local Open Scope Q_scope.
Import Num.

(** The floor of a quotient of integers is their integer quotient. *)
Lemma Qfloor_div_Z (a b : Z) :
  (0 < b)%Z -> Qfloor (inject_Z a / inject_Z b) = (a / b)%Z.
Proof.
  intros Hb.
  assert (0 < inject_Z b) as Hb'.
  { change 0 with (inject_Z 0). by rewrite <- Zlt_Qlt. }
  pose proof (Z.mul_div_le a b Hb) as H1.
  pose proof (Z.mul_succ_div_gt a b Hb) as H2.
  apply Qfloor_unique.
  - apply Qle_shift_div_l; [done|].
    rewrite <- inject_Z_mult, <- Zle_Qle. lia.
  - apply Qlt_shift_div_r; [done|].
    rewrite <- inject_Z_mult, <- Zlt_Qlt. lia.
Qed.

(** A point between two values of an interval lies in the interval. *)
Lemma interpolation_between (p q f lo hi : Q) :
  lo <= p <= hi -> lo <= q <= hi -> 0 <= f <= 1 ->
  lo <= p * (1 - f) + q * f <= hi.
Proof.
  intros [Hp1 Hp2] [Hq1 Hq2] [Hf1 Hf2].
  pose proof (Qmult_le_0_compat (p - lo) (1 - f) ltac:(lra) ltac:(lra)).
  pose proof (Qmult_le_0_compat (q - lo) f ltac:(lra) ltac:(lra)).
  pose proof (Qmult_le_0_compat (hi - p) (1 - f) ltac:(lra) ltac:(lra)).
  pose proof (Qmult_le_0_compat (hi - q) f ltac:(lra) ltac:(lra)).
  split; lra.
Qed.

(** Off the early return, the sample at a position the loop visits. *)
Lemma resampled_sample_valid (x : Float32Array) (ratio : Q) (i : nat) :
  0 < ratio ->
  (Z.of_nat i < Math_round (inject_Z (Z.of_nat (length x)) / ratio))%Z ->
  exists a b : num,
    x !! Z.to_nat (index1_of ratio i) = Some a /\
    x !! Z.to_nat (index2_of x ratio i) = Some b /\
    resampled_sample x ratio i
    = Num.add (Num.mul a (Fin (1 - fraction_of ratio i)))
        (Num.mul b (Fin (fraction_of ratio i))).
Proof.
  intros Hr Hlt.
  pose proof (index1_valid (length x) ratio i Hr Hlt) as Hv1.
  pose proof (index2_valid x ratio i Hv1) as Hv2.
  destruct (read_at_valid x _ Hv1) as (a & Ha & Hra).
  destruct (read_at_valid x _ Hv2) as (b & Hb & Hrb).
  exists a, b. split; [done|]. split; [done|].
  unfold resampled_sample. by rewrite Hra, Hrb.
Qed.

End Interpolation.

(** X5.  Resampling never leaves the range of its input: when every input
    sample is finite and lies between [lo] and [hi], [resampleTo16k]
    returns, at any positive rate, a block whose samples are all finite and
    between [lo] and [hi] (each is a point between two input samples).  So
    a block within [-1, 1] stays within [-1, 1], and a constant block stays
    constant.  The arithmetic is exact. *)
Theorem resample_keeps_range (x : Float32Array) (rate lo hi : Q) :
  (0 < rate)%Q ->
  Forall (fun s => exists q : Q, s = Fin q /\ (lo <= q <= hi)%Q) x ->
  exists y : Float32Array,
    resampleTo16k x rate = Ok y /\
    Forall (fun s => exists q : Q, s = Fin q /\ (lo <= q <= hi)%Q) y.
Proof.
  intros Hpos Hx.
  destruct (Qeq_dec rate 16000) as [Heq|Hne].
  { exists x. split; [by apply resampleTo16k_same_rate | done]. }
  rewrite (resampleTo16k_unfold x rate Hpos Hne).
  eexists. split; [reflexivity|].
  pose proof (ratio_pos rate Hpos) as Hr.
  set (ratio := (rate / 16000)%Q) in *.
  apply Forall_fmap, Forall_seq. intros i Hi. unfold compose.
  destruct (resampled_sample_valid x ratio i Hr ltac:(lia))
    as (a & b & Ha & Hb & ->).
  rewrite Forall_lookup in Hx.
  destruct (Hx _ _ Ha) as (p & -> & Hp).
  destruct (Hx _ _ Hb) as (q & -> & Hq).
  cbn [Num.mul Num.add]. eexists. split; [reflexivity|].
  pose proof (fraction_range ratio i) as Hf.
  apply interpolation_between; [done..|lra].
Qed.

(** Four samples within [-1, 1] at 48000 Hz. *)
Lemma resample_keeps_range_witness :
  (0 < 48000)%Q /\
  Forall (fun s => exists q : Q, s = Fin q /\ (-1 <= q <= 1)%Q)
    [Fin 1; Fin (-1 # 2); Fin 0; Fin (-1)] /\
  exists y : Float32Array,
    resampleTo16k [Fin 1; Fin (-1 # 2); Fin 0; Fin (-1)] 48000 = Ok y /\
    Forall (fun s => exists q : Q, s = Fin q /\ (-1 <= q <= 1)%Q) y.
Proof.
  assert (Forall (fun s => exists q : Q, s = Fin q /\ (-1 <= q <= 1)%Q)
            [Fin 1; Fin (-1 # 2); Fin 0; Fin (-1)]) as Hx.
  { repeat constructor; eexists; (split; [reflexivity|]); split; discriminate. }
  split; [reflexivity|]. split; [exact Hx|].
  exact (resample_keeps_range [Fin 1; Fin (-1 # 2); Fin 0; Fin (-1)]
           48000 (-1) 1 eq_refl Hx).
Defined.

(** X6.  At a rate that is a whole multiple [k >= 2] of 16000 (32000, 48000,
    96000), [resampleTo16k] keeps every [k]-th sample and drops the others:
    for an input of finite samples the output has
    [floor((2 * length + k) / (2 * k))] samples, that is [length / k]
    rounded to the nearest integer, and output sample [i] is input sample
    [i * k], with no averaging of the samples in between. *)
Theorem resample_decimates (x : Float32Array) (rate : Q) (k : Z) :
  2 <= k -> (rate == 16000 * inject_Z k)%Q -> Forall finite x ->
  exists y : Float32Array,
    resampleTo16k x rate = Ok y /\
    Z.of_nat (length y) = (2 * Z.of_nat (length x) + k) / (2 * k) /\
    forall i : nat, (i < length y)%nat ->
      exists p r : Q,
        x !! (i * Z.to_nat k)%nat = Some (Fin p) /\
        y !! i = Some (Fin r) /\
        (r == p)%Q.
Proof.
  intros Hk Hrate Hx.
  assert (0 < inject_Z k)%Q as Hk'.
  { change 0%Q with (inject_Z 0). rewrite <- Zlt_Qlt. lia. }
  assert (1 < inject_Z k)%Q as Hk1.
  { change 1%Q with (inject_Z 1). rewrite <- Zlt_Qlt. lia. }
  assert (0 < rate)%Q as Hpos by lra.
  assert (~ (rate == 16000)%Q) as Hne by lra.
  rewrite (resampleTo16k_unfold x rate Hpos Hne).
  pose proof (ratio_pos rate Hpos) as Hr.
  assert (rate / 16000 == inject_Z k)%Q as Hratio by (rewrite Hrate; field).
  set (ratio := (rate / 16000)%Q) in *.
  assert (Num.Math_round (inject_Z (Z.of_nat (length x)) / ratio)
          = (2 * Z.of_nat (length x) + k) / (2 * k)) as Hlen.
  { unfold Num.Math_round.
    rewrite <- (Qfloor_div_Z _ (2 * k)) by lia.
    apply Qfloor_comp. rewrite Hratio.
    rewrite inject_Z_plus, !inject_Z_mult. change (inject_Z 2) with 2%Q.
    field. lra. }
  eexists. split; [reflexivity|].
  rewrite length_map, length_seq.
  assert (0 <= (2 * Z.of_nat (length x) + k) / (2 * k)) as Hnn.
  { apply Z.div_pos; lia. }
  split; [lia|]. intros i Hi.
  destruct (resampled_sample_valid x ratio i Hr ltac:(lia))
    as (a & b & Ha & Hb & Hs).
  rewrite Forall_lookup in Hx.
  pose proof (Hx _ _ Ha) as Hfa. pose proof (Hx _ _ Hb) as Hfb.
  destruct a as [| |p]; try done. destruct b as [| |q]; try done.
  assert (inject_Z (Z.of_nat i) * ratio == inject_Z (Z.of_nat i * k))%Q
    as Hpos1.
  { rewrite Hratio, inject_Z_mult. reflexivity. }
  assert (index1_of ratio i = Z.of_nat i * k) as H1.
  { unfold index1_of, Num.Math_floor.
    by rewrite (Qfloor_comp _ _ Hpos1), Qfloor_Z. }
  assert (fraction_of ratio i == 0)%Q as Hf.
  { unfold fraction_of. rewrite H1, Hpos1. ring. }
  exists p, (p * (1 - fraction_of ratio i) + q * fraction_of ratio i)%Q.
  split; [|split].
  - rewrite <- Ha. f_equal. rewrite H1. lia.
  - rewrite list_lookup_fmap, lookup_seq_lt by lia. simpl.
    by rewrite Hs.
  - rewrite Hf. ring.
Qed.

(** Seven samples at 48000 Hz give two: the first and the fourth. *)
Lemma resample_decimates_witness :
  let x := [Fin 0; Fin 1; Fin 2; Fin 3; Fin 4; Fin 5; Fin 6] in
  2 <= 3 /\ (48000 == 16000 * inject_Z 3)%Q /\ Forall finite x /\
  exists y : Float32Array,
    resampleTo16k x 48000 = Ok y /\
    Z.of_nat (length y) = 2 /\
    forall i : nat, (i < length y)%nat ->
      exists p r : Q,
        x !! (i * 3)%nat = Some (Fin p) /\
        y !! i = Some (Fin r) /\
        (r == p)%Q.
Proof.
  cbv zeta.
  assert (Forall finite [Fin 0; Fin 1; Fin 2; Fin 3; Fin 4; Fin 5; Fin 6])
    as Hx by (repeat constructor).
  split; [lia|]. split; [reflexivity|]. split; [exact Hx|].
  exact (resample_decimates [Fin 0; Fin 1; Fin 2; Fin 3; Fin 4; Fin 5; Fin 6]
           48000 3 ltac:(lia) eq_refl Hx).
Defined.

(** ** The effect helpers *)

Section DistortionCurve.
Local Open Scope Q_scope.

Lemma PI_bounds : 3 < Math.PI /\ Math.PI < 22 # 7.
Proof. split; reflexivity. Qed.

Lemma makeDistortionCurve_unfold (amount : option num) :
  makeDistortionCurve amount
  = List.map
      (fun i =>
         let k :=
           match amount with Some amount => amount | None => Fin 50 end in
         let x :=
           subtract
             (Num.div (Num.mul (Num.of_nat i) (Fin 2)) (Num.of_Z 44100))
             (Fin 1) in
         Num.div
           (Num.mul (Num.mul (Num.mul (Num.add (Fin 3) k) x) (Fin 20))
              (Num.div (Fin Math.PI) (Fin 180)))
           (Num.add (Fin Math.PI) (Num.mul k (Math.abs x))))
      (seq 0 (Z.to_nat 44100)).
Proof. unfold makeDistortionCurve. by rewrite fill_replicate. Qed.

Lemma curve_x_range (i : nat) :
  (Z.of_nat i < 44100)%Z -> -1 <= curve_x i /\ curve_x i < 1.
Proof.
  intros Hi. unfold curve_x.
  assert (0 <= inject_Z (Z.of_nat i)) as H0.
  { change 0 with (inject_Z 0). rewrite <- Zle_Qle. lia. }
  assert (inject_Z (Z.of_nat i) < inject_Z 44100) as H1
    by (by rewrite <- Zlt_Qlt).
  change (inject_Z 44100) with 44100 in *.
  assert (inject_Z (Z.of_nat i) * 2 / 44100
          == inject_Z (Z.of_nat i) * (2 # 44100)) as -> by (field; lra).
  split; lra.
Qed.

Lemma curve_x_lt (i j : nat) : (i < j)%nat -> curve_x i < curve_x j.
Proof.
  intros Hij. unfold curve_x.
  assert (inject_Z (Z.of_nat i) < inject_Z (Z.of_nat j)) as H1.
  { rewrite <- Zlt_Qlt. lia. }
  change (inject_Z 44100) with 44100.
  assert (forall a, a * 2 / 44100 == a * (2 # 44100)) as E
    by (intros; field; lra).
  rewrite !E. lra.
Qed.

Lemma curve_x_opp (i : nat) :
  (Z.of_nat i <= 44100)%Z ->
  curve_x (Z.to_nat 44100 - i) == - curve_x i.
Proof.
  intros Hi. unfold curve_x.
  replace (Z.of_nat (Z.to_nat 44100 - i)) with (44100 - Z.of_nat i)%Z by lia.
  unfold Z.sub. rewrite inject_Z_plus, inject_Z_opp.
  change (inject_Z 44100) with 44100. field.
Qed.

Lemma curve_denominator_pos (k x : Q) :
  0 <= k -> 0 < Math.PI + k * Qabs x.
Proof.
  intros Hk. pose proof PI_bounds as [HP _].
  pose proof (Qmult_le_0_compat k (Qabs x) Hk (Qabs_nonneg x)). lra.
Qed.

(** The point [i] of the curve, for a finite amount that is not negative. *)
Lemma makeDistortionCurve_lookup (k : Q) (i : nat) :
  0 <= k -> (Z.of_nat i < 44100)%Z ->
  makeDistortionCurve (Some (Fin k)) !! i
  = Some (Fin (curve_y k (curve_x i))).
Proof.
  intros Hk Hi. rewrite makeDistortionCurve_unfold.
  rewrite list_lookup_fmap, lookup_seq_lt by lia.
  cbn [fmap option_fmap option_map Nat.add]. f_equal.
  pose proof (curve_denominator_pos k (curve_x i) Hk) as Hd.
  unfold Num.of_nat, Num.of_Z.
  cbn [Num.mul Num.add subtract Math.abs].
  assert (forall p q : Q, ~ q == 0 -> Num.div (Fin p) (Fin q) = Fin (p / q))
    as Hdiv.
  { intros p q Hq. cbn [Num.div]. by rewrite Qeq_bool_false. }
  rewrite (Hdiv _ (inject_Z 44100)) by discriminate.
  rewrite (Hdiv _ 180) by discriminate.
  cbn [Num.mul Num.add subtract Math.abs].
  fold (curve_x i). rewrite Hdiv by lra. reflexivity.
Qed.

(** The curve as a function of the input value: odd, below pi / 9 in
    magnitude on [-1, 1], and increasing. *)
Lemma curve_y_opp (k x : Q) : curve_y k (- x) == - curve_y k x.
Proof.
  unfold curve_y. rewrite Qabs_opp.
  unfold Qdiv. ring.
Qed.

Lemma curve_y_zero (k x : Q) : x == 0 -> curve_y k x == 0.
Proof.
  intros Hx. unfold curve_y. rewrite Hx. unfold Qdiv. ring.
Qed.

Lemma curve_y_bound (k x : Q) :
  0 <= k -> -1 <= x <= 1 -> Qabs (curve_y k x) < Math.PI / 9.
Proof.
  intros Hk Hx. pose proof PI_bounds as [HP1 HP2].
  pose proof (curve_denominator_pos k x Hk) as Hd.
  unfold curve_y. set (P := Math.PI) in *. clearbody P.
  set (a := Qabs x) in *.
  assert (0 <= a /\ a <= 1 /\ x <= a /\ - a <= x) as (Ha0 & Ha1 & Hxa & Hax).
  { unfold a. pose proof (Qabs_nonneg x). pose proof (Qle_Qabs x).
    pose proof (Qle_Qabs (- x)) as H2. rewrite Qabs_opp in H2.
    repeat split; try lra. apply Qabs_Qle_condition. lra. }
  clearbody a.
  set (D := P + k * a) in *.
  assert ((3 + k) * x * 20 * (P / 180) / D
          == ((3 + k) * x) * (P / 9) / D) as -> by (field; lra).
  apply Qabs_Qlt_condition.
  pose proof (Qmult_le_0_compat k (a - x) Hk ltac:(lra)) as H1.
  pose proof (Qmult_le_0_compat k (a + x) Hk ltac:(lra)) as H2.
  assert (0 < P / 9) as HP9.
  { apply Qlt_shift_div_l; lra. }
  assert ((3 + k) * x < D) as Hu by (unfold D; lra).
  assert (- D < (3 + k) * x) as Hl by (unfold D; lra).
  clearbody D.
  split.
  - apply Qlt_shift_div_l; [done|].
    pose proof (Qmult_lt_compat_r _ _ (P / 9) HP9 Hl). lra.
  - apply Qlt_shift_div_r; [done|].
    pose proof (Qmult_lt_compat_r _ _ (P / 9) HP9 Hu). lra.
Qed.

Lemma curve_y_lt (k x y : Q) :
  0 <= k -> x < y -> curve_y k x < curve_y k y.
Proof.
  intros Hk Hxy. pose proof PI_bounds as [HP1 HP2].
  pose proof (curve_denominator_pos k x Hk) as Hdx.
  pose proof (curve_denominator_pos k y Hk) as Hdy.
  unfold curve_y. set (P := Math.PI) in *. clearbody P.
  assert (forall z D, ~ D == 0 ->
            (3 + k) * z * 20 * (P / 180) / D
            == ((3 + k) * (P / 9)) * (z / D)) as E
    by (intros; field; done).
  rewrite !E by lra.
  assert (0 < (3 + k) * (P / 9)) as Hc.
  { apply Qmult_lt_0_compat; [lra|]. apply Qlt_shift_div_l; lra. }
  rewrite !(Qmult_comm ((3 + k) * (P / 9))).
  apply Qmult_lt_compat_r; [done|].
  (* x / (P + k |x|) < y / (P + k |y|) *)
  apply Qlt_shift_div_r; [done|].
  assert (y / (P + k * Qabs y) * (P + k * Qabs x)
          == y * (P + k * Qabs x) / (P + k * Qabs y)) as E'
    by (field; lra).
  rewrite E'. apply Qlt_shift_div_l; [done|].
  (* x (P + k |y|) < y (P + k |x|) *)
  assert (0 <= k * (y * Qabs x - x * Qabs y)) as Hcross.
  { apply Qmult_le_0_compat; [done|].
    destruct (Qlt_le_dec x 0) as [Hx|Hx], (Qlt_le_dec y 0) as [Hy|Hy].
    - rewrite (Qabs_neg x), (Qabs_neg y) by lra. ring_simplify. lra.
    - rewrite (Qabs_neg x), (Qabs_pos y) by lra.
      pose proof (Qmult_le_0_compat y (- x) Hy ltac:(lra)). lra.
    - lra.
    - rewrite (Qabs_pos x), (Qabs_pos y) by lra. ring_simplify. lra. }
  assert (0 < P * (y - x)) as Hlin.
  { apply Qmult_lt_0_compat; lra. }
  lra.
Qed.

End DistortionCurve.





Lemma length_fill {A} (n : nat) (f : nat -> A) (a : list A) :
  length (JS.fill n f a) = length a.
Proof.
  rewrite fill_spec, length_app, length_map, length_seq, length_drop. lia.
Qed.

(** A loop that runs past the end of its array fills the whole of it. *)
Lemma fill_past_the_end {A} (n m : nat) (f : nat -> A) (d : A) :
  (m <= n)%nat -> JS.fill n f (replicate m d) = List.map f (seq 0 m).
Proof.
  intros Hmn. rewrite fill_spec, length_replicate.
  replace (n `min` m)%nat with m by lia.
  rewrite drop_ge by (rewrite length_replicate; lia).
  by rewrite app_nil_r.
Qed.

Section ImpulseResponse.
Local Open Scope Q_scope.
Import Num.

Lemma Qpower_unit_interval (b : Q) (n : Z) :
  0 <= b <= 1 -> (0 <= n)%Z -> 0 <= b ^ n <= 1.
Proof.
  intros [Hb0 Hb1] Hn. split; [by apply Qpower_0_le|].
  destruct (Qeq_dec b 0) as [Hz|Hnz].
  - destruct (Z.eq_dec n 0%Z) as [->|Hn0]; [discriminate|].
    rewrite Hz, Qpower_0 by done. discriminate.
  - assert (0 < b) as Hpos by lra.
    assert (1 <= / b) as Hinv.
    { apply Qle_shift_inv_l; lra. }
    pose proof (Qpower_1_le (/ b) n Hinv Hn) as H1.
    pose proof (Qpower_0_lt b n Hpos) as H2.
    rewrite Qinv_power in H1.
    set (x := b ^ n) in *. clearbody x.
    assert (x * / x == 1) as E by (field; lra).
    pose proof (Qmult_le_l 1 (/ x) x H2) as [_ H3].
    specialize (H3 H1). lra.
Qed.

(** The frames of the buffer and the passes of the loop, for a length that
    [createBuffer] accepts. *)
Lemma impulse_frames (L : Q) :
  1 <= L -> L < 4294967296 ->
  let frames := Z.to_nat (ToUint32 (Fin L)) in
  Z.of_nat frames = Qfloor L /\ (1 <= frames)%nat /\
  (frames <= passes (Fin L))%nat.
Proof.
  intros H1 H2. cbn zeta. unfold ToUint32, passes.
  rewrite Qtrunc_nonneg by lra.
  assert (L <= inject_Z 4294967296) as H2'.
  { change (inject_Z 4294967296) with 4294967296. lra. }
  pose proof (Qfloor_bounds L 1 4294967296 H1 H2') as Hf.
  pose proof (Qfloor_le L) as Hfl. pose proof (Qlt_floor L) as Hlt.
  assert (Qfloor L < 4294967296)%Z as Hf'.
  { rewrite Zlt_Qlt. change (inject_Z 4294967296) with 4294967296. lra. }
  pose proof (Qle_ceiling L) as Hc.
  assert (Qfloor L <= Qceiling L)%Z as Hfc.
  { rewrite Zle_Qle. lra. }
  change (2 ^ 32)%Z with 4294967296%Z.
  rewrite Z.mod_small by lia. lia.
Qed.

(** What [createImpulseResponse] returns for at least one frame. *)
Lemma createImpulseResponse_made (random : nat -> Q) (pow : num -> num -> num)
    (context : AudioContext) (sampleRate duration : Q) (decay : num)
    (reverse : bool) :
  8000 <= sampleRate <= 96000 ->
  1 <= sampleRate * duration -> sampleRate * duration < 4294967296 ->
  let frames := Z.to_nat (Qfloor (sampleRate * duration)) in
  createImpulseResponse random pow context sampleRate (Fin duration) decay
    reverse
  = Ok {| ab_sampleRate := sampleRate;
          ab_length := frames;
          ab_channels :=
            List.map
              (fun channel =>
                 List.map
                   (impulse_sample random pow (Fin (sampleRate * duration))
                      decay reverse channel)
                   (seq 0 frames))
              (seq 0 2) |}.
Proof.
  intros [Hr1 Hr2] HL Hsz frames. unfold createImpulseResponse.
  change (Num.mul (Fin sampleRate) (Fin duration))
    with (Fin (sampleRate * duration)).
  set (L := sampleRate * duration) in *.
  destruct (impulse_frames L HL Hsz) as (Hf & Hf1 & Hp).
  assert (Z.to_nat (ToUint32 (Fin L)) = frames) as Ef by (unfold frames; lia).
  rewrite Ef in Hf1, Hp.
  unfold createBuffer. rewrite Ef.
  rewrite (proj2 (Qle_bool_iff 8000 sampleRate)) by done.
  rewrite (proj2 (Qle_bool_iff sampleRate 96000)) by done.
  rewrite (proj2 (Nat.leb_le 1 frames)) by done.
  change ((1 <=? 2)%nat && (2 <=? 32)%nat && true && true && true)
    with true.
  cbv iota. unfold rbind.
  cbn [ab_sampleRate ab_length ab_channels].
  f_equal. f_equal.
  rewrite imap_replicate. apply map_ext. intros channel.
  by rewrite fill_past_the_end.
Qed.

End ImpulseResponse.



(** X10.  An impulse response never leaves [-1, 1]: at a context rate of 8000
    to 96000 Hz, for at least one frame and fewer than 2^32, when every
    value of [Math.random] lies in [0, 1), [Math.pow] takes a base in [0, 1]
    and an exponent that is not negative to a value in [0, 1], and the decay
    is finite and not negative, [createImpulseResponse] returns a buffer in
    which sample [i] of channel [c] is [(2 r - 1) * pow(b, decay)], [r]
    being the value of call [2 i + c] of [Math.random] and the base [b]
    being [1 - i / length], or [1 - (length - i) / length] when the response
    is reversed; every sample is finite and within [-1, 1].  The arithmetic
    is exact. *)
Theorem impulse_response_bounded (random : nat -> Q) (pow : num -> num -> num)
    (context : AudioContext) (sampleRate duration decay : Q)
    (reverse : bool) :
  (forall call : nat, (0 <= random call < 1)%Q) ->
  (forall base exponent : Q,
     (0 <= base <= 1)%Q -> (0 <= exponent)%Q ->
     exists v : Q,
       pow (Fin base) (Fin exponent) = Fin v /\ (0 <= v <= 1)%Q) ->
  (0 <= decay)%Q -> (8000 <= sampleRate <= 96000)%Q ->
  (1 <= sampleRate * duration)%Q ->
  (sampleRate * duration < 4294967296)%Q ->
  exists impulse : AudioBuffer,
    createImpulseResponse random pow context sampleRate (Fin duration)
      (Fin decay) reverse = Ok impulse /\
    forall channel i : nat,
      (channel < 2)%nat -> (i < ab_length impulse)%nat ->
      exists (channelData : Float32Array) (base envelope : Q),
        ab_channels impulse !! channel = Some channelData /\
        (base
         == 1 - (if reverse
                 then sampleRate * duration - inject_Z (Z.of_nat i)
                 else inject_Z (Z.of_nat i)) / (sampleRate * duration))%Q /\
        (0 <= base <= 1)%Q /\
        pow (Fin base) (Fin decay) = Fin envelope /\
        channelData !! i
        = Some (Fin ((random (2 * i + channel)%nat * 2 - 1) * envelope)) /\
        (-1 <= (random (2 * i + channel)%nat * 2 - 1) * envelope <= 1)%Q.
Proof.
  intros Hrandom Hpow Hdecay Hr HL Hsz.
  rewrite (createImpulseResponse_made _ _ _ _ _ _ _ Hr HL Hsz).
  eexists. split; [reflexivity|].
  cbn [ab_length ab_channels].
  set (L := (sampleRate * duration)%Q) in *.
  assert (0 <= Qfloor L) as Hf0.
  { change 0 with (Qfloor 0). apply Qfloor_resp_le. lra. }
  intros channel i Hch Hi.
  assert (0 <= inject_Z (Z.of_nat i))%Q as Hi0.
  { change 0%Q with (inject_Z 0). rewrite <- Zle_Qle. lia. }
  assert (inject_Z (Z.of_nat i) + 1 <= L)%Q as HiL.
  { pose proof (Qfloor_le L) as Hfl.
    assert (inject_Z (Z.of_nat i) + 1 <= inject_Z (Qfloor L))%Q; [|lra].
    change 1%Q with (inject_Z 1). rewrite <- inject_Z_plus, <- Zle_Qle. lia. }
  set (n := (if reverse then L - inject_Z (Z.of_nat i)
             else inject_Z (Z.of_nat i))%Q).
  assert (0 <= n <= L)%Q as Hn by (unfold n; destruct reverse; lra).
  assert (0 <= n / L)%Q as Hq0 by (apply Qle_shift_div_l; lra).
  assert (n / L <= 1)%Q as Hq1 by (apply Qle_shift_div_r; lra).
  destruct (Hpow (1 - n / L)%Q decay ltac:(lra) Hdecay) as (v & Hv & Hv01).
  eexists _, (1 - n / L)%Q, v.
  split.
  { rewrite list_lookup_fmap, lookup_seq_lt by done. reflexivity. }
  split; [reflexivity|]. split; [lra|]. split; [exact Hv|].
  pose proof (Hrandom (2 * i + channel)%nat) as Hrand.
  split.
  - rewrite list_lookup_fmap, lookup_seq_lt by done.
    cbn [fmap option_fmap option_map Nat.add]. f_equal.
    unfold impulse_sample.
    assert (subtract (Fin 1)
              (Num.div
                 (if reverse then subtract (Fin L) (Num.of_nat i)
                  else Num.of_nat i) (Fin L))
            = Fin (1 - n / L)) as ->.
    { assert ((if reverse then subtract (Fin L) (Num.of_nat i)
               else Num.of_nat i) = Fin n) as ->
        by (unfold n; by destruct reverse).
      cbn [Num.div]. by rewrite Qeq_bool_false by lra. }
    by rewrite Hv.
  - set (r := random (2 * i + channel)%nat) in *. clearbody r.
    pose proof (Qmult_le_0_compat (1 - (r * 2 - 1)) v ltac:(lra) ltac:(lra)).
    pose proof (Qmult_le_0_compat (r * 2 - 1 + 1) v ltac:(lra) ltac:(lra)).
    lra.
Qed.

(** [Math.pow] on whole exponents, a sequence of values of [Math.random],
    and two frames, reversed. *)
Lemma impulse_response_bounded_witness :
  let random := fun call : nat => (Z.of_nat (call mod 4) # 4)%Q in
  let pow := fun base exponent : num =>
               match base, exponent with
               | Fin b, Fin e => Fin (b ^ Qfloor e)
               | _, _ => NaN
               end in
  let context := {| state := running |} in
  (forall call : nat, (0 <= random call < 1)%Q) /\
  (0 <= 2)%Q /\ (8000 <= 8000 <= 96000)%Q /\ (1 <= 8000 * (1 # 4000))%Q /\
  (8000 * (1 # 4000) < 4294967296)%Q /\
  exists impulse : AudioBuffer,
    createImpulseResponse random pow context 8000 (Fin (1 # 4000)) (Fin 2)
      true = Ok impulse /\
    ab_length impulse = 2%nat.
Proof.
  cbv zeta.
  assert (forall call : nat, (0 <= Z.of_nat (call mod 4) # 4 < 1)%Q)
    as Hrandom.
  { intros call. unfold Qle, Qlt. cbn [Qnum Qden].
    pose proof (Nat.mod_upper_bound call 4 ltac:(lia)). lia. }
  assert (forall base exponent : Q,
            (0 <= base <= 1)%Q -> (0 <= exponent)%Q ->
            exists v : Q,
              Fin (base ^ Qfloor exponent) = Fin v /\ (0 <= v <= 1)%Q)
    as Hpow.
  { intros base exponent Hb He. eexists. split; [reflexivity|].
    apply Qpower_unit_interval; [done|].
    change 0%Z with (Qfloor 0). by apply Qfloor_resp_le. }
  assert (8000 <= 8000 <= 96000)%Q as Hr by (split; discriminate).
  split; [exact Hrandom|]. split; [discriminate|]. split; [exact Hr|].
  split; [discriminate|]. split; [reflexivity|].
  destruct (impulse_response_bounded
              (fun call : nat => (Z.of_nat (call mod 4) # 4)%Q)
              (fun base exponent : num =>
                 match base, exponent with
                 | Fin b, Fin e => Fin (b ^ Qfloor e)
                 | _, _ => NaN
                 end)
              {| state := running |} 8000 (1 # 4000) 2 true
              Hrandom Hpow ltac:(discriminate) Hr ltac:(discriminate)
              eq_refl) as (impulse & Hi & _).
  exists impulse. split; [exact Hi|].
  vm_compute in Hi. by injection Hi as <-.
Defined.

(** ** The life of a manager *)

(** ** [stopAllAudio], node by node *)

Lemma stop_sources_each (ids : list nat) (srcs : list AudioBufferSourceNode)
    (id : nat) (s : AudioBufferSourceNode) :
  srcs !! id = Some s -> src_start s <> None -> src_ending s = None ->
  let srcs' :=
    foldr (fun source srcs =>
             match srcs !! source with
             | Some s =>
                 match source_stop s with
                 | Ok s' => <[source := s']> srcs
                 | Throw _ => srcs
                 end
             | None => srcs
             end) srcs ids in
  (id ∈ ids -> srcs' !! id = Some (stopped s)) /\
  (id ∉ ids -> srcs' !! id = Some s).
Proof.
  intros Hs Hst Hen. induction ids as [|a ids IH]; cbn zeta.
  - split; [by intros ?%elem_of_nil | done].
  - cbn [foldr]. cbn zeta in IH. destruct IH as [IHin IHout].
    set (done_ := foldr _ srcs ids) in *.
    assert (done_ !! id = Some s \/ done_ !! id = Some (stopped s)) as Hid.
    { destruct (decide (id ∈ ids)); [right; auto | left; auto]. }
    rewrite not_elem_of_cons, elem_of_cons.
    destruct (decide (id = a)) as [<-|Hne].
    + split; [intros _ | by intros [? _]].
      destruct Hid as [Hid|Hid]; rewrite Hid; unfold source_stop.
      * destruct (src_start s) eqn:Est; [|done]. rewrite Hen.
        unfold stopped. rewrite Est.
        apply list_lookup_insert_eq. by eapply lookup_lt_Some.
      * cbn [stopped src_start src_ending].
        destruct (src_start s) eqn:Est; [|done].
        rewrite list_insert_id by done. exact Hid.
    + assert (match done_ !! a with
              | Some s0 =>
                  match source_stop s0 with
                  | Ok s' => <[a := s']> done_
                  | Throw _ => done_
                  end
              | None => done_
              end !! id = done_ !! id) as ->.
      { destruct (done_ !! a) as [sa|]; [|done].
        destruct (source_stop sa); [|done].
        by rewrite list_lookup_insert_ne. }
      split.
      * intros [?|Hin]; [done | by apply IHin].
      * intros [_ Hout]. by apply IHout.
Qed.

(** A node in the active set that has been started and has not ended is
    stopped by [stopAllAudio]. *)
Lemma stopAllAudio_stop_called (currentTime : Q) (m : LiveManager) (id : nat)
    (s : AudioBufferSourceNode) :
  sources m !! id = Some s -> id ∈ activeSources m ->
  src_start s <> None -> src_ending s = None ->
  sources (stopAllAudio currentTime m) !! id = Some (stopped s).
Proof.
  intros Hs Hin Hst Hen.
  destruct (stop_sources_each (elements (activeSources m)) (sources m) id s
              Hs Hst Hen) as [H _].
  cbn zeta in H. specialize (H ltac:(by apply elem_of_elements)).
  unfold stopAllAudio. fields.
  by destruct (outputAudioContext m).
Qed.

(** ** [handleMessage] and the output path *)

(** A message that carries an interruption is handled as the same message
    without it, and then the interruption. *)
Lemma handleMessage_interrupted (message : LiveServerMessage) (t t' : Q)
    (m : LiveManager) (ctx : AudioContext) (node : nat) :
  outputAudioContext m = Some ctx -> outputNode m = Some node ->
  interrupted message = true ->
  handleMessage message t t' m
  = stopAllAudio t'
      (handleMessage {| inlineData := inlineData message;
                        interrupted := false |} t t' m).
Proof.
  intros Hctx Hnode Hint. unfold handleMessage.
  by rewrite Hctx, Hnode, Hint.
Qed.

Lemma handleMessage_context (message : LiveServerMessage) (t t' : Q)
    (m : LiveManager) :
  outputAudioContext (handleMessage message t t' m) = None
  <-> outputAudioContext m = None.
Proof.
  unfold handleMessage.
  destruct (outputAudioContext m) as [ctx|] eqn:Hctx; [|by rewrite Hctx].
  destruct (outputNode m) as [node|]; [|by rewrite Hctx].
  assert (outputAudioContext
            match inlineData message with
            | Some (c :: rest) => schedule (c :: rest) ctx node t m
            | _ => m
            end <> None) as H1.
  { destruct (inlineData message) as [[|c rest]|]; try congruence.
    apply schedule_spec. }
  destruct (interrupted message).
  - destruct (stopAllAudio_frame t'
                match inlineData message with
                | Some (c :: rest) => schedule (c :: rest) ctx node t m
                | _ => m
                end) as (_ & _ & _ & -> & _).
    split; [done | intros; done].
  - split; [done | intros; done].
Qed.

(** ** [connect] *)

Lemma connect_spec (initial : AudioContextState) (m : LiveManager) :
  let node := fresh (dom (gains m)) in
  connect initial m
  = set_outputNode (Some node)
      (set_gains (<[node := 1%Q]> (gains m))
         (set_outputAudioContext (Some {| state := initial |}) m)) /\
  gains m !! node = None.
Proof.
  cbn zeta. split; [reflexivity|].
  apply not_elem_of_dom, is_fresh.
Qed.

(** X11.  [connect] always starts at full volume: it makes a new gain node,
    one that no earlier call has touched, sets the output node to it with a
    gain of 1 and leaves every other gain node, the source nodes, the set of
    active sources and the cursor as they were.  So a volume set before
    [connect] (which [setVolume] ignores, or puts on the node of an earlier
    connection) is not the volume of the new connection. *)
Theorem connect_starts_at_full_gain (initial : AudioContextState)
    (m : LiveManager) :
  let m' := connect initial m in
  exists node : nat,
    outputNode m' = Some node /\
    gains m !! node = None /\
    gains m' !! node = Some 1%Q /\
    (forall other : nat, other <> node ->
       gains m' !! other = gains m !! other) /\
    outputAudioContext m' = Some {| state := initial |} /\
    sources m' = sources m /\
    activeSources m' = activeSources m /\
    nextStartTime m' = nextStartTime m /\
    forall val : Q,
      exists node' : nat,
        outputNode (connect initial (setVolume val m)) = Some node' /\
        gains (connect initial (setVolume val m)) !! node' = Some 1%Q.
Proof.
  cbn zeta. destruct (connect_spec initial m) as [-> Hfresh].
  eexists. fields. split; [reflexivity|]. split; [exact Hfresh|].
  split; [apply lookup_insert_eq|].
  split; [intros other Hne; by apply lookup_insert_ne|].
  do 4 (split; [reflexivity|]).
  intros val. destruct (connect_spec initial (setVolume val m)) as [-> _].
  eexists. fields. split; [reflexivity | apply lookup_insert_eq].
Qed.



(** X13.  A message that carries both a payload and an interruption plays
    nothing: on a connected manager, the payload (the base64 text of [2 n]
    bytes, [n] at least 1, the clock not negative) is scheduled as a new
    source node and that node is stopped in the same call; afterwards the
    set of active sources is empty and the cursor is the second reading of
    the clock, not the end of the new unit. *)
Theorem interrupting_payload_is_stopped (message : LiveServerMessage)
    (t t' : Q) (m : LiveManager) (ctx : AudioContext) (node : nat)
    (base64Audio : JS.str) (audioBytes : Uint8Array) (n : nat) :
  outputAudioContext m = Some ctx -> outputNode m = Some node ->
  inlineData message = Some base64Audio -> interrupted message = true ->
  base64ToBytes base64Audio = Ok audioBytes ->
  length audioBytes = (2 * n)%nat -> (1 <= n)%nat -> Z.of_nat n < 2 ^ 32 ->
  (0 <= t)%Q ->
  let m' := handleMessage message t t' m in
  length (sources m') = S (length (sources m)) /\
  (exists s : AudioBufferSourceNode,
     sources m' !! length (sources m) = Some s /\
     src_destination s = node /\
     src_start s = Some (Qmax (nextStartTime m) t) /\
     src_ending s = Some stop_called /\
     ab_length (src_buffer s) = n) /\
  activeSources m' = ∅ /\
  nextStartTime m' = t'.
Proof.
  intros Hctx Hnode Hpay Hint Hbytes Hlen Hn Hsz Ht. cbn zeta.
  rewrite (handleMessage_interrupted message t t' m ctx node) by done.
  set (message' := {| inlineData := inlineData message;
                      interrupted := false |}).
  assert (0 <= Qmax (nextStartTime m) t)%Q as Hpos.
  { pose proof (Q.le_max_r (nextStartTime m) t). lra. }
  destruct (handleMessage_enqueues message' t t' m ctx node base64Audio
              audioBytes n Hctx Hnode Hpay eq_refl Hbytes Hlen Hn Hsz Hpos)
    as (_ & _ & Hact & s & Hsrc & Hdest & Hst & Hen & Hbuf).
  set (m1 := handleMessage message' t t' m) in *.
  destruct (stopAllAudio_frame t' m1) as (Hl & _ & _ & _ & Hempty & Hcur).
  cbn zeta in Hl, Hempty, Hcur.
  assert (sources m1 !! length (sources m) = Some s) as Hs.
  { rewrite Hsrc. by apply list_lookup_middle. }
  split; [rewrite Hl, Hsrc, length_app; simpl; lia|].
  split.
  - exists (stopped s). split.
    + apply stopAllAudio_stop_called; [done| |congruence|done].
      rewrite Hact. apply elem_of_union_l. by apply elem_of_singleton.
    + by cbn [stopped src_destination src_start src_ending src_buffer].
  - split; [done|]. rewrite Hcur.
    destruct (outputAudioContext m1) eqn:E; [done|].
    apply handleMessage_context in E. congruence.
Qed.

(** Four bytes and an interruption, at time 3 on a manager just connected:
    the cursor is 5, the second reading of the clock. *)
Lemma interrupting_payload_is_stopped_witness :
  let message := {| inlineData := Some (JS.of_string "AAAAAA==");
                    interrupted := true |} in
  outputAudioContext connected = Some {| state := running |} /\
  outputNode connected = Some 0%nat /\
  base64ToBytes (JS.of_string "AAAAAA==") = Ok [x00; x00; x00; x00] /\
  (0 <= 3)%Q /\
  activeSources (handleMessage message 3 5 connected) = ∅ /\
  nextStartTime (handleMessage message 3 5 connected) = 5%Q.
Proof.
  cbv zeta.
  assert (base64ToBytes (JS.of_string "AAAAAA==") = Ok [x00; x00; x00; x00])
    as Hbytes by (vm_compute; reflexivity).
  split; [reflexivity|]. split; [reflexivity|]. split; [exact Hbytes|].
  split; [discriminate|].
  destruct (interrupting_payload_is_stopped
              {| inlineData := Some (JS.of_string "AAAAAA==");
                 interrupted := true |} 3 5 connected
              {| state := running |} 0%nat (JS.of_string "AAAAAA==")
              [x00; x00; x00; x00] 2%nat
              eq_refl eq_refl eq_refl eq_refl Hbytes eq_refl
              ltac:(lia) ltac:(lia) ltac:(discriminate))
    as (_ & _ & Ha & Hc).
  split; [exact Ha | exact Hc].
Defined.

(** ** The source nodes through the life of a manager *)

Lemma extends_refl (m m' : LiveManager) :
  sources m' = sources m -> extends m m'.
Proof.
  intros E. split; [by rewrite E|].
  intros id s Hs. exists s. by rewrite E.
Qed.

Lemma extends_trans (m1 m2 m3 : LiveManager) :
  extends m1 m2 -> extends m2 m3 -> extends m1 m3.
Proof.
  intros [Hl1 H1] [Hl2 H2]. split; [lia|].
  intros id s Hs.
  destruct (H1 id s Hs) as (s' & Hs' & Hb & Hd & Hst & He).
  destruct (H2 id s' Hs') as (s'' & Hs'' & Hb' & Hd' & Hst' & He').
  exists s''. split; [done|].
  split; [congruence|]. split; [congruence|]. split; [congruence|].
  intros Hended. specialize (He Hended). subst s'. by apply He'.
Qed.

Lemma stopAllAudio_extends (currentTime : Q) (m : LiveManager) :
  extends m (stopAllAudio currentTime m).
Proof.
  destruct (stopAllAudio_sources currentTime m) as [Hl H].
  cbn zeta in Hl, H. split; [lia | exact H].
Qed.

Lemma snoc_extends (m m' : LiveManager) (s : AudioBufferSourceNode) :
  sources m' = sources m ++ [s] -> extends m m'.
Proof.
  intros E. split; [rewrite E, length_app; lia|].
  intros id s0 Hs0. exists s0. rewrite E.
  split; [by apply lookup_app_l_Some | done].
Qed.

Lemma schedule_extends (base64Audio : JS.str) (ctx : AudioContext)
    (node : nat) (t : Q) (m : LiveManager) :
  extends m (schedule base64Audio ctx node t m).
Proof.
  destruct (schedule_spec base64Audio ctx node t m) as [Hs _].
  destruct Hs as [Hsrc _ _ | s Hsrc _ _ _ _ | s Hsrc _ _ _ _ _ _].
  - by apply extends_refl.
  - by eapply snoc_extends.
  - by eapply snoc_extends.
Qed.

Lemma handleMessage_extends (message : LiveServerMessage) (t t' : Q)
    (m : LiveManager) :
  extends m (handleMessage message t t' m).
Proof.
  unfold handleMessage.
  destruct (outputAudioContext m) as [ctx|]; [|by apply extends_refl].
  destruct (outputNode m) as [node|]; [|by apply extends_refl].
  assert (extends m
            match inlineData message with
            | Some (c :: rest) => schedule (c :: rest) ctx node t m
            | _ => m
            end) as H1.
  { destruct (inlineData message) as [[|c rest]|];
      [by apply extends_refl | apply schedule_extends
      | by apply extends_refl]. }
  destruct (interrupted message); [|done].
  eapply extends_trans; [exact H1 | apply stopAllAudio_extends].
Qed.

Lemma device_finishes_extends (id : nat) (m : LiveManager) :
  extends m (device_finishes id m).
Proof.
  unfold device_finishes.
  destruct (sources m !! id) as [s|] eqn:Es; [|by apply extends_refl].
  destruct (src_start s) eqn:Est; [|by apply extends_refl].
  destruct (src_ending s) eqn:Een; [by apply extends_refl|].
  split; fields; [by rewrite length_insert|].
  intros id' s' Hs'. destruct (decide (id' = id)) as [->|Hne].
  - eexists. split.
    { apply list_lookup_insert_eq. by eapply lookup_lt_Some. }
    assert (s' = s) as -> by congruence.
    cbn [src_buffer src_destination src_start src_ending].
    repeat split; done.
  - exists s'. by rewrite list_lookup_insert_ne.
Qed.

Lemma step_extends (m : LiveManager) (e : event) : extends m (step m e).
Proof.
  destruct e as [message t t'|source|source|val]; cbn [step].
  - apply handleMessage_extends.
  - apply device_finishes_extends.
  - by apply extends_refl.
  - apply extends_refl. unfold setVolume.
    destruct (outputNode m); [|done]. by destruct (outputAudioContext m).
Qed.

Lemma disconnect_extends (currentTime : Q) (m : LiveManager) :
  extends m (disconnect currentTime m).
Proof.
  unfold disconnect.
  eapply extends_trans; [apply (stopAllAudio_extends currentTime)|].
  apply extends_refl.
  by destruct (outputAudioContext (stopAllAudio currentTime m)).
Qed.

Lemma act_extends (m : LiveManager) (a : action) : extends m (act m a).
Proof.
  destruct a as [initial|currentTime|e]; cbn [act].
  - by apply extends_refl.
  - apply disconnect_extends.
  - apply step_extends.
Qed.

Lemma lifetime_extends (actions : list action) (m : LiveManager) :
  extends m (lifetime m actions).
Proof.
  revert m. induction actions as [|a actions IH]; intros m.
  - by apply extends_refl.
  - cbn [lifetime foldl]. eapply extends_trans; [apply act_extends|].
    apply IH.
Qed.

(** The units of nodes that keep their start times and buffers. *)
Lemma units_Forall2 (srcs srcs' : list AudioBufferSourceNode) :
  Forall2 (fun s s' =>
             src_start s' = src_start s /\ src_buffer s' = src_buffer s)
    srcs srcs' ->
  omap (fun s => (fun t => (t, duration (src_buffer s))) <$> src_start s)
    srcs'
  = omap (fun s => (fun t => (t, duration (src_buffer s))) <$> src_start s)
      srcs.
Proof.
  induction 1 as [|s s' srcs srcs' [Hst Hb] _ IH]; [done|].
  unfold omap in IH. simpl. by rewrite Hst, Hb, IH.
Qed.

Lemma extends_units (m m' : LiveManager) :
  extends m m' -> exists new : list (Q * Q), units m' = units m ++ new.
Proof.
  intros [Hl H].
  exists (omap (fun s => (fun t => (t, duration (src_buffer s)))
                           <$> src_start s)
            (drop (length (sources m)) (sources m'))).
  unfold units.
  rewrite <- (take_drop (length (sources m)) (sources m')) at 1.
  rewrite omap_app. f_equal.
  apply units_Forall2. apply Forall2_same_length_lookup_2.
  { rewrite length_take. lia. }
  intros id s s' Hs Hs'.
  destruct (H id s Hs) as (s'' & Hs'' & Hb & _ & Hst & _).
  rewrite lookup_take_lt in Hs' by (by eapply lookup_lt_Some).
  assert (s'' = s') as -> by congruence. done.
Qed.

Lemma extends_units_same (m m' : LiveManager) :
  extends m m' -> length (sources m') = length (sources m) ->
  units m' = units m.
Proof.
  intros [_ H] Hl. unfold units. apply units_Forall2.
  apply Forall2_same_length_lookup_2; [done|].
  intros id s s' Hs Hs'.
  destruct (H id s Hs) as (s'' & Hs'' & Hb & _ & Hst & _).
  assert (s'' = s') as -> by congruence. done.
Qed.

(** ** What holds at every moment *)

Lemma coherent_new : coherent new_LiveManager.
Proof.
  repeat split; done.
Qed.

Lemma coherent_connect (initial : AudioContextState) (m : LiveManager) :
  coherent m -> coherent (connect initial m).
Proof.
  intros (Ha & Hb & Hc & Hd & He).
  destruct (connect_spec initial m) as [-> Hfresh].
  repeat split; fields; try done.
  - intros node [= <-]. rewrite lookup_insert_eq. by eexists.
  - intros id s Hs. apply lookup_insert_is_Some'. right. by eapply He.
Qed.

Lemma coherent_stopAllAudio (currentTime : Q) (m : LiveManager) :
  coherent m -> coherent (stopAllAudio currentTime m).
Proof.
  intros (Ha & Hb & Hc & Hd & He).
  destruct (stopAllAudio_frame currentTime m)
    as (Hl & Hg & Hn & Hx & Hempty & _).
  destruct (stopAllAudio_sources currentTime m) as [_ Hs].
  cbn zeta in *. set (m' := stopAllAudio currentTime m) in *.
  split; [|split; [|split; [|split]]].
  - intros id. rewrite Hempty. by intros ?%elem_of_empty.
  - done.
  - rewrite Hx, Hn. done.
  - rewrite Hn, Hg. done.
  - intros id s' Hs'. rewrite Hg.
    destruct (lookup_lt_is_Some_2 (sources m) id) as [s Hsm].
    { rewrite <- Hl. by eapply lookup_lt_Some. }
    destruct (Hs id s Hsm) as (s'' & Hs'' & _ & Hdest & _).
    assert (s'' = s') as -> by congruence.
    rewrite Hdest. by eapply He.
Qed.

Lemma coherent_disconnect (currentTime : Q) (m : LiveManager) :
  coherent m -> coherent (disconnect currentTime m).
Proof.
  intros H. apply (coherent_stopAllAudio currentTime) in H.
  destruct (stopAllAudio_frame currentTime m) as (_ & _ & _ & _ & Hempty & _).
  cbn zeta in Hempty. unfold disconnect.
  set (m' := stopAllAudio currentTime m) in *.
  destruct (outputAudioContext m') eqn:E; [|done].
  destruct H as (Ha & Hb & Hc & Hd & He).
  repeat split; fields; try done.
Qed.

Lemma coherent_schedule (base64Audio : JS.str) (ctx : AudioContext)
    (node : nat) (t : Q) (m : LiveManager) :
  outputNode m = Some node ->
  coherent m -> coherent (schedule base64Audio ctx node t m).
Proof.
  intros Hnode (Ha & Hb & Hc & Hd & He).
  destruct (schedule_spec base64Audio ctx node t m)
    as (Hs & Hg & Hn & Hx).
  cbn zeta in *. set (m' := schedule base64Audio ctx node t m) in *.
  assert (outputNode m' <> None) as Hn' by (rewrite Hn, Hnode; done).
  assert (forall node0, outputNode m' = Some node0 ->
            is_Some (gains m' !! node0)) as Hd'.
  { intros node0. rewrite Hn, Hg. apply Hd. }
  assert (forall s, sources m' = sources m ++ [s] ->
            src_destination s = node ->
            forall id s0, sources m' !! id = Some s0 ->
              is_Some (gains m' !! src_destination s0)) as He'.
  { intros s Hsrc Hdest id s0. rewrite Hsrc, Hg.
    intros [Hold|[_ Hnew]]%lookup_app_Some.
    - by eapply He.
    - destruct (id - length (sources m))%nat; [|done].
      injection Hnew as <-. rewrite Hdest. by apply Hd. }
  destruct Hs as [Hsrc Hact _ | s Hsrc Hst Hdest Hact _
                 | s Hsrc Hst _ Hdest _ Hact _].
  - repeat split; try done.
    + intros id. rewrite Hact, Hsrc. apply Ha.
    + intros id s. rewrite Hsrc, Hg. apply He.
  - split; [|repeat split; try done; by eapply He'].
    intros id. rewrite Hact. intros Hin.
    destruct (Ha id Hin) as (s0 & Hs0 & Hst0).
    exists s0. split; [|done]. rewrite Hsrc. by apply lookup_app_l_Some.
  - split; [|repeat split; try done; by eapply He'].
    intros id. rewrite Hact. intros [Hin|Hin]%elem_of_union.
    + apply elem_of_singleton in Hin as ->.
      exists s. split; [|congruence].
      rewrite Hsrc. by apply list_lookup_middle.
    + destruct (Ha id Hin) as (s0 & Hs0 & Hst0).
      exists s0. split; [|done]. rewrite Hsrc. by apply lookup_app_l_Some.
Qed.

Lemma coherent_handleMessage (message : LiveServerMessage) (t t' : Q)
    (m : LiveManager) :
  coherent m -> coherent (handleMessage message t t' m).
Proof.
  intros H. unfold handleMessage.
  destruct (outputAudioContext m) as [ctx|]; [|done].
  destruct (outputNode m) as [node|] eqn:Hnode; [|done].
  assert (coherent
            match inlineData message with
            | Some (c :: rest) => schedule (c :: rest) ctx node t m
            | _ => m
            end) as H1.
  { destruct (inlineData message) as [[|c rest]|]; try done.
    by apply coherent_schedule. }
  destruct (interrupted message); [|done].
  by apply coherent_stopAllAudio.
Qed.

Lemma coherent_step (m : LiveManager) (e : event) :
  coherent m -> coherent (step m e).
Proof.
  intros H. destruct e as [message t t'|source|source|val]; cbn [step].
  - by apply coherent_handleMessage.
  - pose proof H as (Ha & Hb & Hc & Hd & He).
    unfold device_finishes.
    destruct (sources m !! source) as [s|] eqn:Es; [|done].
    destruct (src_start s) eqn:Est; [|done].
    destruct (src_ending s) eqn:Een; [done|].
    repeat split; fields; try done.
    + intros id Hin. destruct (Ha id Hin) as (s0 & Hs0 & Hst0).
      destruct (decide (id = source)) as [->|Hne].
      * eexists. split.
        { apply list_lookup_insert_eq. by eapply lookup_lt_Some. }
        done.
      * exists s0. by rewrite list_lookup_insert_ne.
    + intros id s0 Hs0. destruct (decide (id = source)) as [->|Hne].
      * rewrite list_lookup_insert_eq in Hs0 by (by eapply lookup_lt_Some).
        injection Hs0 as <-. cbn [src_destination]. by eapply He.
      * rewrite list_lookup_insert_ne in Hs0 by done. by eapply He.
  - destruct H as (Ha & Hb & Hc & Hd & He).
    unfold ended. repeat split; fields; try done.
    + intros id [Hin _]%elem_of_difference. by apply Ha.
    + intros Hx. rewrite (Hb Hx). apply empty_difference_L.
  - pose proof H as (Ha & Hb & Hc & Hd & He).
    unfold setVolume.
    destruct (outputNode m) as [node|] eqn:Hnode; [|done].
    destruct (outputAudioContext m) eqn:Hctx; [|done].
    repeat split; fields; try first [done | congruence].
    + intros node0 Hn0. apply lookup_insert_is_Some'. right.
      apply Hd. congruence.
    + intros id s0 Hs0. apply lookup_insert_is_Some'. right. by eapply He.
Qed.

Lemma coherent_lifetime (actions : list action) (m : LiveManager) :
  coherent m -> coherent (lifetime m actions).
Proof.
  revert m. induction actions as [|a actions IH]; intros m H; [done|].
  cbn [lifetime foldl]. apply IH.
  destruct a as [initial|currentTime|e]; cbn [act].
  - by apply coherent_connect.
  - by apply coherent_disconnect.
  - by apply coherent_step.
Qed.

(** X14.  Nothing that happens to a manager removes or reschedules a unit:
    through any sequence of connects, disconnects, messages (interruptions
    among them), nodes playing out, ['ended'] listeners and volume changes,
    every source node stays at its position with its buffer, its destination
    and its start time, a node that has ended stays as it is, and the list
    of units only grows at its end.  An interruption stops nodes; it takes
    none away. *)
Theorem schedule_only_grows (m : LiveManager) (actions : list action) :
  let m' := lifetime m actions in
  (length (sources m) <= length (sources m'))%nat /\
  (forall (id : nat) (s : AudioBufferSourceNode),
     sources m !! id = Some s ->
     exists s' : AudioBufferSourceNode,
       sources m' !! id = Some s' /\
       src_buffer s' = src_buffer s /\
       src_destination s' = src_destination s /\
       src_start s' = src_start s /\
       (src_ending s <> None -> s' = s)) /\
  exists new : list (Q * Q), units m' = units m ++ new.
Proof.
  cbn zeta. pose proof (lifetime_extends actions m) as H.
  split; [apply H|]. split; [apply H|]. by apply extends_units.
Qed.

(** X15.  At every moment of the life of a manager, from [new LiveManager()]
    through any sequence of connects, disconnects and events: every source
    in the set of active sources is a node that has been started, so that
    [stop()] on it does not throw and the [catch] of [stopAllAudio] is never
    entered; without an output context the set is empty; with an output
    context there is an output node; and the output node and the
    destination of every source node are gain nodes that exist. *)
Theorem manager_stays_coherent (actions : list action) :
  let m := lifetime new_LiveManager actions in
  (forall id : nat, id ∈ activeSources m ->
     exists s : AudioBufferSourceNode,
       sources m !! id = Some s /\ src_start s <> None /\
       is_ok (source_stop s) = true) /\
  (outputAudioContext m = None -> activeSources m = ∅) /\
  (outputAudioContext m <> None -> outputNode m <> None) /\
  (forall node : nat, outputNode m = Some node -> is_Some (gains m !! node)) /\
  (forall (id : nat) (s : AudioBufferSourceNode),
     sources m !! id = Some s -> is_Some (gains m !! src_destination s)).
Proof.
  cbn zeta.
  destruct (coherent_lifetime actions new_LiveManager coherent_new)
    as (Ha & Hb & Hc & Hd & He).
  split; [|done].
  intros id Hin. destruct (Ha id Hin) as (s & Hs & Hst).
  exists s. split; [done|]. split; [done|].
  unfold source_stop. destruct (src_start s); [|done].
  by destruct (src_ending s).
Qed.

(** ** After [disconnect] *)

Lemma stopAllAudio_nothing_active (currentTime : Q) (m : LiveManager) :
  activeSources m = ∅ -> sources (stopAllAudio currentTime m) = sources m.
Proof.
  intros Hempty. unfold stopAllAudio. fields.
  rewrite Hempty, elements_empty. cbn [foldr].
  by destruct (outputAudioContext m).
Qed.

Lemma disconnect_spec (currentTime : Q) (m : LiveManager) :
  let m' := disconnect currentTime m in
  outputAudioContext m' = None /\
  activeSources m' = ∅ /\
  length (sources m') = length (sources m) /\
  gains m' = gains m /\
  outputNode m' = outputNode m /\
  nextStartTime m'
  = match outputAudioContext m with
    | Some _ => currentTime
    | None => 0%Q
    end.
Proof.
  cbn zeta. unfold disconnect.
  destruct (stopAllAudio_frame currentTime m)
    as (Hl & Hg & Hn & Hx & He & Hc).
  cbn zeta in *. set (m' := stopAllAudio currentTime m) in *.
  destruct (outputAudioContext m') eqn:E; fields; repeat split; done.
Qed.

Lemma quiet_interruption (message : LiveServerMessage) (t' : Q)
    (m0 m : LiveManager) :
  quiet m0 m -> quiet m0 (interruption message t' m).
Proof.
  intros (Hx & Ha & Hs & Hg & Hn & Hc). unfold interruption.
  destruct (interrupted message); [|done].
  destruct (stopAllAudio_frame t' m) as (_ & Hg' & Hn' & Hx' & Ha' & Hc').
  cbn zeta in *. rewrite Hx in Hc'.
  pose proof (stopAllAudio_nothing_active t' m Ha) as Hs'.
  repeat split; try congruence. by right.
Qed.

Lemma quiet_occur (m0 m : LiveManager) (hs : list handler) (o : occurrence) :
  late o -> quiet m0 m -> quiet m0 (occur (m, hs) o).1.
Proof.
  intros Hlate Hq. pose proof Hq as (Hx & Ha & Hs & Hg & Hn & Hc).
  destruct o as [message t t'|index t t'|e]; cbn [occur].
  - unfold entering. by rewrite Hx.
  - destruct (hs !! index) as [[message base64Audio|message decoded]|];
      [| |done].
    + assert (resuming message base64Audio t t' m
              = (interruption message t' m, None)) as ->.
      { unfold resuming. rewrite Hx. unfold decoding. by rewrite Hx. }
      cbn [fst]. by apply quiet_interruption.
    + cbn [fst]. unfold scheduling. rewrite Hx.
      assert (match decoded with
              | Ok _ => m
              | Throw _ => m
              end = m) as -> by (by destruct decoded).
      by apply quiet_interruption.
  - cbn [fst]. destruct e as [message t t'|source|source|val];
      cbn [step]; try done.
    + unfold handleMessage. by rewrite Hx.
    + unfold ended. repeat split; fields; try done.
      rewrite Ha. apply empty_difference_L.
    + unfold setVolume. rewrite Hx. by destruct (outputNode m).
Qed.

Lemma quiet_occurrences (os : list occurrence) (m0 m : LiveManager)
    (hs : list handler) :
  Forall late os -> quiet m0 m -> quiet m0 (occurrences (m, hs) os).1.
Proof.
  revert m hs. induction os as [|o os IH]; intros m hs Hlate Hq; [done|].
  apply Forall_cons in Hlate as [Ho Hos].
  cbn [occurrences foldl].
  destruct (occur (m, hs) o) as [m1 hs1] eqn:E.
  apply IH; [done|].
  pose proof (quiet_occur m0 m hs o Ho Hq) as H. by rewrite E in H.
Qed.

(** ** The volume and the other fields *)

Lemma LiveManager_eq (m m' : LiveManager) :
  outputAudioContext m = outputAudioContext m' ->
  outputNode m = outputNode m' ->
  nextStartTime m = nextStartTime m' ->
  activeSources m = activeSources m' ->
  gains m = gains m' ->
  sources m = sources m' ->
  m = m'.
Proof. destruct m, m'. cbn. by intros -> -> -> -> -> ->. Qed.

Lemma stopAllAudio_set_gains (g : gmap nat Q) (currentTime : Q)
    (m : LiveManager) :
  stopAllAudio currentTime (set_gains g m)
  = set_gains g (stopAllAudio currentTime m).
Proof.
  unfold stopAllAudio. fields. by destruct (outputAudioContext m).
Qed.

Lemma schedule_set_gains (g : gmap nat Q) (base64Audio : JS.str)
    (ctx : AudioContext) (node : nat) (t : Q) (m : LiveManager) :
  schedule base64Audio ctx node t (set_gains g m)
  = set_gains g (schedule base64Audio ctx node t m).
Proof.
  unfold schedule. fields.
  destruct (base64ToBytes base64Audio) as [audioBytes|]; [|done].
  destruct (decodeAudioData audioBytes _ 24000 1) as [audioBuffer|];
    [|done].
  by destruct (source_start _ _).
Qed.

Lemma handleMessage_set_gains (g : gmap nat Q) (message : LiveServerMessage)
    (t t' : Q) (m : LiveManager) :
  handleMessage message t t' (set_gains g m)
  = set_gains g (handleMessage message t t' m).
Proof.
  unfold handleMessage. fields.
  destruct (outputAudioContext m) as [ctx|]; [|done].
  destruct (outputNode m) as [node|]; [|done].
  assert (match inlineData message with
          | Some (c :: rest) => schedule (c :: rest) ctx node t (set_gains g m)
          | _ => set_gains g m
          end
          = set_gains g
              match inlineData message with
              | Some (c :: rest) => schedule (c :: rest) ctx node t m
              | _ => m
              end) as ->.
  { destruct (inlineData message) as [[|c rest]|]; try done.
    apply schedule_set_gains. }
  destruct (interrupted message); [|done].
  apply stopAllAudio_set_gains.
Qed.

Lemma step_setVolume (val : Q) (m : LiveManager) (e : event) :
  no_volume e -> step (setVolume val m) e = setVolume val (step m e).
Proof.
  intros He. destruct e as [message t t'|source|source|val']; [| | |done];
    cbn [step].
  - pose proof (handleMessage_routed message t t' m) as (Hn & Hg & _).
    unfold setVolume at 2. rewrite Hn, Hg.
    unfold setVolume.
    destruct (outputNode m) as [node|] eqn:Hnode.
    2: { destruct (outputAudioContext (handleMessage message t t' m));
           done. }
    destruct (outputAudioContext m) as [ctx|] eqn:Hctx.
    + rewrite handleMessage_set_gains.
      destruct (outputAudioContext (handleMessage message t t' m)) eqn:E;
        [done|].
      apply handleMessage_context in E. congruence.
    + by rewrite (proj2 (handleMessage_context message t t' m) Hctx).
  - assert (forall g, device_finishes source (set_gains g m)
                      = set_gains g (device_finishes source m)) as Hfin.
    { intros g. unfold device_finishes. fields.
      destruct (sources m !! source) as [s|]; [|done].
      destruct (src_start s); [|done]. by destruct (src_ending s). }
    assert (outputNode (device_finishes source m) = outputNode m /\
            outputAudioContext (device_finishes source m)
            = outputAudioContext m /\
            gains (device_finishes source m) = gains m) as (Hn & Hx & Hg).
    { unfold device_finishes.
      destruct (sources m !! source) as [s|]; [|done].
      destruct (src_start s); [|done]. by destruct (src_ending s). }
    unfold setVolume. rewrite Hn, Hx, Hg.
    destruct (outputNode m); [|done].
    destruct (outputAudioContext m); [|done]. apply Hfin.
  - unfold setVolume, ended. fields.
    destruct (outputNode m); [|done]. by destruct (outputAudioContext m).
Qed.

(** X16.  The cursor outlives a connection.  After [disconnect] on a manager
    with an output context the cursor is the reading of that context's
    clock, and a new [connect] leaves it there with the units as they were:
    the first payload afterwards is scheduled at the maximum of that old
    reading and the clock of the new context, whatever the new clock shows.
    Only a second [disconnect], without an output context, sets the cursor
    to 0. *)
Theorem cursor_survives_reconnect (m : LiveManager) (t : Q)
    (initial : AudioContextState) :
  outputAudioContext m <> None ->
  let m1 := connect initial (disconnect t m) in
  nextStartTime (disconnect t m) = t /\
  nextStartTime m1 = t /\
  units m1 = units m /\
  (forall t2 : Q, nextStartTime (disconnect t2 (disconnect t m)) = 0%Q) /\
  (forall (message : LiveServerMessage) (t0 t0' : Q) (base64Audio : JS.str)
          (audioBytes : Uint8Array) (n : nat),
     inlineData message = Some base64Audio -> interrupted message = false ->
     base64ToBytes base64Audio = Ok audioBytes ->
     length audioBytes = (2 * n)%nat -> (1 <= n)%nat ->
     Z.of_nat n < 2 ^ 32 -> (0 <= t0)%Q ->
     units (handleMessage message t0 t0' m1)
     = units m ++ [(Qmax t t0, inject_Z (Z.of_nat n) / 24000)%Q]).
Proof.
  intros Hctx. cbn zeta.
  destruct (disconnect_spec t m) as (Hx & Ha & Hl & Hg & Hn & Hc).
  cbn zeta in *. set (m0 := disconnect t m) in *.
  assert (nextStartTime m0 = t) as Ht.
  { rewrite Hc. by destruct (outputAudioContext m). }
  destruct (connect_spec initial m0) as [Econ _]. cbn zeta in Econ.
  assert (nextStartTime (connect initial m0) = t) as Ht1.
  { rewrite Econ. by fields. }
  assert (units (connect initial m0) = units m) as Hu.
  { transitivity (units m0).
    - unfold units. rewrite Econ. by fields.
    - apply extends_units_same; [apply disconnect_extends | done]. }
  split; [done|]. split; [done|]. split; [done|]. split.
  - intros t2. destruct (disconnect_spec t2 m0) as (_ & _ & _ & _ & _ & Hc2).
    cbn zeta in Hc2. by rewrite Hc2, Hx.
  - intros message t0 t0' base64Audio audioBytes n Hpay Hint Hbytes Hlen Hn1
      Hsz Ht0.
    assert (0 <= Qmax (nextStartTime (connect initial m0)) t0)%Q as Hpos.
    { pose proof (Q.le_max_r (nextStartTime (connect initial m0)) t0). lra. }
    destruct (handleMessage_enqueues message t0 t0' (connect initial m0)
                {| state := initial |} (fresh (dom (gains m0)))
                base64Audio audioBytes n
                ltac:(by rewrite Econ) ltac:(by rewrite Econ)
                Hpay Hint Hbytes Hlen Hn1 Hsz Hpos) as (Hunits & _).
    by rewrite Hunits, Hu, Ht1.
Qed.

(** A unit scheduled at time 0, a disconnect when the clock shows 7 and a
    new connection, whose clock starts again: the next payload is scheduled
    at 7. *)
Lemma cursor_survives_reconnect_witness :
  let m := handleMessage silence 0 0 connected in
  let m1 := connect running (disconnect 7 m) in
  outputAudioContext m <> None /\
  nextStartTime m1 = 7%Q /\
  units (handleMessage silence 0 0 m1)
  = units m ++ [(Qmax 7 0, inject_Z 2 / 24000)%Q].
Proof.
  cbv zeta.
  assert (outputAudioContext (handleMessage silence 0 0 connected) <> None)
    as Hctx.
  { intros H. apply handleMessage_context in H. discriminate H. }
  destruct (cursor_survives_reconnect
              (handleMessage silence 0 0 connected) 7 running Hctx)
    as (_ & Hc & _ & _ & Hnext).
  split; [exact Hctx|]. split; [exact Hc|].
  apply (Hnext silence 0%Q 0%Q (JS.of_string "AAAAAA==") [x00; x00; x00; x00]
           2%nat eq_refl eq_refl);
    [vm_compute; reflexivity | reflexivity | lia | lia | discriminate].
Defined.

(** X17.  Once a manager is disconnected nothing that still reaches it is
    played or changes its volume: messages that arrive, handlers of earlier
    messages that were waiting at an [await] and go on, in any order,
    ['ended'] listeners and calls of [setVolume] leave the source nodes, the
    gains and the output node as [disconnect] left them, the set of active
    sources empty and the manager without an output context; the cursor
    stays as it was, or becomes 0 when a handler that goes on carries an
    interruption. *)
Theorem disconnected_manager_is_inert (m : LiveManager) (t : Q)
    (hs : list handler) (os : list occurrence) :
  Forall late os ->
  let m0 := disconnect t m in
  let m' := (occurrences (m0, hs) os).1 in
  outputAudioContext m' = None /\
  activeSources m' = ∅ /\
  sources m' = sources m0 /\
  gains m' = gains m0 /\
  outputNode m' = outputNode m0 /\
  (nextStartTime m' = nextStartTime m0 \/ nextStartTime m' = 0%Q).
Proof.
  intros Hlate. cbn zeta.
  apply (quiet_occurrences os (disconnect t m) (disconnect t m) hs Hlate).
  destruct (disconnect_spec t m) as (Hx & Ha & _).
  repeat split; try done. by left.
Qed.

(** A handler that was waiting for its payload to be decoded when the
    manager was disconnected, and a message that arrives afterwards. *)
Lemma disconnected_manager_is_inert_witness :
  let waiting :=
    at_decode silence
      (decodeAudioData [x00; x00; x00; x00] {| state := running |} 24000 1) in
  let os := [GoesOn 0 9 9; Arrives silence 9 9; Alone (Volume 30)] in
  Forall late os /\
  sources (occurrences (disconnect 8 connected, [waiting]) os).1
  = sources (disconnect 8 connected) /\
  activeSources (occurrences (disconnect 8 connected, [waiting]) os).1 = ∅.
Proof.
  cbv zeta.
  assert (Forall late [GoesOn 0 9 9; Arrives silence 9 9; Alone (Volume 30)])
    as Hlate by (repeat constructor).
  split; [exact Hlate|].
  destruct (disconnected_manager_is_inert connected 8
              [at_decode silence
                 (decodeAudioData [x00; x00; x00; x00]
                    {| state := running |} 24000 1)]
              _ Hlate) as (_ & Ha & Hs & _).
  split; [exact Hs | exact Ha].
Defined.

(** X18.  The volume and the schedule do not touch each other: setting the
    volume before a sequence of events (messages, interruptions, nodes
    playing out, ['ended'] listeners) leaves the manager exactly as setting
    it afterwards does. *)
Theorem volume_commutes_with_events (m : LiveManager) (val : Q)
    (events : list event) :
  Forall no_volume events ->
  run (setVolume val m) events = setVolume val (run m events).
Proof.
  revert m. induction events as [|e events IH]; intros m Hev; [done|].
  apply Forall_cons in Hev as [He Hev].
  cbn [run foldl]. rewrite step_setVolume by done.
  apply (IH (step m e) Hev).
Qed.

(** A payload and an interruption, the volume set to 30 before or after. *)
Lemma volume_commutes_with_events_witness :
  let interruption := {| inlineData := None; interrupted := true |} in
  let events := [Message silence 0 0; Message interruption 1 1] in
  Forall no_volume events /\
  run (setVolume 30 connected) events = setVolume 30 (run connected events).
Proof.
  cbv zeta.
  assert (Forall no_volume
            [Message silence 0 0;
             Message {| inlineData := None; interrupted := true |} 1 1])
    as Hev by (repeat constructor).
  split; [exact Hev|].
  exact (volume_commutes_with_events connected 30 _ Hev).
Defined.

(** X19.  A payload that cannot be decoded is dropped and nothing else is
    lost: on a connected manager, when the text of the payload is not
    base64, or its bytes are refused by [decodeAudioData] (an odd number of
    them, or none), the handler adds no source node and leaves the active
    sources, the gains and the output node as they were; the output context
    stays, resumed if it was suspended, and the cursor has still been moved
    up to the clock. *)
Theorem bad_payload_is_dropped (message : LiveServerMessage) (t t' : Q)
    (m : LiveManager) (ctx : AudioContext) (node : nat)
    (base64Audio : JS.str) :
  outputAudioContext m = Some ctx -> outputNode m = Some node ->
  inlineData message = Some base64Audio -> base64Audio <> [] ->
  interrupted message = false ->
  (forall audioBytes : Uint8Array,
     base64ToBytes base64Audio = Ok audioBytes ->
     is_ok (decodeAudioData audioBytes ctx 24000 1) = false) ->
  let m' := handleMessage message t t' m in
  sources m' = sources m /\
  activeSources m' = activeSources m /\
  gains m' = gains m /\
  outputNode m' = Some node /\
  outputAudioContext m'
  = Some match state ctx with
         | suspended => {| state := running |}
         | _ => ctx
         end /\
  nextStartTime m' = Qmax (nextStartTime m) t.
Proof.
  intros Hctx Hnode Hpay Hne Hint Hbad. cbn zeta.
  destruct base64Audio as [|c rest]; [done|].
  unfold handleMessage. rewrite Hctx, Hnode, Hpay, Hint.
  unfold schedule. fields.
  destruct (base64ToBytes (c :: rest)) as [audioBytes|e] eqn:Eb;
    [|by fields].
  specialize (Hbad audioBytes eq_refl).
  rewrite (decodeAudioData_ctx audioBytes _ ctx).
  destruct (decodeAudioData audioBytes ctx 24000 1); [done|]. by fields.
Qed.

(** A text that is not base64, and the text of a single byte, on a manager
    whose context is suspended, the clock at 2. *)
Lemma bad_payload_is_dropped_witness :
  let m := connect suspended new_LiveManager in
  let garbled := {| inlineData := Some (JS.of_string "!!!!");
                    interrupted := false |} in
  let one_byte := {| inlineData := Some (JS.of_string "AA==");
                     interrupted := false |} in
  base64ToBytes (JS.of_string "!!!!") = Throw InvalidCharacterError /\
  base64ToBytes (JS.of_string "AA==") = Ok [x00] /\
  decodeAudioData [x00] {| state := suspended |} 24000 1 = Throw RangeError /\
  sources (handleMessage garbled 2 2 m) = [] /\
  nextStartTime (handleMessage garbled 2 2 m) = Qmax 0 2 /\
  sources (handleMessage one_byte 2 2 m) = [] /\
  outputAudioContext (handleMessage one_byte 2 2 m)
  = Some {| state := running |}.
Proof.
  cbv zeta.
  assert (base64ToBytes (JS.of_string "!!!!") = Throw InvalidCharacterError)
    as H1 by (vm_compute; reflexivity).
  assert (base64ToBytes (JS.of_string "AA==") = Ok [x00])
    as H2 by (vm_compute; reflexivity).
  assert (decodeAudioData [x00] {| state := suspended |} 24000 1
          = Throw RangeError) as H3 by (vm_compute; reflexivity).
  split; [exact H1|]. split; [exact H2|]. split; [exact H3|].
  destruct (bad_payload_is_dropped
              {| inlineData := Some (JS.of_string "!!!!");
                 interrupted := false |} 2 2
              (connect suspended new_LiveManager)
              {| state := suspended |} 0%nat (JS.of_string "!!!!")
              eq_refl eq_refl eq_refl ltac:(discriminate) eq_refl)
    as (Hs & _ & _ & _ & _ & Hc).
  { intros audioBytes Hb. rewrite H1 in Hb. discriminate Hb. }
  destruct (bad_payload_is_dropped
              {| inlineData := Some (JS.of_string "AA==");
                 interrupted := false |} 2 2
              (connect suspended new_LiveManager)
              {| state := suspended |} 0%nat (JS.of_string "AA==")
              eq_refl eq_refl eq_refl ltac:(discriminate) eq_refl)
    as (Hs' & _ & _ & _ & Hx & _).
  { intros audioBytes Hb. rewrite H2 in Hb. injection Hb as <-.
    by rewrite H3. }
  split; [exact Hs|]. split; [exact Hc|]. split; [exact Hs' | exact Hx].
Defined.

(** ** The capture side *)

Lemma resampleTo16k_returns (x : Float32Array) (rate : Q) :
  (0 < rate)%Q ->
  exists y : Float32Array,
    resampleTo16k x rate = Ok y /\
    Z.of_nat (length y)
    = if Qeq_bool rate 16000 then Z.of_nat (length x)
      else Num.Math_round (inject_Z (Z.of_nat (length x)) / (rate / 16000)).
Proof.
  intros Hpos. destruct (Qeq_dec rate 16000) as [Heq|Hne].
  - exists x. split; [by apply resampleTo16k_same_rate|].
    by rewrite (proj2 (Qeq_bool_iff rate 16000) Heq).
  - rewrite (resampleTo16k_unfold x rate Hpos Hne).
    eexists. split; [reflexivity|].
    rewrite (Qeq_bool_false _ _ Hne), length_map, length_seq.
    pose proof (newLength_nonneg (length x) (rate / 16000)
                  (ratio_pos rate Hpos)).
    lia.
Qed.

Lemma createPcmBlob_text (data : Float32Array) (sampleRate : N) :
  exists blob : Blob,
    createPcmBlob data sampleRate = Ok blob /\
    base64ToBytes (blob_data blob)
    = Ok (Uint8Array_of_Int16Array (List.map pcm_sample data)) /\
    length (blob_data blob) = (4 * ((2 * length data + 2) / 3))%nat /\
    blob_mimeType blob
    = JS.of_string
        ("audio/pcm;rate=" ++ NilZero.string_of_uint (N.to_uint sampleRate)).
Proof.
  destruct (createPcmBlob_spec data sampleRate) as (blob & Hblob & Hbytes).
  exists blob. split; [done|]. split; [done|].
  unfold createPcmBlob in Hblob. rewrite createPcmBlob_int16 in Hblob.
  destruct (bytesToBase64_shape
              (Uint8Array_of_Int16Array (List.map pcm_sample data)))
    as (body & Hb & _ & _ & Hlen).
  cbv zeta in Hb, Hlen.
  set (text := body ++ replicate _ _) in *. clearbody text.
  rewrite Hb in Hblob. unfold rbind in Hblob.
  assert (blob
          = {| blob_data := text;
               blob_mimeType :=
                 JS.of_string
                   ("audio/pcm;rate="
                      ++ NilZero.string_of_uint (N.to_uint sampleRate)) |})
    as -> by congruence.
  unfold blob_data at 1, blob_mimeType.
  split; [|done].
  rewrite Hlen, length_Uint8Array_of_Int16Array, length_map. done.
Qed.

(** X20.  Every instruction that [getSystemInstruction] returns, for any
    string, opens with the base sentence and the word Repeat.  The five
    members of [PersonaStyle] get five different instructions, each telling
    the model not to answer questions; none of them gets the instruction of
    the [default] case, which every other string gets. *)
Theorem system_instruction_per_persona :
  (forall persona : string,
     String.prefix "You are a voice repeater AI. Repeat "
       (getSystemInstruction persona) = true) /\
  (forall p q : PersonaStyle,
     getSystemInstruction (PersonaStyle_value p)
     = getSystemInstruction (PersonaStyle_value q) -> p = q) /\
  (forall p : PersonaStyle,
     getSystemInstruction (PersonaStyle_value p)
     <> "You are a voice repeater AI. Repeat exactly what the user says."%string
     /\ String.index 0 "Do not answer questions"
          (getSystemInstruction (PersonaStyle_value p)) <> None) /\
  (forall persona : string,
     (forall p : PersonaStyle, persona <> PersonaStyle_value p) ->
     getSystemInstruction persona
     = "You are a voice repeater AI. Repeat exactly what the user says."%string).
Proof.
  split; [|split; [|split]].
  - intros persona. unfold getSystemInstruction.
    repeat match goal with
           | |- context [String.eqb ?a ?b] => destruct (String.eqb a b)
           end; reflexivity.
  - intros p q. destruct p, q; try reflexivity; intros H; vm_compute in H;
      discriminate H.
  - intros p. split.
    + destruct p; intros H; vm_compute in H; discriminate H.
    + destruct p; vm_compute; discriminate.
  - intros persona Hother. unfold getSystemInstruction.
    rewrite (proj2 (String.eqb_neq persona _) (Hother Echo)).
    rewrite (proj2 (String.eqb_neq persona _) (Hother Pirate)).
    rewrite (proj2 (String.eqb_neq persona _) (Hother Robot)).
    rewrite (proj2 (String.eqb_neq persona _) (Hother Wizard)).
    rewrite (proj2 (String.eqb_neq persona _) (Hother NewsAnchor)).
    reflexivity.
Qed.


